(** * op-mtr: traceroute-driven hop discovery and per-hop ping statistics

    A shallow embedding of the Go package [mtr] (type [OPMTR] with
    [RunMTRWithNoRetryPing], [RunMTR], [RunMTRWithCocurrentPing] and the
    helper [ping]) together with the properties its specification states
    about the hop table, the per-hop statistics and the error paths.

    Layout:
    - [Float64]   the float64 arithmetic the program uses, as an interface
                  with two interpretations: IEEE-754 binary64 ([binary64],
                  built on the Standard Library's [SpecFloat]) and exact
                  rational arithmetic ([exactQ]);
    - [NetLib]    the two functions of Go's [net] package that are called
                  ([net.ParseIP], [net.IP.String]), with a model [GoNet];
    - [Transport] the traceroute library ([Tracer.Trace], sessions) and the
                  clock, with a scripted instance [Mock];
    - the program, then the theorems: the properties of the
                  specification first, then further properties of the run
                  operations (report header, loss counters, probe
                  discipline, schedules of the concurrent operation);
    - [Legacy]    the package-level [RunMTR] of mtr/mtr.go, over the
                  tracer interface it uses ([Ping], [StaticTrace]). *)

From Stdlib Require Import ZArith QArith Lqa String Ascii List.
From Stdlib Require Import Floats.SpecFloat.
From stdpp Require Import gmap strings list fin_maps.

Local Open Scope string_scope.
Local Open Scope Z_scope.

(* ===================================================================== *)
(** * float64 arithmetic *)
(* ===================================================================== *)

(** The operations of Go's [float64] that the program uses: conversion
    from [int] (which also gives the literals [0], [1], [1000], [1e9]),
    [+ - * /] and the comparison [<] ([x > y] is [y < x]).  [exact_count n]
    says that the format holds every whole number from 1 to [n] and that
    adding 1 below [n] is exact: the counter [Snt] is a float64. *)
Class Float64 := {
  float64 : Type;
  f_of_int : Z → float64;
  fadd : float64 → float64 → float64;
  fsub : float64 → float64 → float64;
  fmul : float64 → float64 → float64;
  fdiv : float64 → float64 → float64;
  flt : float64 → float64 → bool;
  exact_count : Z → Prop;
  flt_irrefl : ∀ x, flt x x = false;
  fdiv_1_1 : fdiv (f_of_int 1) (f_of_int 1) = f_of_int 1;
  fdiv_0_1 : fdiv (f_of_int 0) (f_of_int 1) = f_of_int 0;
  fadd_1 : ∀ k n, 1 ≤ k → k + 1 ≤ n → exact_count n →
           fadd (f_of_int k) (f_of_int 1) = f_of_int (k + 1)
}.

(** ** IEEE-754 binary64 *)

Module B64.
Definition prec : Z := 53.
Definition emax : Z := 1024.

Definition of_int (z : Z) : spec_float := binary_normalize prec emax z 0 false.
Definition add : spec_float → spec_float → spec_float := SFadd prec emax.
Definition sub : spec_float → spec_float → spec_float := SFsub prec emax.
Definition mul : spec_float → spec_float → spec_float := SFmul prec emax.
Definition div : spec_float → spec_float → spec_float := SFdiv prec emax.
Definition lt : spec_float → spec_float → bool := SFltb.

Lemma compare_refl_not_Lt x : SFcompare x x ≠ Some Lt.
Proof.
  destruct x as [s|s| |s m e]; simpl; try discriminate.
  - destruct s; discriminate.
  - destruct s; rewrite Z.compare_refl; fold (Pos.compare m m);
      rewrite Pos.compare_refl; discriminate.
Qed.

Lemma lt_irrefl x : lt x x = false.
Proof.
  unfold lt, SFltb. pose proof (compare_refl_not_Lt x) as H.
  destruct (SFcompare x x) as [[| |]|]; congruence.
Qed.

(** *** Counting in binary64

    Below [2^53] every whole number is a binary64 and adding 1 is exact.
    [shl p n] is [p * 2^n]; a whole number [p] with at most 53 digits is
    the float of mantissa [shl p (53 - digits p)]. *)
Lemma iter_pos_nat {A} (f : A → A) (n : positive) (x : A) :
  SpecFloat.iter_pos f n x = Nat.iter (Pos.to_nat n) f x.
Proof.
  revert x. induction n as [n IH|n IH|]; intros x; cbn [SpecFloat.iter_pos].
  - rewrite !IH, Pos2Nat.inj_xI, Nat.iter_succ_r.
    replace (2 * Pos.to_nat n)%nat with (Pos.to_nat n + Pos.to_nat n)%nat by lia.
    now rewrite Nat.iter_add.
  - rewrite !IH, Pos2Nat.inj_xO.
    replace (2 * Pos.to_nat n)%nat with (Pos.to_nat n + Pos.to_nat n)%nat by lia.
    now rewrite Nat.iter_add.
  - reflexivity.
Qed.

Definition shl (p : positive) (n : nat) : positive := Nat.iter n xO p.

Lemma Pos_iter_shl p n : Pos.iter xO p n = shl p (Pos.to_nat n).
Proof. unfold shl. now rewrite Pos2Nat.inj_iter. Qed.

Lemma Zdigits_shl p n : Zpos (digits2_pos (shl p n)) = Zpos (digits2_pos p) + Z.of_nat n.
Proof.
  induction n as [|n IH]; [simpl; lia|].
  unfold shl in *. simpl Nat.iter. cbn [digits2_pos]. rewrite Pos2Z.inj_succ, IH. lia.
Qed.

Lemma shr_shl p n r :
  Nat.iter n shr_1 {| shr_m := Zpos (shl p (n + r)); shr_r := false; shr_s := false |}
  = {| shr_m := Zpos (shl p r); shr_r := false; shr_s := false |}.
Proof.
  induction n as [|n IH]; [reflexivity|].
  rewrite Nat.iter_succ_r. unfold shl at 1. simpl Nat.iter. cbn [shr_1]. simpl orb.
  apply IH.
Qed.

Lemma shl_add p q n : (shl p n + shl q n)%positive = shl (p + q) n.
Proof.
  induction n as [|n IH]; [reflexivity|]. unfold shl in *; simpl. now rewrite <- IH.
Qed.

Lemma shl_shl p a b : shl (shl p a) b = shl p (a + b).
Proof. unfold shl. rewrite Nat.add_comm. now rewrite Nat.iter_add. Qed.

Definition canon (p : positive) : spec_float :=
  S754_finite false (shl p (Z.to_nat (53 - Zpos (digits2_pos p)))) (Zpos (digits2_pos p) - 53).

Lemma round_aligned p e :
  Zpos (digits2_pos p) = 53 → -1074 <= e <= 971 →
  binary_round_aux prec emax false (Zpos p) e loc_Exact = S754_finite false p e.
Proof.
  intros Hd He. unfold binary_round_aux, shr_fexp. cbn [Zdigits2 shr_record_of_loc].
  rewrite Hd. unfold fexp, emin, prec, emax.
  replace (Z.max (53 + e - 53) (3 - 1024 - 53) - e) with 0 by lia.
  cbn [shr shr_m loc_of_shr_record shr_r shr_s round_nearest_even Zdigits2 shr_record_of_loc].
  rewrite Hd.
  replace (Z.max (53 + e - 53) (3 - 1024 - 53) - e) with 0 by lia.
  cbn [shr shr_m].
  replace (e <=? 1024 - 53) with true by (symmetry; apply Z.leb_le; lia).
  reflexivity.
Qed.

Lemma of_int_canon p : Zpos (digits2_pos p) <= 53 → of_int (Zpos p) = canon p.
Proof.
  intros Hd. unfold of_int, binary_normalize, binary_round, canon.
  unfold fexp at 1, emin, prec, emax.
  replace (Z.max (Z.pos (digits2_pos p) + 0 - 53) (3 - 1024 - 53))
    with (Zpos (digits2_pos p) - 53) by lia.
  unfold shl_align.
  destruct (Z.pos (digits2_pos p) - 53 - 0) as [|x|x] eqn:Hx; try lia.
  - replace (Z.to_nat (53 - Z.pos (digits2_pos p))) with 0%nat by lia.
    replace (Z.pos (digits2_pos p) - 53) with 0 by lia.
    simpl shl. apply round_aligned; lia.
  - rewrite Pos_iter_shl.
    replace (Z.to_nat (53 - Z.pos (digits2_pos p))) with (Pos.to_nat x) by lia.
    apply round_aligned; [rewrite Zdigits_shl; lia | lia].
Qed.

Lemma round_shifted q :
  Zpos (digits2_pos q) <= 53 →
  binary_round prec emax false (shl q 52) (-52) = canon q.
Proof.
  intros Hd. unfold binary_round.
  rewrite Zdigits_shl. unfold fexp at 1, emin, prec, emax.
  replace (Z.max (Z.pos (digits2_pos q) + Z.of_nat 52 + -52 - 53) (3 - 1024 - 53))
    with (Zpos (digits2_pos q) - 53) by lia.
  unfold shl_align.
  destruct (Z.pos (digits2_pos q) - 53 - -52) as [|x|x] eqn:Hx; try lia.
  - unfold canon. replace (Z.to_nat (53 - Z.pos (digits2_pos q))) with 52%nat by lia.
    replace (Z.pos (digits2_pos q) - 53) with (-52) by lia.
    apply round_aligned; [rewrite Zdigits_shl; lia | lia].
  - assert (Hit : SpecFloat.iter_pos shr_1 x
                    {| shr_m := Zpos (shl q 52); shr_r := false; shr_s := false |}
                  = {| shr_m := Zpos (shl q (52 - Pos.to_nat x));
                       shr_r := false; shr_s := false |}).
    { rewrite iter_pos_nat.
      replace 52%nat with (Pos.to_nat x + (52 - Pos.to_nat x))%nat at 1 by lia.
      apply shr_shl. }
    unfold binary_round_aux, shr_fexp. cbn [Zdigits2 shr_record_of_loc].
    rewrite Zdigits_shl. unfold fexp at 1, emin, prec, emax.
    replace (Z.max (Z.pos (digits2_pos q) + Z.of_nat 52 + -52 - 53) (3 - 1024 - 53) - -52)
      with (Zpos x) by lia.
    cbn [shr]. rewrite Hit.
    cbn [shr_m loc_of_shr_record round_nearest_even shr_r shr_s Zdigits2 shr_record_of_loc].
    rewrite Zdigits_shl. unfold fexp, emin, prec, emax.
    replace (Z.max (Z.pos (digits2_pos q) + Z.of_nat (52 - Pos.to_nat x)
                    + (-52 + Z.pos x) - 53) (3 - 1024 - 53) - (-52 + Z.pos x))
      with 0 by lia.
    cbn [shr shr_m].
    replace (-52 + Z.pos x <=? 1024 - 53) with true by (symmetry; apply Z.leb_le; lia).
    unfold canon. f_equal; [f_equal|]; lia.
Qed.

Lemma digits_succ_le p : Zpos (digits2_pos p) <= Zpos (digits2_pos (Pos.succ p)).
Proof.
  induction p as [p IH|p IH|]; simpl; lia.
Qed.

Lemma digits_size p : digits2_pos p = Pos.size p.
Proof. induction p as [p IH|p IH|]; simpl; congruence. Qed.

Lemma digits_bound p : Zpos p < 2 ^ 53 → Zpos (digits2_pos p) <= 53.
Proof.
  intros Hp. rewrite digits_size.
  pose proof (Pos.size_le p) as Hs.
  assert (H2 : 2 ^ Zpos (Pos.size p) <= 2 * Zpos p).
  { rewrite <- Pos2Z.inj_pow. change (2 * Zpos p) with (Zpos p~0). lia. }
  destruct (Z_le_gt_dec (Zpos (Pos.size p)) 53) as [H|H]; [exact H|exfalso].
  assert (2 ^ 54 <= 2 ^ Zpos (Pos.size p)) by (apply Z.pow_le_mono_r; lia).
  change (2 ^ 54) with (2 * 2 ^ 53) in *. lia.
Qed.

Lemma add_one_pos p :
  Zpos (digits2_pos (Pos.succ p)) <= 53 →
  add (of_int (Zpos p)) (of_int 1) = of_int (Zpos (Pos.succ p)).
Proof.
  intros Hd.
  pose proof (digits_succ_le p) as Hle.
  rewrite (of_int_canon p) by lia.
  change (of_int 1) with (S754_finite false (shl 1 52) (-52)).
  unfold canon at 1. unfold add, SFadd.
  replace (Z.min (Z.pos (digits2_pos p) - 53) (-52)) with (-52) by lia.
  assert (H1 : fst (shl_align (shl p (Z.to_nat (53 - Z.pos (digits2_pos p))))
                      (Z.pos (digits2_pos p) - 53) (-52)) = shl p 52).
  { unfold shl_align.
    destruct (-52 - (Z.pos (digits2_pos p) - 53)) as [|x|x] eqn:Hx; try lia; cbn [fst].
    - f_equal. lia.
    - rewrite Pos_iter_shl, shl_shl. f_equal. lia. }
  rewrite H1. cbn [shl_align Z.sub Z.opp Z.add Z.pos_sub Pos.compare Pos.compare_cont fst cond_Zopp].
  change (fst (shl_align (shl 1 52) (-52) (-52))) with (shl 1 52).
  rewrite <- ?Pos2Z.inj_add, ?Pos2Z.add_pos_pos, shl_add, Pos.add_1_r.
  cbn [binary_normalize]. rewrite round_shifted by exact Hd.
  symmetry. apply of_int_canon. exact Hd.
Qed.

Lemma add_one k n :
  1 <= k → k + 1 <= n → n < 2 ^ 53 → add (of_int k) (of_int 1) = of_int (k + 1).
Proof.
  intros Hk Hn Hb. destruct k as [|p|p]; try lia.
  replace (Zpos p + 1) with (Zpos (Pos.succ p)) in * by lia.
  apply add_one_pos, digits_bound. lia.
Qed.

End B64.

Program Definition binary64 : Float64 := {|
  float64 := spec_float;
  f_of_int := B64.of_int;
  fadd := B64.add; fsub := B64.sub; fmul := B64.mul; fdiv := B64.div;
  flt := B64.lt;
  exact_count := fun n => n < 2 ^ 53;
  flt_irrefl := B64.lt_irrefl;
  fadd_1 := B64.add_one
|}.
Next Obligation. reflexivity. Qed.
Next Obligation. reflexivity. Qed.

(** ** Exact rational arithmetic *)

Lemma Qlt_bool_irrefl (x : Q) : negb (Qle_bool x x) = false.
Proof.
  apply negb_false_iff. apply Qle_bool_iff. apply Qle_refl.
Qed.

Lemma Qadd_one (k n : Z) :
  1 <= k → k + 1 <= n → True → Qplus (inject_Z k) (inject_Z 1) = inject_Z (k + 1).
Proof.
  intros _ _ _. unfold Qplus, inject_Z. simpl. f_equal. lia.
Qed.

Program Definition exactQ : Float64 := {|
  float64 := Q;
  f_of_int := inject_Z;
  fadd := Qplus; fsub := Qminus; fmul := Qmult; fdiv := Qdiv;
  flt := fun x y => negb (Qle_bool y x);
  exact_count := fun _ => True;
  flt_irrefl := Qlt_bool_irrefl;
  fadd_1 := Qadd_one
|}.
Next Obligation. reflexivity. Qed.
Next Obligation. reflexivity. Qed.

(* ===================================================================== *)
(** * Go's [net] package *)
(* ===================================================================== *)

(** [net.ParseIP] (nil is [None]) and [net.IP.String].  The sentinel
    ["???"] that marks an unknown hop is never the text of an address. *)
Class NetLib := {
  net_IP : Type;
  ParseIP : string → option net_IP;
  IP_String : net_IP → string;
  IP_String_known : ∀ ip, IP_String ip ≠ "???"
}.

(** ** A model of [net.ParseIP] and [net.IP.String]

    An address is its byte slice (16 bytes for every parsed address, an
    IPv4 address in its IPv4-in-IPv6 form), as in package [net].  The
    parser is the one [net.ParseIP] calls since Go 1.22,
    [netip.ParseAddr]: an octet with a leading zero and a group of more
    than four hexadecimal digits are refused. *)
Module GoNet.

Definition IP := list Z.

Definition code (c : ascii) : Z := Z.of_N (N_of_ascii c).

Definition is_digit (c : ascii) : bool := (48 <=? code c) && (code c <=? 57).

Definition v4InV6Prefix : list Z := [0; 0; 0; 0; 0; 0; 0; 0; 0; 0; 255; 255].

Definition IPv4 (a b c d : Z) : IP := (v4InV6Prefix ++ [a; b; c; d])%list.

(** [parseIPv4Fields]: four decimal octets separated by dots, read
    character by character.  The state is the character before ([None] at
    the start), the value [val] and the number of digits [digLen] of the
    current octet, and the octets stored so far ([pos] is their number).
    An octet has no leading zero and is at most 255; a dot is neither the
    first nor the last character and does not follow a dot. *)
Fixpoint parseIPv4Fields (s : string) (prev : option ascii) (val digLen : Z) (fields : list Z)
  : option (list Z) :=
  match s with
  | EmptyString =>
      if Z.of_nat (length fields) <? 3 then None else Some (fields ++ [val])%list
  | String c s' =>
      if is_digit c then
        if (digLen =? 1) && (val =? 0) then None
        else
          let val := val * 10 + (code c - 48) in
          if val >? 255 then None
          else parseIPv4Fields s' (Some c) val (digLen + 1) fields
      else if Ascii.eqb c "." then
        let after_dot := match prev with Some p => Ascii.eqb p "." | None => true end in
        if after_dot || String.eqb s' "" then None
        else if Z.of_nat (length fields) =? 3 then None
        else parseIPv4Fields s' (Some c) 0 0 (fields ++ [val])%list
      else None
  end.

Definition parseIPv4 (s : string) : option IP :=
  match parseIPv4Fields s None 0 0 [] with
  | Some [a; b; c; d] => Some (IPv4 a b c d)
  | _ => None
  end.

(** A group of an IPv6 address: hexadecimal digits, at most four.  The
    result is the value, the number of digits read and the rest of the
    string; [None] is the failure on a fifth digit. *)
Definition hexval (c : ascii) : option Z :=
  let k := code c in
  if (48 <=? k) && (k <=? 57) then Some (k - 48)
  else if (97 <=? k) && (k <=? 102) then Some (k - 97 + 10)
  else if (65 <=? k) && (k <=? 70) then Some (k - 65 + 10)
  else None.

Fixpoint hex_group (s : string) (off : Z) (acc : Z) : option (Z * Z * string) :=
  match s with
  | String c s' =>
      match hexval c with
      | Some d =>
          let acc := acc * 16 + d in
          if off >? 3 then None
          else if acc >? 65535 then None
          else hex_group s' (off + 1) acc
      | None => Some (acc, off, s)
      end
  | EmptyString => Some (acc, off, s)
  end.

(** [parseIPv6]: hex groups separated by colons, at most one ellipsis
    [::], optionally a trailing dotted IPv4 part.  The loop state is the
    byte index [i], the rest of the string, the address being filled and
    the position of the ellipsis ([-1]: none).  One iteration of the loop
    [for i < IPv6len] either returns nil, leaves the loop or goes on. *)
Definition setb (ip : list Z) (i : Z) (v : Z) : list Z := <[Z.to_nat i := v]> ip.

Inductive v6_step :=
  | V6_nil
  | V6_break (i : Z) (s : string) (ip : list Z) (ellipsis : Z)
  | V6_continue (i : Z) (s : string) (ip : list Z) (ellipsis : Z).

Definition parseIPv6_body (i : Z) (s : string) (ip : list Z) (ellipsis : Z) : v6_step :=
  match hex_group s 0 0 with
  | None => V6_nil
  | Some (n, off, rest) =>
  if off =? 0 then V6_nil
  else
    match rest with
    | String "." _ =>
        if (ellipsis <? 0) && negb (i =? 12) then V6_nil
        else if i + 4 >? 16 then V6_nil
        else
          match parseIPv4Fields s None 0 0 [] with
          | Some [a; b; c; d] =>
              V6_break (i + 4) ""
                (setb (setb (setb (setb ip i a) (i + 1) b) (i + 2) c) (i + 3) d)
                ellipsis
          | _ => V6_nil
          end
    | _ =>
        let ip := setb (setb ip i (Z.shiftr n 8)) (i + 1) (Z.land n 255) in
        let i := i + 2 in
        match rest with
        | EmptyString => V6_break i "" ip ellipsis
        | String c s1 =>
            if negb (Ascii.eqb c ":") || String.eqb s1 "" then V6_nil
            else
              match s1 with
              | String ":" s2 =>
                  if ellipsis >=? 0 then V6_nil
                  else if String.eqb s2 "" then V6_break i "" ip i
                  else V6_continue i s2 ip i
              | _ => V6_continue i s1 ip ellipsis
              end
        end
    end
  end.

(** Every iteration that goes on has read at least two characters: the
    length of the string bounds the number of iterations. *)
Fixpoint parseIPv6_loop (fuel : nat) (i : Z) (s : string) (ip : list Z) (ellipsis : Z)
  : option (Z * string * list Z * Z) :=
  match fuel with
  | O => Some (i, s, ip, ellipsis)
  | S fuel' =>
      if i >=? 16 then Some (i, s, ip, ellipsis)
      else
        match parseIPv6_body i s ip ellipsis with
        | V6_nil => None
        | V6_break i s ip ellipsis => Some (i, s, ip, ellipsis)
        | V6_continue i s ip ellipsis => parseIPv6_loop fuel' i s ip ellipsis
        end
  end.

Definition zeros16 : list Z := replicate 16 0.

(** After the loop: the whole string must be used; a short address needs
    an ellipsis, which is expanded to the missing zero bytes. *)
Definition parseIPv6_finish (st : Z * string * list Z * Z) : option IP :=
  let '(i, s, ip, ellipsis) := st in
  if negb (String.eqb s "") then None
  else if i <? 16 then
    if ellipsis <? 0 then None
    else
      let n := 16 - i in
      Some (take (Z.to_nat ellipsis) ip
            ++ replicate (Z.to_nat n) 0
            ++ take (Z.to_nat (i - ellipsis)) (drop (Z.to_nat ellipsis) ip))%list
  else if ellipsis >=? 0 then None
  else Some ip.

(** A zone ([%] and what follows) is split off first; [ParseIP] returns
    nil for an address with a zone, and an empty zone is an error. *)
Fixpoint has_zone (s : string) : bool :=
  match s with
  | EmptyString => false
  | String c s' => Ascii.eqb c "%" || has_zone s'
  end.

Definition parseIPv6 (s : string) : option IP :=
  if has_zone s then None else
  match s with
  | String ":" (String ":" s') =>
      if String.eqb s' "" then Some zeros16
      else
        match parseIPv6_loop (String.length s') 0 s' zeros16 0 with
        | Some st => parseIPv6_finish st
        | None => None
        end
  | _ =>
      match parseIPv6_loop (String.length s) 0 s zeros16 (-1) with
      | Some st => parseIPv6_finish st
      | None => None
      end
  end.

(** [ParseIP] is [netip.ParseAddr] without zones: the first [.], [:] or
    [%] decides between the two parsers and the failure. *)
Fixpoint ParseIP_scan (whole s : string) : option IP :=
  match s with
  | EmptyString => None
  | String "." _ => parseIPv4 whole
  | String ":" _ => parseIPv6 whole
  | String "%" _ => None
  | String _ s' => ParseIP_scan whole s'
  end.

Definition ParseIP (s : string) : option IP := ParseIP_scan s s.
(** [IP.String]: dotted decimal for an IPv4 address, otherwise the
    groups in hexadecimal with the longest run of zero groups (two or
    more) replaced by [::]. *)
Definition digitChar (d : Z) : ascii := nth (Z.to_nat d) (list_ascii_of_string "0123456789") "0"%char.

Definition hexDigit (d : Z) : ascii := nth (Z.to_nat d) (list_ascii_of_string "0123456789abcdef") "0"%char.

Definition ubtoa (v : Z) : string :=
  if v <? 10 then String (digitChar v) ""
  else if v <? 100 then String (digitChar (v / 10)) (String (digitChar (v mod 10)) "")
  else String (digitChar (v / 100))
         (String (digitChar ((v / 10) mod 10)) (String (digitChar (v mod 10)) "")).

Fixpoint appendHex_loop (j : nat) (i : Z) : string :=
  match j with
  | O => ""
  | S j' =>
      let v := Z.shiftr i (Z.of_nat j' * 4) in
      (if v >? 0 then String (hexDigit (Z.land v 15)) "" else "") ++ appendHex_loop j' i
  end.

Definition appendHex (i : Z) : string :=
  if i =? 0 then "0" else appendHex_loop 8 i.

Fixpoint hexString (b : list Z) : string :=
  match b with
  | [] => ""
  | tn :: b' => String (hexDigit (Z.shiftr tn 4)) (String (hexDigit (Z.land tn 15)) (hexString b'))
  end.

Definition To4 (ip : IP) : option (list Z) :=
  if Nat.eqb (length ip) 4 then Some ip
  else if Nat.eqb (length ip) 16
          && forallb (Z.eqb 0) (take 10 ip)
          && (nth 10 ip 0 =? 255) && (nth 11 ip 0 =? 255)
  then Some (drop 12 ip)
  else None.

(** The 16-bit groups of a 16-byte address. *)
Fixpoint groups (ip : list Z) : list Z :=
  match ip with
  | hi :: lo :: ip' => Z.lor (Z.shiftl hi 8) lo :: groups ip'
  | _ => []
  end.

Fixpoint zero_run (gs : list Z) : Z :=
  match gs with
  | 0 :: gs' => 1 + zero_run gs'
  | _ => 0
  end.

(** The longest run of zero groups [e0, e1), the first one among equals. *)
Fixpoint longest_zeros (fuel : nat) (gs : list Z) (i e0 e1 : Z) : Z * Z :=
  match fuel with
  | O => (e0, e1)
  | S fuel' =>
      if i >=? 8 then (e0, e1)
      else
        let j := i + zero_run (drop (Z.to_nat i) gs) in
        let '(i, e0, e1) :=
          if (j >? i) && (j - i >? e1 - e0) then (j, i, j) else (i, e0, e1) in
        longest_zeros fuel' gs (i + 1) e0 e1
  end.

(** The printing loop: at [e0] the run is replaced by [::] and the index
    jumps to [e1]; elsewhere a colon separates the groups. *)
Fixpoint print_groups (fuel : nat) (gs : list Z) (i e0 e1 : Z) : string :=
  match fuel with
  | O => ""
  | S fuel' =>
      if i >=? 8 then ""
      else
        let '(sep, i) :=
          if i =? e0 then ("::", e1) else (if i >? 0 then ":" else "", i) in
        sep ++ (if i >=? 8 then ""
                else appendHex (nth (Z.to_nat i) gs 0) ++ print_groups fuel' gs (i + 1) e0 e1)
  end.

Definition IPString (ip : IP) : string :=
  if Nat.eqb (length ip) 0 then "<nil>"
  else
    match To4 ip with
    | Some [a; b; c; d] => ubtoa a ++ "." ++ ubtoa b ++ "." ++ ubtoa c ++ "." ++ ubtoa d
    | _ =>
        if negb (Nat.eqb (length ip) 16) then "?" ++ hexString ip
        else
          let gs := groups ip in
          let '(e0, e1) := longest_zeros 8 gs 0 (-1) (-1) in
          let '(e0, e1) := if e1 - e0 <=? 1 then (-1, -1) else (e0, e1) in
          print_groups 8 gs 0 e0 e1
    end.

(** No address prints as the unknown-hop sentinel: apart from the
    malformed-length form [?hex] the text has no question mark at all. *)
Fixpoint has_qmark (s : string) : bool :=
  match s with
  | EmptyString => false
  | String c s' => Ascii.eqb c "?" || has_qmark s'
  end.

Lemma has_qmark_app a b : has_qmark (a ++ b) = has_qmark a || has_qmark b.
Proof.
  induction a as [|c a IH]; simpl; [reflexivity|].
  rewrite IH. apply orb_assoc.
Qed.

Lemma nth_no_qmark (n : nat) (l : list ascii) :
  forallb (fun c => negb (Ascii.eqb c "?")) l = true →
  Ascii.eqb (nth n l "0"%char) "?" = false.
Proof.
  revert n. induction l as [|c l IH]; intros n Hl.
  - destruct n; reflexivity.
  - simpl in Hl. apply andb_true_iff in Hl as [Hc Hl].
    destruct n; simpl.
    + now apply negb_true_iff in Hc.
    + now apply IH.
Qed.

Lemma digitChar_no_qmark d : Ascii.eqb (digitChar d) "?" = false.
Proof. apply nth_no_qmark. reflexivity. Qed.

Lemma hexDigit_no_qmark d : Ascii.eqb (hexDigit d) "?" = false.
Proof. apply nth_no_qmark. reflexivity. Qed.

Lemma ubtoa_no_qmark v : has_qmark (ubtoa v) = false.
Proof.
  unfold ubtoa. repeat case_match; simpl; rewrite ?digitChar_no_qmark; reflexivity.
Qed.

Lemma appendHex_no_qmark i : has_qmark (appendHex i) = false.
Proof.
  unfold appendHex. case_match; [reflexivity|].
  generalize 8%nat as j. induction j as [|j IH]; [reflexivity|].
  cbn [appendHex_loop]. rewrite has_qmark_app, IH.
  case_match; simpl; rewrite ?hexDigit_no_qmark; reflexivity.
Qed.

Lemma hexString_no_qmark b : has_qmark (hexString b) = false.
Proof.
  induction b as [|tn b IH]; simpl; [reflexivity|].
  now rewrite !hexDigit_no_qmark, IH.
Qed.

Lemma print_groups_no_qmark fuel gs i e0 e1 :
  has_qmark (print_groups fuel gs i e0 e1) = false.
Proof.
  revert i. induction fuel as [|fuel IH]; intros i; [reflexivity|].
  cbn [print_groups]. destruct (i >=? 8); [reflexivity|].
  destruct (i =? e0); [|destruct (i >? 0)]; cbv zeta iota beta;
    rewrite has_qmark_app; (destruct (_ >=? 8); [reflexivity|]);
    rewrite has_qmark_app, appendHex_no_qmark, IH; reflexivity.
Qed.

Lemma IPString_not_unknown (ip : IP) : IPString ip ≠ "???".
Proof.
  assert (Hq : ∀ s, has_qmark s = false → s ≠ "???").
  { intros s Hs ->. discriminate Hs. }
  unfold IPString.
  destruct (Nat.eqb (length ip) 0); [discriminate|].
  assert (Hrest :
    (if negb (Nat.eqb (length ip) 16) then "?" ++ hexString ip
     else let gs := groups ip in
          let '(e0, e1) := longest_zeros 8 gs 0 (-1) (-1) in
          let '(e0, e1) := if e1 - e0 <=? 1 then (-1, -1) else (e0, e1) in
          print_groups 8 gs 0 e0 e1) ≠ "???").
  { destruct (negb (Nat.eqb (length ip) 16)).
    - change ("?" ++ hexString ip) with (String "?" (hexString ip)).
      intros [= H]. pose proof (hexString_no_qmark ip) as Hh.
      rewrite H in Hh. discriminate Hh.
    - cbv zeta. destruct (longest_zeros _ _ _ _ _) as [e0 e1].
      destruct (e1 - e0 <=? 1); apply Hq, print_groups_no_qmark. }
  destruct (To4 ip) as [[|a [|b [|c [|d [|? ?]]]]]|]; try exact Hrest.
  apply Hq. rewrite !has_qmark_app, !ubtoa_no_qmark. reflexivity.
Qed.

End GoNet.

Definition goNet : NetLib := {|
  net_IP := GoNet.IP;
  ParseIP := GoNet.ParseIP;
  IP_String := GoNet.IPString;
  IP_String_known := GoNet.IPString_not_unknown
|}.

(* ===================================================================== *)
(** * The program *)
(* ===================================================================== *)

(** [time.Duration] is a number of nanoseconds.  Go's [int] is modelled by
    [Z]: the counters of the program ([i], [unknownCount], [j],
    [LossPoint], [retryTime]) are bounded by [MaxHops] and [PingCount]
    and stay in the range of [int]. *)
Definition Second : Z := 1000000000.

(** ** Data

    The records are parametrised by the type of addresses ([net.IP]) and
    by the type of [float64] values. *)

(** [traceroute.Reply]. *)
Record Reply {A : Type} := {
  IP : A;
  RTT : Z;
  Hops : Z
}.
Arguments Reply : clear implicits.

(** [traceroute.Config], embedded in [traceroute.Tracer].  [CCount] is the
    field [Count] of the configuration. *)
Record Config {A : Type} := {
  Delay : Z;
  Timeout : Z;
  MaxHops : Z;
  CCount : Z;
  Networks : list string;
  Addr : A
}.
Arguments Config : clear implicits.

Record OPMTR {A : Type} := {
  Tracer : Config A;
  MaxUnknowns : Z;
  PingCount : Z
}.
Arguments OPMTR : clear implicits.

Record MTRHup {F : Type} := {
  Count : Z;
  Host : string;
  Loss : F;
  LossPoint : Z;
  Snt : F;
  Last : F;
  Avg : F;
  Best : F;
  Wrst : F
}.
Arguments MTRHup : clear implicits.

(** [RCount] is the field [Count] of the report. *)
Record MTRReport {F : Type} := {
  Time : Z;
  Src : string;
  Dst : string;
  RCount : Z;
  Hups : list (MTRHup F)
}.
Arguments MTRReport : clear implicits.

(** What the program writes to the log: the conflict of two replies for
    one TTL, or an error of the library. *)
Inductive log_entry {A E : Type} :=
  | LogConflict (hops : Z) (newIP exIP : A)
  | LogError (err : E).
Arguments log_entry : clear implicits.

(** An [error] value is made by [errors.New] or comes from the library. *)
Inductive error {E : Type} :=
  | errors_New (msg : string)
  | library_error (e : E).
Arguments error : clear implicits.

Section MTR.

Context {FL : Float64} {NL : NetLib}.

Local Abbreviation Reply := (Reply net_IP).
Local Abbreviation Config := (Config net_IP).
Local Abbreviation OPMTR := (OPMTR net_IP).
Local Abbreviation MTRHup := (MTRHup float64).
Local Abbreviation MTRReport := (MTRReport float64).

(** The zero value [MTRReport{}]. *)
Definition MTRReport_zero : MTRReport :=
  {| Time := 0; Src := ""; Dst := ""; RCount := 0; Hups := [] |}.

(** Field assignments [h.F = v]. *)
Definition set_Host (v : string) (h : MTRHup) : MTRHup :=
  {| Count := Count h; Host := v; Loss := Loss h; LossPoint := LossPoint h; Snt := Snt h;
     Last := Last h; Avg := Avg h; Best := Best h; Wrst := Wrst h |}.

Definition set_Loss (v : float64) (h : MTRHup) : MTRHup :=
  {| Count := Count h; Host := Host h; Loss := v; LossPoint := LossPoint h; Snt := Snt h;
     Last := Last h; Avg := Avg h; Best := Best h; Wrst := Wrst h |}.

Definition set_LossPoint (v : Z) (h : MTRHup) : MTRHup :=
  {| Count := Count h; Host := Host h; Loss := Loss h; LossPoint := v; Snt := Snt h;
     Last := Last h; Avg := Avg h; Best := Best h; Wrst := Wrst h |}.

Definition set_Snt (v : float64) (h : MTRHup) : MTRHup :=
  {| Count := Count h; Host := Host h; Loss := Loss h; LossPoint := LossPoint h; Snt := v;
     Last := Last h; Avg := Avg h; Best := Best h; Wrst := Wrst h |}.

Definition set_Last (v : float64) (h : MTRHup) : MTRHup :=
  {| Count := Count h; Host := Host h; Loss := Loss h; LossPoint := LossPoint h; Snt := Snt h;
     Last := v; Avg := Avg h; Best := Best h; Wrst := Wrst h |}.

Definition set_Avg (v : float64) (h : MTRHup) : MTRHup :=
  {| Count := Count h; Host := Host h; Loss := Loss h; LossPoint := LossPoint h; Snt := Snt h;
     Last := Last h; Avg := v; Best := Best h; Wrst := Wrst h |}.

Definition set_Best (v : float64) (h : MTRHup) : MTRHup :=
  {| Count := Count h; Host := Host h; Loss := Loss h; LossPoint := LossPoint h; Snt := Snt h;
     Last := Last h; Avg := Avg h; Best := v; Wrst := Wrst h |}.

Definition set_Wrst (v : float64) (h : MTRHup) : MTRHup :=
  {| Count := Count h; Host := Host h; Loss := Loss h; LossPoint := LossPoint h; Snt := Snt h;
     Last := Last h; Avg := Avg h; Best := Best h; Wrst := v |}.

(** ** The traceroute library, the clock and the logger

    The state of everything outside the program is a [World]; each
    operation of the library takes the world and returns the next one.
    [Tracer_Trace] returns the replies in the order in which the callback
    receives them, and the error of the call.  [Session_Receive] is the
    [select] of [ping]: the reply received before the timeout, if any. *)
Class Transport := {
  World : Type;
  Session : Type;
  lib_error : Type;
  Tracer_Trace : Config → World → net_IP → (list Reply * option lib_error) * World;
  Tracer_NewSession : Config → World → option net_IP → (Session + lib_error) * World;
  Session_Ping : World → Session → Z → option lib_error * World;
  Session_Receive : World → Session → Z → option Reply * World;
  Session_Close : World → Session → World;
  time_Now_Unix : World → Z;
  log_Print : World → log_entry net_IP lib_error → World
}.

Context {TR : Transport}.

Local Abbreviation error := (error lib_error).

(** ** [ping] *)

Definition ping (t : Config) (ip : string) (ttl : Z) (timeout : Z) (w : World)
  : (option Reply * option lib_error) * World :=
  match Tracer_NewSession t w (ParseIP ip) with
  | (inr err, w) => ((None, Some err), w)
  | (inl sess, w) =>
      match Session_Ping w sess ttl with
      | (Some err, w) => ((None, Some err), Session_Close w sess)
      | (None, w) =>
          let '(r, w) := Session_Receive w sess timeout in
          ((r, None), Session_Close w sess)
      end
  end.

(** ** Statistics *)

(** [r.RTT.Seconds() * 1000], with [Duration.Seconds] written out:
    [float64(d / Second) + float64(d % Second) / 1e9]. *)
Definition Seconds (d : Z) : float64 :=
  fadd (f_of_int (Z.quot d Second)) (fdiv (f_of_int (Z.rem d Second)) (f_of_int 1000000000)).

Definition rtt_ms (d : Z) : float64 := fmul (Seconds d) (f_of_int 1000).

(** The update after a successful probe; the same five statements at
    RunMTRWithNoRetryPing 145-153, RunMTR 261-269 and 293-301,
    RunMTRWithCocurrentPing 424-432 and 456-464.  [hup.Snt] has already
    been incremented. *)
Definition record_rtt (rp : Reply) (hup : MTRHup) : MTRHup :=
  let rtt := rtt_ms (RTT rp) in
  let hup := set_Last rtt hup in
  let hup := set_Avg (fdiv (fadd (fmul (Avg hup) (fsub (Snt hup) (f_of_int 1))) rtt) (Snt hup)) hup in
  let hup := if flt rtt (Best hup) then set_Best rtt hup else hup in
  let hup := if flt (Wrst hup) rtt then set_Wrst rtt hup else hup in
  hup.

(** [hup.Loss = float64(hup.LossPoint) / float64(hup.Snt)]. *)
Definition compute_Loss (hup : MTRHup) : MTRHup :=
  set_Loss (fdiv (f_of_int (LossPoint hup)) (Snt hup)) hup.

(** ** Discovery ("trace first")

    The callback of [Tracer.Trace]: the first reply of a TTL is kept, a
    later one is logged as a conflict. *)
Definition on_reply (st : gmap Z Reply * World) (reply : Reply) : gmap Z Reply * World :=
  let '(routes, w) := st in
  match routes !! Hops reply with
  | Some ex => (routes, log_Print w (LogConflict (Hops reply) (IP reply) (IP ex)))
  | None => (<[Hops reply := reply]> routes, w)
  end.

(** The two composite literals [&MTRHup{...}]; [Loss] is not listed and
    has the zero value. *)
Definition known_hup (i : Z) (r : Reply) : MTRHup :=
  let rtt := rtt_ms (RTT r) in
  {| Count := i; Host := IP_String (IP r); Loss := f_of_int 0; LossPoint := 0;
     Snt := f_of_int 1; Last := rtt; Avg := rtt; Best := rtt; Wrst := rtt |}.

Definition unknown_hup (i : Z) : MTRHup :=
  {| Count := i; Host := "???"; Loss := f_of_int 0; LossPoint := 1;
     Snt := f_of_int 1; Last := f_of_int 0; Avg := f_of_int 0;
     Best := f_of_int 0; Wrst := f_of_int 0 |}.

(** The loop [for i := 1; i <= op.Tracer.MaxHops; i++] over the TTLs
    [ttls] still to visit; returning [hups] is [break] or the end of the
    loop.  The code is the same in the three run operations
    (RunMTRWithNoRetryPing 91-132, RunMTR 199-240, RunMTRWithCocurrentPing
    358-399).  [hups] maps a TTL to a pointer; storing the updated record
    under [i] is the assignment through the pointer [h]. *)
Fixpoint trace_first (op : OPMTR) (dst : string) (dstIP : net_IP) (routes : gmap Z Reply)
    (ttls : list Z) (hups : gmap Z MTRHup) (unknownCount : Z) : gmap Z MTRHup :=
  match ttls with
  | [] => hups
  | i :: ttls' =>
      let rest (h : MTRHup) (unknownCount : Z) :=
        let h := compute_Loss h in
        let hups := <[i := h]> hups in
        if unknownCount >=? MaxUnknowns op then hups
        else if String.eqb (Host h) dst then hups
        else trace_first op dst dstIP routes ttls' hups unknownCount in
      match routes !! i with
      | Some r =>
          let h := known_hup i r in
          if String.eqb (IP_String (IP r)) (IP_String dstIP) then <[i := h]> hups
          else rest h 0
      | None => rest (unknown_hup i) (unknownCount + 1)
      end
  end.

Definition discover (op : OPMTR) (dst : string) (dstIP : net_IP) (routes : gmap Z Reply)
  : gmap Z MTRHup :=
  trace_first op dst dstIP routes (seqZ 1 (MaxHops (Tracer op))) ∅ 0.

(** The same loop in the older package-level [RunMTR] (mtr/mtr.go
    74-112), which takes [maxHops] and [maxUnknowns] as arguments: the
    reply's address is compared with the string [dst] itself, and there
    is no test of the host after [Loss] is assigned. *)
Fixpoint legacy_trace_first (maxUnknowns : Z) (dst : string) (routes : gmap Z Reply)
    (ttls : list Z) (hups : gmap Z MTRHup) (unknownCount : Z) : gmap Z MTRHup :=
  match ttls with
  | [] => hups
  | i :: ttls' =>
      let rest (h : MTRHup) (unknownCount : Z) :=
        let h := compute_Loss h in
        let hups := <[i := h]> hups in
        if unknownCount >=? maxUnknowns then hups
        else legacy_trace_first maxUnknowns dst routes ttls' hups unknownCount in
      match routes !! i with
      | Some r =>
          let h := known_hup i r in
          if String.eqb (IP_String (IP r)) dst then <[i := h]> hups
          else rest h 0
      | None => rest (unknown_hup i) (unknownCount + 1)
      end
  end.

Definition legacy_discover (maxHops maxUnknowns : Z) (dst : string) (routes : gmap Z Reply)
  : gmap Z MTRHup :=
  legacy_trace_first maxUnknowns dst routes (seqZ 1 maxHops) ∅ 0.

(** ** Probing *)

(** The variables of one hop's probing loop: [to], [retryTime],
    [workTimeout], [comeback]. *)
Record retry_state := {
  to : Z;
  retryTime : Z;
  workTimeout : Z;
  comeback : bool
}.

Definition retry_start (op : OPMTR) : retry_state :=
  {| to := Timeout (Tracer op); retryTime := 0; workTimeout := 0; comeback := false |}.

(** [if to < time.Second*5 { to += time.Second }]. *)
Definition bump_to (st : retry_state) : retry_state :=
  {| to := if to st <? Second * 5 then to st + Second else to st;
     retryTime := retryTime st; workTimeout := workTimeout st; comeback := comeback st |}.

(** [retryTime++]. *)
Definition inc_retryTime (st : retry_state) : retry_state :=
  {| to := to st; retryTime := retryTime st + 1;
     workTimeout := workTimeout st; comeback := comeback st |}.

(** [comeback = true; workTimeout = to]. *)
Definition enter_comeback (st : retry_state) : retry_state :=
  {| to := to st; retryTime := retryTime st; workTimeout := to st; comeback := true |}.

(** [if err != nil { log.Println(err) }]. *)
Definition log_err (err : option lib_error) (w : World) : World :=
  match err with
  | Some e => log_Print w (LogError e)
  | None => w
  end.

(** The range loop over [hupsCopy]: some hop of the table has this host. *)
Definition host_in_table (hups : gmap Z MTRHup) (ip : string) : bool :=
  existsb (fun kv : Z * MTRHup => String.eqb (Host kv.2) ip) (map_to_list hups).

(** One iteration of the inner loop of [RunMTRWithNoRetryPing]
    (lines 139-160). *)
Definition noretry_iteration (op : OPMTR) (hup : MTRHup) (w : World) : MTRHup * World :=
  let hup := set_Snt (fadd (Snt hup) (f_of_int 1)) hup in
  if negb (String.eqb (Host hup) "???") then
    let '((rp, err), w) :=
      ping (Tracer op) (Host hup) (MaxHops (Tracer op)) (Timeout (Tracer op)) w in
    match err, rp with
    | None, Some rp => (record_rtt rp hup, w)
    | _, _ => (set_LossPoint (LossPoint hup + 1) hup, log_err err w)
    end
  else (hup, w).

(** One iteration of the inner loop of [RunMTR] (lines 251-318) and of
    [RunMTRWithCocurrentPing] (lines 414-481).  [scan hup ip] is the
    result of the range loop over the table when the hop's own record is
    [hup]. *)
Definition retry_iteration (op : OPMTR) (dstIP : net_IP) (scan : MTRHup → string → bool)
    (hup : MTRHup) (st : retry_state) (w : World) : MTRHup * retry_state * World :=
  let hup := set_Snt (fadd (Snt hup) (f_of_int 1)) hup in
  if negb (String.eqb (Host hup) "???") then
    let '((rp, err), w) :=
      if comeback st then ping (Tracer op) (Host hup) (Count hup) (workTimeout st) w
      else ping (Tracer op) (Host hup) (MaxHops (Tracer op)) (Timeout (Tracer op)) w in
    match err, rp with
    | None, Some rp => (record_rtt rp hup, st, w)
    | _, _ => (set_LossPoint (LossPoint hup + 1) hup, st, log_err err w)
    end
  else if retryTime st >=? 4 then (hup, st, w)
  else
    let '((rp, err), w) := ping (Tracer op) (IP_String dstIP) (Count hup) (to st) w in
    match err, rp with
    | None, Some rp =>
        let toComeback := negb (scan hup (IP_String (IP rp))) in
        if toComeback then
          (record_rtt rp (set_Host (IP_String (IP rp)) hup),
           inc_retryTime (enter_comeback st), w)
        else
          (set_LossPoint (LossPoint hup + 1) hup, inc_retryTime (bump_to st), w)
    | _, _ =>
        (set_LossPoint (LossPoint hup + 1) hup, inc_retryTime (bump_to st), log_err err w)
    end.

(** After the inner loop: [if hup.Host != "???" { hup.Loss = ... }]. *)
Definition final_Loss (hup : MTRHup) : MTRHup :=
  if negb (String.eqb (Host hup) "???") then compute_Loss hup else hup.

(** Go's [int], with the 64 bits it has on amd64 and arm64. *)
Definition MinInt : Z := - 2 ^ 63.
Definition MaxInt : Z := 2 ^ 63 - 1.

(** [x - 1] on [int]: the least [int] wraps around to the greatest. *)
Definition int_pred (x : Z) : Z := if x =? MinInt then MaxInt else x - 1.

(** The number of iterations of [for j := 1; j <= bound; j++]: none for
    [bound < 1], [bound] otherwise, unless [bound] is the greatest [int]:
    then [j <= bound] holds for every [int] [j], [j++] wraps around and
    the loop has no end ([None]). *)
Definition for_rounds (bound : Z) : option nat :=
  if MaxInt <=? bound then None else Some (Z.to_nat bound).

(** The iterations of the inner loops,
    [for j := 1; j <= op.PingCount-1; j++]. *)
Definition rounds (count : Z) : option nat := for_rounds (int_pred count).

(** The body of the inner loops, with [n] iterations to go.  [hup] points
    into the table: what the scan sees under the hop's own TTL is the
    record as it is now. *)
Fixpoint noretry_loop (n : nat) (op : OPMTR) (hup : MTRHup) (w : World) : MTRHup * World :=
  match n with
  | O => (hup, w)
  | S n' =>
      let '(hup, w) := noretry_iteration op hup w in
      noretry_loop n' op hup w
  end.

Fixpoint retry_loop (n : nat) (op : OPMTR) (dstIP : net_IP) (hups : gmap Z MTRHup) (i : Z)
    (hup : MTRHup) (st : retry_state) (w : World) : MTRHup * retry_state * World :=
  match n with
  | O => (hup, st, w)
  | S n' =>
      let '(hup, st, w) :=
        retry_iteration op dstIP (fun h => host_in_table (<[i := h]> hups)) hup st w in
      retry_loop n' op dstIP hups i hup st w
  end.

(** The outer loops, [for i := 1; i <= hupsLen; i++].  [None] says that
    the loop is not left: the run-time panic of dereferencing [hups[i]]
    when the key is absent, or an inner loop that has no end. *)
Fixpoint noretry_hups (op : OPMTR) (ks : list Z) (hups : gmap Z MTRHup) (w : World)
  : option (gmap Z MTRHup * World) :=
  match ks with
  | [] => Some (hups, w)
  | i :: ks' =>
      match hups !! i with
      | None => None
      | Some hup =>
          match rounds (PingCount op) with
          | None => None
          | Some n =>
              let '(hup, w) := noretry_loop n op hup w in
              noretry_hups op ks' (<[i := final_Loss hup]> hups) w
          end
      end
  end.

Fixpoint retry_hups (op : OPMTR) (dstIP : net_IP) (ks : list Z) (hups : gmap Z MTRHup)
    (w : World) : option (gmap Z MTRHup * World) :=
  match ks with
  | [] => Some (hups, w)
  | i :: ks' =>
      match hups !! i with
      | None => None
      | Some hup =>
          match rounds (PingCount op) with
          | None => None
          | Some n =>
              let '(hup, _, w) := retry_loop n op dstIP hups i hup (retry_start op) w in
              retry_hups op dstIP ks' (<[i := final_Loss hup]> hups) w
          end
      end
  end.

(** ** The run operations *)

Definition NewOPMTR (src : string) (maxHops count maxUnknowns : Z) (timeout : Z)
  : option OPMTR * option error :=
  match ParseIP src with
  | None => (None, Some (errors_New "Unknown source IP"))
  | Some srcIP =>
      (Some {| Tracer := {| Delay := 10 * 1000000; Timeout := timeout; MaxHops := maxHops;
                            CCount := 1; Networks := ["ip4:icmp"]; Addr := srcIP |};
               MaxUnknowns := maxUnknowns; PingCount := count |}, None)
  end.

(** The report before the trace: [Src], [Dst] and [Count] are set. *)
Definition report_start (op : OPMTR) (dst : string) : MTRReport :=
  {| Time := 0; Src := IP_String (Addr (Tracer op)); Dst := dst;
     RCount := PingCount op; Hups := [] |}.

(** The last loop: [report.Hups = append(report.Hups, *hups[i])]. *)
Definition report_done (op : OPMTR) (dst : string) (now : Z) (l : list MTRHup) : MTRReport :=
  {| Time := now; Src := IP_String (Addr (Tracer op)); Dst := dst;
     RCount := PingCount op; Hups := l |}.

Definition collect (hups : gmap Z MTRHup) (hupsLen : Z) : option (list MTRHup) :=
  mapM (fun i => hups !! i) (seqZ 1 hupsLen).

(** What the three operations share up to the probing: the guard on
    [dst], the trace with its callback, the time stamp and the discovery.
    The result is either the early return or the hop table. *)
Definition trace_phase (op : OPMTR) (dst : string) (w : World)
  : ((MTRReport * error) + (Z * net_IP * gmap Z MTRHup)) * World :=
  match ParseIP dst with
  | None => (inl (MTRReport_zero, errors_New "Unknown dest IP"), w)
  | Some dstIP =>
      let '((replies, err), w) := Tracer_Trace (Tracer op) w dstIP in
      let '(routes, w) := fold_left on_reply replies (∅, w) in
      match err with
      | Some e => (inl (report_start op dst, library_error e), w)
      | None => (inr (time_Now_Unix w, dstIP, discover op dst dstIP routes), w)
      end
  end.

Definition RunMTRWithNoRetryPing (op : OPMTR) (dst : string) (w : World)
  : option ((MTRReport * option error) * World) :=
  match trace_phase op dst w with
  | (inl (report, err), w) => Some ((report, Some err), w)
  | (inr (now, dstIP, hups), w) =>
      let hupsLen := Z.of_nat (size hups) in
      match noretry_hups op (seqZ 1 hupsLen) hups w with
      | None => None
      | Some (hups, w) =>
          match collect hups hupsLen with
          | None => None
          | Some l => Some ((report_done op dst now l, None), w)
          end
      end
  end.

Definition RunMTR (op : OPMTR) (dst : string) (w : World)
  : option ((MTRReport * option error) * World) :=
  match trace_phase op dst w with
  | (inl (report, err), w) => Some ((report, Some err), w)
  | (inr (now, dstIP, hups), w) =>
      let hupsLen := Z.of_nat (size hups) in
      match retry_hups op dstIP (seqZ 1 hupsLen) hups w with
      | None => None
      | Some (hups, w) =>
          match collect hups hupsLen with
          | None => None
          | Some l => Some ((report_done op dst now l, None), w)
          end
      end
  end.

(** ** [RunMTRWithCocurrentPing]

    One goroutine per hop runs the inner loop on its own record; the main
    goroutine waits for all of them.  A worker is [Running n st] with [n]
    iterations to go, then [Done] once it has left the loop and executed
    the final [if]; it is [Endless st] when its loop has no end.  A step
    is one iteration of one worker, or its final statement.  The range
    loop over [hupsCopy] reads the hosts of the other hops while their
    workers may be assigning them, so its result [scan] is not determined
    by the table at the start of the step: any result is allowed. *)
Inductive worker :=
  | Running (n : nat) (st : retry_state)
  | Endless (st : retry_state)
  | Done.

Record conc_state := {
  c_hups : gmap Z MTRHup;
  c_workers : gmap Z worker;
  c_world : World
}.

Inductive conc_step (op : OPMTR) (dstIP : net_IP) : conc_state → conc_state → Prop :=
  | conc_iteration hups ws w i n st hup scan hup' st' w' :
      ws !! i = Some (Running (S n) st) →
      hups !! i = Some hup →
      retry_iteration op dstIP scan hup st w = (hup', st', w') →
      conc_step op dstIP
        {| c_hups := hups; c_workers := ws; c_world := w |}
        {| c_hups := <[i := hup']> hups; c_workers := <[i := Running n st']> ws; c_world := w' |}
  | conc_endless hups ws w i st hup scan hup' st' w' :
      ws !! i = Some (Endless st) →
      hups !! i = Some hup →
      retry_iteration op dstIP scan hup st w = (hup', st', w') →
      conc_step op dstIP
        {| c_hups := hups; c_workers := ws; c_world := w |}
        {| c_hups := <[i := hup']> hups; c_workers := <[i := Endless st']> ws; c_world := w' |}
  | conc_finish hups ws w i st hup :
      ws !! i = Some (Running O st) →
      hups !! i = Some hup →
      conc_step op dstIP
        {| c_hups := hups; c_workers := ws; c_world := w |}
        {| c_hups := <[i := final_Loss hup]> hups; c_workers := <[i := Done]> ws; c_world := w |}.

(** A goroutine at its start: the loop variables are fresh and the
    iterations are those of [for j := 1; j <= op.PingCount-1; j++]. *)
Definition worker_start (op : OPMTR) : worker :=
  match rounds (PingCount op) with
  | Some n => Running n (retry_start op)
  | None => Endless (retry_start op)
  end.

(** The goroutines started by the loop [for i := 1; i <= hupsLen; i++]. *)
Definition conc_start (op : OPMTR) (hups : gmap Z MTRHup) (w : World) : conc_state :=
  {| c_hups := hups;
     c_workers := gset_to_gmap (worker_start op) (list_to_set (seqZ 1 (Z.of_nat (size hups))));
     c_world := w |}.

(** [wg.Wait()] returns. *)
Definition all_done (ws : gmap Z worker) : Prop :=
  ∀ i wk, ws !! i = Some wk → wk = Done.

Inductive RunMTRWithCocurrentPing (op : OPMTR) (dst : string) (w : World)
  : (MTRReport * option error) * World → Prop :=
  | Cocurrent_early report err w' :
      trace_phase op dst w = (inl (report, err), w') →
      RunMTRWithCocurrentPing op dst w ((report, Some err), w')
  | Cocurrent_report now dstIP hups w' s l :
      trace_phase op dst w = (inr (now, dstIP, hups), w') →
      rtc (conc_step op dstIP) (conc_start op hups w') s →
      all_done (c_workers s) →
      collect (c_hups s) (Z.of_nat (size hups)) = Some l →
      RunMTRWithCocurrentPing op dst w ((report_done op dst now l, None), c_world s).

(* ===================================================================== *)
(** * Discovery: the hop table *)
(* ===================================================================== *)

(** The record of TTL [i] after discovery: a known record carries the
    reply's address and RTT, an unknown one the sentinel, [lost = 1] and
    [loss = 1/1]. *)
Definition discovered (routes : gmap Z Reply) (i : Z) : MTRHup :=
  match routes !! i with
  | Some r =>
      {| Count := i; Host := IP_String (IP r); Loss := f_of_int 0; LossPoint := 0;
         Snt := f_of_int 1; Last := rtt_ms (RTT r); Avg := rtt_ms (RTT r);
         Best := rtt_ms (RTT r); Wrst := rtt_ms (RTT r) |}
  | None =>
      {| Count := i; Host := "???"; Loss := f_of_int 1; LossPoint := 1;
         Snt := f_of_int 1; Last := f_of_int 0; Avg := f_of_int 0;
         Best := f_of_int 0; Wrst := f_of_int 0 |}
  end.

(** The number of consecutive TTLs without a reply that end at TTL [n]. *)
Fixpoint unknown_run (routes : gmap Z Reply) (n : nat) : Z :=
  match n with
  | O => 0
  | S n' =>
      match routes !! Z.of_nat n with
      | Some _ => 0
      | None => unknown_run routes n' + 1
      end
  end.

(** The walk stops after TTL [i]. *)
Definition stops (op : OPMTR) (dst : string) (dstIP : net_IP) (routes : gmap Z Reply)
    (i : Z) : Prop :=
  (∃ r, routes !! i = Some r ∧ IP_String (IP r) = IP_String dstIP)
  ∨ MaxUnknowns op <= unknown_run routes (Z.to_nat i)
  ∨ Host (discovered routes i) = dst.

(** The table holds exactly the TTLs [1..N], each with its discovery
    record. *)
Definition table_upto (routes : gmap Z Reply) (N : Z) (hups : gmap Z MTRHup) : Prop :=
  ∀ i, hups !! i = if decide (1 <= i <= N) then Some (discovered routes i) else None.

Lemma unknown_run_step routes k :
  1 <= k →
  unknown_run routes (Z.to_nat k)
  = match routes !! k with
    | Some _ => 0
    | None => unknown_run routes (Z.to_nat (k - 1)) + 1
    end.
Proof.
  intros Hk. replace (Z.to_nat k) with (S (Z.to_nat (k - 1))) by lia.
  cbn [unknown_run]. replace (Z.of_nat (S (Z.to_nat (k - 1)))) with k by lia.
  reflexivity.
Qed.

Lemma discovered_known routes i r :
  routes !! i = Some r → discovered routes i = known_hup i r.
Proof. intros H. unfold discovered, known_hup. now rewrite H. Qed.

Lemma compute_Loss_known routes i r :
  routes !! i = Some r → compute_Loss (known_hup i r) = discovered routes i.
Proof.
  intros H. unfold discovered. rewrite H.
  unfold compute_Loss, set_Loss, known_hup; cbn. now rewrite fdiv_0_1.
Qed.

Lemma compute_Loss_unknown routes i :
  routes !! i = None → compute_Loss (unknown_hup i) = discovered routes i.
Proof.
  intros H. unfold discovered. rewrite H.
  unfold compute_Loss, set_Loss, unknown_hup; cbn. now rewrite fdiv_1_1.
Qed.

Lemma table_upto_insert routes k hups :
  1 <= k → table_upto routes (k - 1) hups →
  table_upto routes k (<[k := discovered routes k]> hups).
Proof.
  intros Hk Ht i. destruct (decide (i = k)) as [->|Hne].
  - rewrite lookup_insert_eq. now rewrite decide_True by lia.
  - rewrite lookup_insert_ne by congruence. rewrite Ht.
    repeat case_decide; try reflexivity; lia.
Qed.

Lemma trace_first_walk op dst dstIP routes (len : nat) :
  ∀ k hups uc,
    1 <= k →
    uc = unknown_run routes (Z.to_nat (k - 1)) →
    table_upto routes (k - 1) hups →
    (∀ i, 1 <= i < k → ¬ stops op dst dstIP routes i) →
    ∃ N, k - 1 <= N <= k - 1 + Z.of_nat len
         ∧ table_upto routes N
             (trace_first op dst dstIP routes (seqZ k (Z.of_nat len)) hups uc)
         ∧ (∀ i, 1 <= i < N → ¬ stops op dst dstIP routes i)
         ∧ (N < k - 1 + Z.of_nat len → k <= N ∧ stops op dst dstIP routes N).
Proof.
  induction len as [|len IH]; intros k hups uc Hk Huc Ht Hns.
  - exists (k - 1). simpl. split; [lia|]. split; [exact Ht|]. split; [|lia].
    intros i Hi. apply Hns. lia.
  - rewrite seqZ_cons by lia.
    replace (Z.pred (Z.of_nat (S len))) with (Z.of_nat len) by lia.
    cbn [trace_first].
    pose proof (unknown_run_step routes k Hk) as Hrun.
    assert (Hstop : ∀ hups', table_upto routes k hups' → stops op dst dstIP routes k →
              ∃ N, k - 1 <= N <= k - 1 + Z.of_nat (S len)
                   ∧ table_upto routes N hups'
                   ∧ (∀ i, 1 <= i < N → ¬ stops op dst dstIP routes i)
                   ∧ (N < k - 1 + Z.of_nat (S len) → k <= N ∧ stops op dst dstIP routes N)).
    { intros hups' Ht' Hs. exists k. split; [lia|]. split; [exact Ht'|].
      split; [exact Hns|]. intros _. split; [lia|exact Hs]. }
    assert (Hgo : ∀ hups' uc', table_upto routes k hups' →
              uc' = unknown_run routes (Z.to_nat k) →
              ¬ stops op dst dstIP routes k →
              ∃ N, k - 1 <= N <= k - 1 + Z.of_nat (S len)
                   ∧ table_upto routes N
                       (trace_first op dst dstIP routes (seqZ (Z.succ k) (Z.of_nat len)) hups' uc')
                   ∧ (∀ i, 1 <= i < N → ¬ stops op dst dstIP routes i)
                   ∧ (N < k - 1 + Z.of_nat (S len) → k <= N ∧ stops op dst dstIP routes N)).
    { intros hups' uc' Ht' Huc' Hnk.
      destruct (IH (Z.succ k) hups' uc') as (N & HN & HT & Hbefore & Hat).
      - lia.
      - now replace (Z.succ k - 1) with k by lia.
      - now replace (Z.succ k - 1) with k by lia.
      - intros i Hi. destruct (decide (i = k)) as [->|]; [exact Hnk|]. apply Hns. lia.
      - exists N. split; [lia|]. split; [exact HT|]. split; [exact Hbefore|].
        intros HlN. destruct Hat as [? ?]; [lia|]. split; [lia|assumption]. }
    destruct (routes !! k) as [r|] eqn:Hr.
    + (* a reply exists at this TTL *)
      destruct (String.eqb (IP_String (IP r)) (IP_String dstIP)) eqn:Hdst.
      * apply Hstop.
        -- rewrite <- (discovered_known routes k r Hr). now apply table_upto_insert.
        -- left. exists r. split; [exact Hr|]. now apply String.eqb_eq.
      * rewrite (compute_Loss_known routes k r Hr).
        destruct (0 >=? MaxUnknowns op) eqn:Hmu.
        { apply Hstop; [now apply table_upto_insert|].
          right; left. rewrite Hrun. lia. }
        destruct (String.eqb (Host (discovered routes k)) dst) eqn:Hh.
        { apply Hstop; [now apply table_upto_insert|].
          right; right. now apply String.eqb_eq. }
        apply Hgo; [now apply table_upto_insert | now rewrite Hrun |].
        intros [(r' & Hr' & Heq)|[Hu|Hd]].
        -- rewrite Hr in Hr'. injection Hr' as <-.
           apply String.eqb_neq in Hdst. contradiction.
        -- rewrite Hrun in Hu. lia.
        -- apply String.eqb_neq in Hh. contradiction.
    + (* no reply at this TTL *)
      rewrite (compute_Loss_unknown routes k Hr).
      destruct (uc + 1 >=? MaxUnknowns op) eqn:Hmu.
      { apply Hstop; [now apply table_upto_insert|].
        right; left. rewrite Hrun, <- Huc. lia. }
      destruct (String.eqb (Host (discovered routes k)) dst) eqn:Hh.
      { apply Hstop; [now apply table_upto_insert|].
        right; right. now apply String.eqb_eq. }
      apply Hgo; [now apply table_upto_insert | rewrite Hrun; lia |].
      intros [(r' & Hr' & Heq)|[Hu|Hd]].
      * congruence.
      * rewrite Hrun, <- Huc in Hu. lia.
      * apply String.eqb_neq in Hh. contradiction.
Qed.

(** The walk of [discover]: the table holds the TTLs [1..N], no TTL before
    [N] meets a stop condition, and a walk that ends before [MaxHops]
    ends at a TTL that meets one. *)
Lemma discover_stops (op : OPMTR) (dst : string) (dstIP : net_IP) (routes : gmap Z Reply) :
  ∃ N : Z,
    0 <= N <= Z.max 0 (MaxHops (Tracer op))
    ∧ table_upto routes N (discover op dst dstIP routes)
    ∧ (∀ i, 1 <= i < N → ¬ stops op dst dstIP routes i)
    ∧ (N < MaxHops (Tracer op) → 1 <= N ∧ stops op dst dstIP routes N).
Proof.
  unfold discover.
  destruct (Z_le_gt_dec (MaxHops (Tracer op)) 0) as [Hle|Hgt].
  - exists 0. rewrite seqZ_nil by lia. cbn [trace_first].
    split; [lia|]. split; [|split; intros; lia].
    intros i. rewrite lookup_empty. now rewrite decide_False by lia.
  - destruct (trace_first_walk op dst dstIP routes (Z.to_nat (MaxHops (Tracer op))) 1 ∅ 0)
      as (N & HN & HT & Hbefore & Hat).
    + lia.
    + reflexivity.
    + intros i. rewrite lookup_empty. now rewrite decide_False by lia.
    + intros i Hi. lia.
    + rewrite Z2Nat.id in * by lia.
      exists N. split; [lia|]. split; [exact HT|]. split; [exact Hbefore|].
      intros Hlt. apply Hat. lia.
Qed.

(* ===================================================================== *)
(** * Probing: what a run does to one hop *)
(* ===================================================================== *)

(** One iteration of an inner loop as a relation on the hop's record and
    loop variables: in some world, with some result of the scan. *)
Inductive retry_step (op : OPMTR) (dstIP : net_IP)
  : MTRHup * retry_state → MTRHup * retry_state → Prop :=
  | retry_step_intro scan hup st w hup' st' w' :
      retry_iteration op dstIP scan hup st w = (hup', st', w') →
      retry_step op dstIP (hup, st) (hup', st').

Inductive noretry_step (op : OPMTR)
  : MTRHup * retry_state → MTRHup * retry_state → Prop :=
  | noretry_step_intro hup st w hup' w' :
      noretry_iteration op hup w = (hup', w') →
      noretry_step op (hup, st) (hup', st).

Definition hop_step (op : OPMTR) (dstIP : net_IP)
  : MTRHup * retry_state → MTRHup * retry_state → Prop :=
  fun a b => retry_step op dstIP a b ∨ noretry_step op a b.

(** The record [h] a run reports for a hop discovered as [h0]:
    [PingCount - 1] iterations, then the final assignment of [Loss]. *)
Definition result_of (step : MTRHup * retry_state → MTRHup * retry_state → Prop)
    (op : OPMTR) (h0 h : MTRHup) : Prop :=
  ∃ hup st,
    nsteps step (Z.to_nat (PingCount op - 1)) (h0, retry_start op) (hup, st)
    ∧ h = final_Loss hup.

(** The hops of a report, against the table [hups0] of the discovery:
    one per entry, in the order of the TTLs. *)
Definition hops_from (R : MTRHup → MTRHup → Prop) (hups0 : gmap Z MTRHup)
    (l : list MTRHup) : Prop :=
  length l = size hups0
  ∧ ∀ (k : nat) h, l !! k = Some h →
      ∃ h0, hups0 !! (Z.of_nat k + 1) = Some h0 ∧ R h0 h.

(** The three run operations under one name. *)
Inductive run_operation := NoRetry | Sequential | Cocurrent.

Definition returns (v : run_operation) (op : OPMTR) (dst : string) (w : World)
    (res : (MTRReport * option error) * World) : Prop :=
  match v with
  | NoRetry => RunMTRWithNoRetryPing op dst w = Some res
  | Sequential => RunMTR op dst w = Some res
  | Cocurrent => RunMTRWithCocurrentPing op dst w res
  end.

Definition step_of (v : run_operation) (op : OPMTR) (dstIP : net_IP)
  : MTRHup * retry_state → MTRHup * retry_state → Prop :=
  match v with
  | NoRetry => noretry_step op
  | _ => retry_step op dstIP
  end.

(** ** Generic facts about counted steps *)

Lemma nsteps_invariant {A} (R : relation A) (P : nat → A → Prop) n x y :
  (∀ k a b, P k a → R a b → P (S k) b) →
  P O x → nsteps R n x y → P n y.
Proof.
  intros Hstep Hx Hn.
  enough (H : ∀ m, P m x → P (m + n)%nat y) by exact (H O Hx).
  clear Hx. induction Hn as [x|n x y z Hxy Hyz IH]; intros m Hm.
  - now rewrite Nat.add_0_r.
  - replace (m + S n)%nat with (S m + n)%nat by lia. apply IH. eapply Hstep; eauto.
Qed.

Lemma nsteps_mono {A} (R S : relation A) n x y :
  (∀ a b, R a b → S a b) → nsteps R n x y → nsteps S n x y.
Proof. intros HRS. induction 1; econstructor; eauto. Qed.

Lemma result_of_mono (R S : relation (MTRHup * retry_state)) op h0 h :
  (∀ a b, R a b → S a b) → result_of R op h0 h → result_of S op h0 h.
Proof.
  intros HRS (hup & st & Hn & ->). exists hup, st. split; [|reflexivity].
  eapply nsteps_mono; eauto.
Qed.

Lemma step_of_hop_step v op dstIP a b : step_of v op dstIP a b → hop_step op dstIP a b.
Proof. destruct v; cbn; intros H; unfold hop_step; auto. Qed.

(** ** The inner loops are counted steps *)

Lemma retry_loop_nsteps op dstIP hups i n :
  ∀ hup st w hup' st' w',
    retry_loop n op dstIP hups i hup st w = (hup', st', w') →
    nsteps (retry_step op dstIP) n (hup, st) (hup', st').
Proof.
  induction n as [|n IH]; intros hup st w hup' st' w' H; cbn [retry_loop] in H.
  - injection H as <- <- <-. constructor.
  - destruct (retry_iteration op dstIP _ hup st w) as [[hup1 st1] w1] eqn:Hit.
    eapply nsteps_l; [|eapply IH; exact H].
    econstructor. exact Hit.
Qed.

Lemma noretry_loop_nsteps op n :
  ∀ hup st w hup' w',
    noretry_loop n op hup w = (hup', w') →
    nsteps (noretry_step op) n (hup, st) (hup', st).
Proof.
  induction n as [|n IH]; intros hup st w hup' w' H; cbn [noretry_loop] in H.
  - injection H as <- <-. constructor.
  - destruct (noretry_iteration op hup w) as [hup1 w1] eqn:Hit.
    eapply nsteps_l; [|eapply IH; exact H].
    econstructor. exact Hit.
Qed.

(** ** The outer loops *)

(** What an outer loop over the keys [ks] leaves in the table. *)
Definition hups_done (R : MTRHup → MTRHup → Prop) (ks : list Z)
    (hups hups' : gmap Z MTRHup) : Prop :=
  (∀ i, i ∉ ks → hups' !! i = hups !! i)
  ∧ (∀ i, i ∈ ks → ∃ h0 h, hups !! i = Some h0 ∧ hups' !! i = Some h ∧ R h0 h).

Lemma hups_done_cons (R : MTRHup → MTRHup → Prop) i ks hups h0 h hups' :
  i ∉ ks → hups !! i = Some h0 → R h0 h →
  hups_done R ks (<[i := h]> hups) hups' →
  hups_done R (i :: ks) hups hups'.
Proof.
  intros Hi H0 HR [Hout Hin]. split.
  - intros j Hj. rewrite not_elem_of_cons in Hj. destruct Hj as [Hji Hj].
    rewrite (Hout j Hj). now rewrite lookup_insert_ne by congruence.
  - intros j Hj. rewrite elem_of_cons in Hj. destruct Hj as [->|Hj].
    + exists h0, h. rewrite (Hout i Hi), lookup_insert_eq. auto.
    + destruct (Hin j Hj) as (a & b & Ha & Hb & Hab).
      rewrite lookup_insert_ne in Ha by (intros ->; contradiction).
      exists a, b. auto.
Qed.

(** The inner loops end unless [PingCount] is the least [int], and then
    after [PingCount - 1] iterations. *)
Lemma rounds_Some count n : rounds count = Some n → n = Z.to_nat (count - 1).
Proof.
  unfold rounds, for_rounds, int_pred, MinInt, MaxInt.
  destruct (count =? - 2 ^ 63) eqn:Hmin; [discriminate|].
  destruct (2 ^ 63 - 1 <=? count - 1); [discriminate|]. now intros [= <-].
Qed.

Lemma rounds_int count :
  MinInt < count <= MaxInt → rounds count = Some (Z.to_nat (count - 1)).
Proof.
  unfold rounds, for_rounds, int_pred, MinInt, MaxInt. intros H.
  destruct (Z.eqb_spec count (- 2 ^ 63)); [lia|].
  destruct (Z.leb_spec (2 ^ 63 - 1) (count - 1)); [lia|reflexivity].
Qed.

Lemma rounds_MinInt : rounds MinInt = None.
Proof. reflexivity. Qed.

Lemma retry_hups_done op dstIP ks :
  ∀ hups w, NoDup ks → (∀ i, i ∈ ks → is_Some (hups !! i)) →
    match retry_hups op dstIP ks hups w with
    | Some (hups', _) => hups_done (result_of (retry_step op dstIP) op) ks hups hups'
    | None => ks ≠ [] ∧ rounds (PingCount op) = None
    end.
Proof.
  induction ks as [|i ks IH]; intros hups w Hnd Hsome; cbn [retry_hups].
  - split; [reflexivity|]. intros i Hi. now apply not_elem_of_nil in Hi.
  - apply NoDup_cons in Hnd as [Hi Hnd].
    destruct (Hsome i) as [h0 Hh0]; [left|]. rewrite Hh0.
    destruct (rounds (PingCount op)) as [n|] eqn:Hn; [|now split].
    apply rounds_Some in Hn. subst n.
    destruct (retry_loop _ op dstIP hups i h0 (retry_start op) w) as [[hup st] w1] eqn:Hloop.
    specialize (IH (<[i := final_Loss hup]> hups) w1 Hnd).
    destruct (retry_hups op dstIP ks _ w1) as [[hups' w']|].
    + eapply hups_done_cons; eauto.
      * exists hup, st. split; [|reflexivity]. eapply retry_loop_nsteps; eauto.
      * apply IH. intros j Hj. rewrite lookup_insert_ne by (intros ->; contradiction).
        apply Hsome. now right.
    + split; [discriminate|]. apply IH.
      intros j Hj. rewrite lookup_insert_ne by (intros ->; contradiction).
      apply Hsome. now right.
Qed.

Lemma noretry_hups_done op ks :
  ∀ hups w, NoDup ks → (∀ i, i ∈ ks → is_Some (hups !! i)) →
    match noretry_hups op ks hups w with
    | Some (hups', _) => hups_done (result_of (noretry_step op) op) ks hups hups'
    | None => ks ≠ [] ∧ rounds (PingCount op) = None
    end.
Proof.
  induction ks as [|i ks IH]; intros hups w Hnd Hsome; cbn [noretry_hups].
  - split; [reflexivity|]. intros i Hi. now apply not_elem_of_nil in Hi.
  - apply NoDup_cons in Hnd as [Hi Hnd].
    destruct (Hsome i) as [h0 Hh0]; [left|]. rewrite Hh0.
    destruct (rounds (PingCount op)) as [n|] eqn:Hn; [|now split].
    apply rounds_Some in Hn. subst n.
    destruct (noretry_loop _ op h0 w) as [hup w1] eqn:Hloop.
    specialize (IH (<[i := final_Loss hup]> hups) w1 Hnd).
    destruct (noretry_hups op ks _ w1) as [[hups' w']|].
    + eapply hups_done_cons; eauto.
      * exists hup, (retry_start op). split; [|reflexivity].
        eapply noretry_loop_nsteps; eauto.
      * apply IH. intros j Hj. rewrite lookup_insert_ne by (intros ->; contradiction).
        apply Hsome. now right.
    + split; [discriminate|]. apply IH.
      intros j Hj. rewrite lookup_insert_ne by (intros ->; contradiction).
      apply Hsome. now right.
Qed.

(** ** The table of the discovery is dense *)

Lemma table_upto_size routes N hups :
  0 <= N → table_upto routes N hups → size hups = Z.to_nat N.
Proof.
  intros HN Ht.
  assert (Hdom : dom hups = list_to_set (seqZ 1 N)).
  { apply set_eq. intros i.
    rewrite elem_of_dom, Ht, elem_of_list_to_set, elem_of_seqZ.
    case_decide; split; intros H'; try lia; try (by eexists). }
  rewrite <- size_dom, Hdom, size_list_to_set by apply NoDup_seqZ.
  rewrite length_seqZ. reflexivity.
Qed.

Lemma table_upto_lookup routes N hups i :
  table_upto routes N hups → 1 <= i <= N → hups !! i = Some (discovered routes i).
Proof. intros Ht Hi. rewrite Ht. now rewrite decide_True. Qed.

Lemma discover_dense op dst dstIP routes :
  ∃ N, 0 <= N <= Z.max 0 (MaxHops (Tracer op))
       ∧ Z.of_nat (size (discover op dst dstIP routes)) = N
       ∧ table_upto routes N (discover op dst dstIP routes).
Proof.
  destruct (discover_stops op dst dstIP routes) as (N & HN & Ht & _).
  exists N. split; [exact HN|]. split; [|exact Ht].
  rewrite (table_upto_size routes N) by (lia || assumption). lia.
Qed.

(** ** The walk of the discovery in [OPMTR]

    Discovery, the same code in the three run operations, walks the TTLs
    [1..MaxHops] in order.  The table it returns has [N] entries, the TTLs
    [1..N], each with a known record when the trace has a reply at that
    TTL and an unknown record (host ["???"]) otherwise.  No TTL before [N]
    meets a stop condition, and when the walk ends before [MaxHops] then
    TTL [N] meets one: the reply's address prints like the destination,
    or the run of consecutive unknown hops has reached [MaxUnknowns], or
    the host string equals the [dst] parameter.  (The first condition is
    tested before [Loss] is assigned, the other two after; the record is
    the same either way.) *)
Theorem discovery_walk (op : OPMTR) (dst : string) (dstIP : net_IP) (routes : gmap Z Reply) :
  ∃ N : Z,
    0 <= N <= Z.max 0 (MaxHops (Tracer op))
    ∧ Z.of_nat (size (discover op dst dstIP routes)) = N
    ∧ table_upto routes N (discover op dst dstIP routes)
    ∧ (∀ i, 1 <= i < N → ¬ stops op dst dstIP routes i)
    ∧ (N < MaxHops (Tracer op) → 1 <= N ∧ stops op dst dstIP routes N).
Proof.
  destruct (discover_stops op dst dstIP routes) as (N & HN & Ht & Hbefore & Hat).
  exists N. split; [exact HN|]. split; [|auto].
  rewrite (table_upto_size routes N) by (lia || assumption). lia.
Qed.

(** The loop of the older [RunMTR] and the loop of [OPMTR] agree from any
    state of the walk when [dst] is the printed form of [dstIP]. *)
Lemma legacy_trace_first_agrees op dst dstIP routes ttls hups uc :
  IP_String dstIP = dst →
  legacy_trace_first (MaxUnknowns op) dst routes ttls hups uc
  = trace_first op dst dstIP routes ttls hups uc.
Proof.
  intros Hcanon. revert hups uc.
  induction ttls as [|i ttls IH]; intros hups uc; [reflexivity|].
  cbn [legacy_trace_first trace_first]. rewrite Hcanon.
  destruct (routes !! i) as [r|] eqn:Hr.
  - destruct (String.eqb (IP_String (IP r)) dst) eqn:Hd; [reflexivity|].
    destruct (0 >=? MaxUnknowns op); [reflexivity|].
    change (Host (compute_Loss (known_hup i r))) with (IP_String (IP r)).
    rewrite Hd. apply IH.
  - destruct (uc + 1 >=? MaxUnknowns op); [reflexivity|].
    change (Host (compute_Loss (unknown_hup i))) with "???".
    destruct (String.eqb "???" dst) eqn:Hq; [|apply IH].
    apply String.eqb_eq in Hq. subst dst.
    symmetry in Hq. now apply IP_String_known in Hq.
Qed.

(** The older [RunMTR] of mtr/mtr.go builds the same table as the three
    operations of [OPMTR] when [dst] is the text that [net.IP.String]
    prints for the parsed destination: its comparison with [dst] is then
    the first test, and the third test never fires where the first two
    did not. *)
Theorem legacy_discover_agrees op dst dstIP routes :
  IP_String dstIP = dst →
  legacy_discover (MaxHops (Tracer op)) (MaxUnknowns op) dst routes
  = discover op dst dstIP routes.
Proof. intros Hcanon. now apply legacy_trace_first_agrees. Qed.

(** ** The guard, the trace and the report *)

Lemma trace_phase_inr op dst w now dstIP hups w1 :
  trace_phase op dst w = (inr (now, dstIP, hups), w1) →
  ParseIP dst = Some dstIP ∧ ∃ routes, hups = discover op dst dstIP routes.
Proof.
  unfold trace_phase. destruct (ParseIP dst) as [ip|]; [|discriminate].
  destruct (Tracer_Trace _ w ip) as [[replies err] w2].
  destruct (fold_left on_reply replies (∅, w2)) as [routes w3].
  destruct err; [discriminate|]. intros [= <- <- <- <-]. eauto.
Qed.

Lemma trace_phase_inl op dst w report err w1 :
  trace_phase op dst w = (inl (report, err), w1) →
  (ParseIP dst = None ∧ report = MTRReport_zero
   ∧ err = errors_New "Unknown dest IP" ∧ w1 = w)
  ∨ (∃ dstIP e, ParseIP dst = Some dstIP ∧ report = report_start op dst
                ∧ err = library_error e).
Proof.
  unfold trace_phase. destruct (ParseIP dst) as [ip|].
  - destruct (Tracer_Trace _ w ip) as [[replies e] w2].
    destruct (fold_left on_reply replies (∅, w2)) as [routes w3].
    destruct e; [|discriminate]. intros [= <- <- <-]. right. eauto.
  - intros [= <- <- <-]. left. auto.
Qed.

Lemma collect_Some hups n l :
  collect hups n = Some l →
  length l = Z.to_nat n ∧ ∀ (k : nat) h, l !! k = Some h → hups !! (Z.of_nat k + 1) = Some h.
Proof.
  unfold collect. intros H. apply mapM_Some in H.
  split.
  - apply Forall2_length in H. rewrite length_seqZ in H. lia.
  - intros k h Hk.
    destruct (Forall2_lookup_r _ _ _ _ _ H Hk) as (i & Hi & Hlook).
    apply lookup_seqZ in Hi as [-> _]. rewrite <- Hlook. f_equal. lia.
Qed.

Lemma collect_is_Some hups n :
  (∀ i, 1 <= i <= n → is_Some (hups !! i)) → is_Some (collect hups n).
Proof.
  intros H. unfold collect. apply mapM_is_Some. apply Forall_forall.
  intros i Hi. apply elem_of_seqZ in Hi. apply H. lia.
Qed.

(** From a table processed by an outer loop to the hops of the report. *)
Lemma hops_from_done (R : MTRHup → MTRHup → Prop) routes N hups0 hups' l :
  0 <= N → table_upto routes N hups0 →
  hups_done R (seqZ 1 N) hups0 hups' →
  collect hups' N = Some l →
  hops_from R hups0 l.
Proof.
  intros HN Ht [Hout Hin] Hc. apply collect_Some in Hc as [Hlen Hl].
  split.
  - rewrite Hlen. symmetry. eapply table_upto_size; eauto.
  - intros k h Hk. specialize (Hl k h Hk).
    assert (Hkn : (k < Z.to_nat N)%nat).
    { rewrite <- Hlen. eapply lookup_lt_Some; eauto. }
    destruct (Hin (Z.of_nat k + 1)) as (h0 & h' & H0 & H' & HR).
    { apply elem_of_seqZ. lia. }
    exists h0. split; [exact H0|]. congruence.
Qed.

Lemma sequential_runs_return (R : MTRHup → MTRHup → Prop)
    (loop : list Z → gmap Z MTRHup → World → option (gmap Z MTRHup * World))
    op dst routes N hups0 now w :
  (∀ ks hups w, NoDup ks → (∀ i, i ∈ ks → is_Some (hups !! i)) →
     match loop ks hups w with
     | Some (hups', _) => hups_done R ks hups hups'
     | None => ks ≠ [] ∧ rounds (PingCount op) = None
     end) →
  0 <= N → Z.of_nat (size hups0) = N → table_upto routes N hups0 →
  match
    match loop (seqZ 1 (Z.of_nat (size hups0))) hups0 w with
    | None => None
    | Some (hups, w) =>
        match collect hups (Z.of_nat (size hups0)) with
        | None => None
        | Some l => Some ((report_done op dst now l, @None error), w)
        end
    end
  with
  | Some res => ∃ l w', res = ((report_done op dst now l, None), w') ∧ hops_from R hups0 l
  | None => 1 <= N ∧ rounds (PingCount op) = None
  end.
Proof.
  intros Hloop HN Hsize Ht. rewrite Hsize.
  specialize (Hloop (seqZ 1 N) hups0 w (NoDup_seqZ _ _)).
  destruct (loop (seqZ 1 N) hups0 w) as [[hups' w']|].
  - assert (Hdone : hups_done R (seqZ 1 N) hups0 hups').
    { apply Hloop. intros i Hi. apply elem_of_seqZ in Hi.
      rewrite Ht, decide_True by lia. eauto. }
    destruct (collect_is_Some hups' N) as [l Hl].
    { intros i Hi. destruct Hdone as [_ Hin].
      destruct (Hin i) as (? & ? & ? & ? & ?); [apply elem_of_seqZ; lia|eauto]. }
    rewrite Hl. exists l, w'. split; [reflexivity|].
    eapply hops_from_done; eauto.
  - destruct Hloop as [Hne Hr].
    { intros i Hi. apply elem_of_seqZ in Hi. rewrite Ht, decide_True by lia. eauto. }
    split; [|exact Hr].
    destruct (Z_le_gt_dec 1 N); [assumption|]. exfalso. apply Hne. apply seqZ_nil. lia.
Qed.

(** ** The concurrent run: an invariant of every interleaving *)

Definition worker_inv (op : OPMTR) (dstIP : net_IP) (h0 hup : MTRHup) (wk : worker) : Prop :=
  match wk with
  | Running n st =>
      (n <= Z.to_nat (PingCount op - 1))%nat
      ∧ nsteps (retry_step op dstIP) (Z.to_nat (PingCount op - 1) - n)
          (h0, retry_start op) (hup, st)
  | Endless _ => True
  | Done => result_of (retry_step op dstIP) op h0 hup
  end.

Definition conc_inv (op : OPMTR) (dstIP : net_IP) (hups0 : gmap Z MTRHup) (N : Z)
    (s : conc_state) : Prop :=
  ∀ i, 1 <= i <= N →
    ∃ h0 hup wk, hups0 !! i = Some h0 ∧ c_hups s !! i = Some hup
                 ∧ c_workers s !! i = Some wk ∧ worker_inv op dstIP h0 hup wk.

Lemma conc_inv_start op dstIP hups0 N w :
  Z.of_nat (size hups0) = N → (∀ i, 1 <= i <= N → is_Some (hups0 !! i)) →
  conc_inv op dstIP hups0 N (conc_start op hups0 w).
Proof.
  intros Hsize Hsome i Hi. destruct (Hsome i Hi) as [h0 Hh0].
  exists h0, h0, (worker_start op).
  split; [exact Hh0|]. split; [exact Hh0|]. split.
  - cbn. apply lookup_gset_to_gmap_Some. split; [|reflexivity].
    apply elem_of_list_to_set, elem_of_seqZ. lia.
  - unfold worker_start. destruct (rounds (PingCount op)) as [n|] eqn:Hn; [|exact I].
    apply rounds_Some in Hn. subst n.
    cbn. split; [lia|]. rewrite Nat.sub_diag. constructor.
Qed.

Lemma conc_inv_step op dstIP hups0 N s s' :
  conc_inv op dstIP hups0 N s → conc_step op dstIP s s' → conc_inv op dstIP hups0 N s'.
Proof.
  intros Hinv Hstep i Hi. destruct (Hinv i Hi) as (h0 & hup & wk & H0 & Hh & Hw & Hwi).
  destruct Hstep as [hups ws w j n st hupj scan hup' st' w' Hwj Hhj Hit
                    |hups ws w j st hupj scan hup' st' w' Hwj Hhj Hit
                    |hups ws w j st hupj Hwj Hhj]; cbn in *.
  - destruct (decide (i = j)) as [->|Hne].
    + exists h0, hup', (Running n st'). rewrite !lookup_insert_eq.
      repeat split; try reflexivity; try assumption.
      * rewrite Hwj in Hw. injection Hw as <-. destruct Hwi as [Hle _]. cbn. lia.
      * rewrite Hwj in Hw. injection Hw as <-. rewrite Hhj in Hh. injection Hh as <-.
        destruct Hwi as [Hle Hn].
        replace (Z.to_nat (PingCount op - 1) - n)%nat
          with (S (Z.to_nat (PingCount op - 1) - S n)) by lia.
        eapply nsteps_r; [exact Hn|]. econstructor. exact Hit.
    + exists h0, hup, wk. rewrite !lookup_insert_ne by congruence. auto.
  - destruct (decide (i = j)) as [->|Hne].
    + exists h0, hup', (Endless st'). rewrite !lookup_insert_eq.
      repeat split; try reflexivity; assumption.
    + exists h0, hup, wk. rewrite !lookup_insert_ne by congruence. auto.
  - destruct (decide (i = j)) as [->|Hne].
    + exists h0, (final_Loss hupj), Done. rewrite !lookup_insert_eq.
      repeat split; try reflexivity; try assumption.
      rewrite Hwj in Hw. injection Hw as <-. rewrite Hhj in Hh. injection Hh as <-.
      destruct Hwi as [_ Hn]. rewrite Nat.sub_0_r in Hn.
      exists hupj, st. split; [exact Hn|reflexivity].
    + exists h0, hup, wk. rewrite !lookup_insert_ne by congruence. auto.
Qed.

Lemma conc_inv_rtc op dstIP hups0 N s s' :
  conc_inv op dstIP hups0 N s → rtc (conc_step op dstIP) s s' →
  conc_inv op dstIP hups0 N s'.
Proof. intros Hinv Hrtc. induction Hrtc; eauto using conc_inv_step. Qed.

Lemma hops_from_conc op dstIP routes N hups0 s l :
  0 <= N → Z.of_nat (size hups0) = N → table_upto routes N hups0 →
  conc_inv op dstIP hups0 N s → all_done (c_workers s) →
  collect (c_hups s) N = Some l →
  hops_from (result_of (retry_step op dstIP) op) hups0 l.
Proof.
  intros HN Hsize Ht Hinv Hdone Hc. apply collect_Some in Hc as [Hlen Hl].
  split; [lia|].
  intros k h Hk. specialize (Hl k h Hk).
  assert (Hkn : (k < Z.to_nat N)%nat).
  { rewrite <- Hlen. eapply lookup_lt_Some; eauto. }
  destruct (Hinv (Z.of_nat k + 1)) as (h0 & hup & wk & H0 & Hh & Hw & Hwi); [lia|].
  rewrite (Hdone _ _ Hw) in Hwi. cbn in Hwi.
  exists h0. split; [exact H0|]. congruence.
Qed.

(** ** Every run that returns a report

    The report of a run that returns without error lists, in the order of
    the TTLs, one record per hop of the discovery, each the result of
    [PingCount - 1] iterations on the discovery record and the final
    assignment of [Loss]. *)
Lemma sequential_structure (R : net_IP → MTRHup → MTRHup → Prop)
    (loop : net_IP → list Z → gmap Z MTRHup → World → option (gmap Z MTRHup * World))
    op dst w report w' :
  (∀ dstIP ks hups w, NoDup ks → (∀ i, i ∈ ks → is_Some (hups !! i)) →
     match loop dstIP ks hups w with
     | Some (hups', _) => hups_done (R dstIP) ks hups hups'
     | None => ks ≠ [] ∧ rounds (PingCount op) = None
     end) →
  match trace_phase op dst w with
  | (inl (report, err), w) => Some ((report, Some err), w)
  | (inr (now, dstIP, hups), w) =>
      match loop dstIP (seqZ 1 (Z.of_nat (size hups))) hups w with
      | None => None
      | Some (hups', w) =>
          match collect hups' (Z.of_nat (size hups)) with
          | None => None
          | Some l => Some ((report_done op dst now l, None), w)
          end
      end
  end = Some ((report, None), w') →
  ∃ now dstIP routes,
    ParseIP dst = Some dstIP
    ∧ report = report_done op dst now (Hups report)
    ∧ hops_from (R dstIP) (discover op dst dstIP routes) (Hups report).
Proof.
  intros Hloop Hrun.
  destruct (trace_phase op dst w) as [[[rep err]|[[now dstIP] hups]] w1] eqn:Htp;
    [discriminate|].
  destruct (trace_phase_inr _ _ _ _ _ _ _ Htp) as [Hparse [routes ->]].
  destruct (discover_dense op dst dstIP routes) as (N & HN & Hsize & Ht).
  pose proof (sequential_runs_return (R dstIP) (loop dstIP) op dst routes N
                (discover op dst dstIP routes) now w1 (Hloop dstIP)
                ltac:(lia) Hsize Ht) as Hret.
  rewrite Hrun in Hret. destruct Hret as (l & w2 & [= -> ->] & Hh).
  exists now, dstIP, routes. cbn. auto.
Qed.

Lemma run_structure v op dst w report w' :
  returns v op dst w ((report, None), w') →
  ∃ now dstIP routes,
    ParseIP dst = Some dstIP
    ∧ report = report_done op dst now (Hups report)
    ∧ hops_from (result_of (step_of v op dstIP) op) (discover op dst dstIP routes)
        (Hups report).
Proof.
  intros Hret. destruct v; cbn [returns step_of] in *.
  - apply (sequential_structure (fun _ => result_of (noretry_step op) op)
             (fun _ => noretry_hups op) op dst w report w');
      [intros _; apply noretry_hups_done | exact Hret].
  - apply (sequential_structure (fun dstIP => result_of (retry_step op dstIP) op)
             (retry_hups op) op dst w report w');
      [apply retry_hups_done | exact Hret].
  - inversion Hret as [|now dstIP hups w1 s l Htp Hrtc Hdone Hc]; subst.
    destruct (trace_phase_inr _ _ _ _ _ _ _ Htp) as [Hparse [routes ->]].
    destruct (discover_dense op dst dstIP routes) as (N & HN & Hsize & Ht).
    exists now, dstIP, routes. split; [exact Hparse|]. split; [reflexivity|].
    cbn [Hups report_done]. rewrite Hsize in Hc.
    eapply hops_from_conc; eauto; [lia|].
    eapply conc_inv_rtc; [|exact Hrtc].
    apply conc_inv_start; [exact Hsize|].
    intros i Hi. rewrite Ht, decide_True by lia. eauto.
Qed.

(** The same, against the discovery records, for any run operation. *)
Lemma run_hops v op dst w report w' :
  returns v op dst w ((report, None), w') →
  ∃ dstIP routes N,
    ParseIP dst = Some dstIP
    ∧ 0 <= N <= Z.max 0 (MaxHops (Tracer op))
    ∧ Z.of_nat (length (Hups report)) = N
    ∧ ∀ (k : nat) h, Hups report !! k = Some h →
        result_of (step_of v op dstIP) op (discovered routes (Z.of_nat k + 1)) h.
Proof.
  intros Hret.
  destruct (run_structure v op dst w report w' Hret)
    as (now & dstIP & routes & Hparse & _ & Hlen & Hhops).
  destruct (discover_dense op dst dstIP routes) as (N & HN & Hsize & Ht).
  exists dstIP, routes, N. split; [exact Hparse|]. split; [exact HN|].
  split; [lia|].
  intros k h Hk. destruct (Hhops k h Hk) as (h0 & Hh0 & Hres).
  rewrite Ht in Hh0. case_decide; [|discriminate]. now injection Hh0 as <-.
Qed.

(** ** What one iteration does to the record *)

(** [hup.Snt++]. *)
Definition incr_Snt (hup : MTRHup) : MTRHup :=
  set_Snt (fadd (Snt hup) (f_of_int 1)) hup.

Inductive iteration_outcome (hup : MTRHup) : MTRHup → Prop :=
  | outcome_reply rp :
      Host hup ≠ "???" →
      iteration_outcome hup (record_rtt rp (incr_Snt hup))
  | outcome_lost :
      iteration_outcome hup (set_LossPoint (LossPoint hup + 1) (incr_Snt hup))
  | outcome_skip :
      Host hup = "???" →
      iteration_outcome hup (incr_Snt hup)
  | outcome_comeback rp :
      Host hup = "???" →
      iteration_outcome hup (record_rtt rp (set_Host (IP_String (IP rp)) (incr_Snt hup))).

Lemma Host_eqb_unknown (hup : MTRHup) :
  negb (String.eqb (Host hup) "???") = true ↔ Host hup ≠ "???".
Proof. rewrite negb_true_iff. apply String.eqb_neq. Qed.

Lemma retry_iteration_outcome op dstIP scan hup st w hup' st' w' :
  retry_iteration op dstIP scan hup st w = (hup', st', w') →
  iteration_outcome hup hup'.
Proof.
  unfold retry_iteration. fold (incr_Snt hup).
  change (Host (incr_Snt hup)) with (Host hup).
  change (Count (incr_Snt hup)) with (Count hup).
  change (LossPoint (incr_Snt hup)) with (LossPoint hup).
  destruct (negb (String.eqb (Host hup) "???")) eqn:Hk.
  - apply Host_eqb_unknown in Hk.
    destruct (if comeback st then _ else _) as [[rp err] w1].
    destruct err as [e|]; [|destruct rp as [rp|]]; intros [= <- <- <-];
      auto using iteration_outcome.
  - apply negb_false_iff, String.eqb_eq in Hk.
    destruct (retryTime st >=? 4).
    { intros [= <- <- <-]. now constructor. }
    destruct (ping _ _ _ _ w) as [[rp err] w1].
    destruct err as [e|]; [|destruct rp as [rp|]]; try destruct (negb (scan _ _));
      intros [= <- <- <-]; auto using iteration_outcome.
Qed.

Lemma noretry_iteration_outcome op hup w hup' w' :
  noretry_iteration op hup w = (hup', w') → iteration_outcome hup hup'.
Proof.
  unfold noretry_iteration. fold (incr_Snt hup).
  change (Host (incr_Snt hup)) with (Host hup).
  change (LossPoint (incr_Snt hup)) with (LossPoint hup).
  destruct (negb (String.eqb (Host hup) "???")) eqn:Hk.
  - apply Host_eqb_unknown in Hk.
    destruct (ping _ _ _ _ w) as [[rp err] w1].
    destruct err as [e|]; [|destruct rp as [rp|]]; intros [= <- <-];
      auto using iteration_outcome.
  - apply negb_false_iff, String.eqb_eq in Hk.
    intros [= <- <-]. now constructor.
Qed.

Lemma hop_step_outcome op dstIP hup st hup' st' :
  hop_step op dstIP (hup, st) (hup', st') → iteration_outcome hup hup'.
Proof.
  intros [H|H]; inversion H; subst;
    eauto using retry_iteration_outcome, noretry_iteration_outcome.
Qed.

(** An invariant of the record alone, counted by iterations, holds for
    every reported hop once it holds after discovery, is kept by every
    outcome of an iteration and by the final assignment. *)
Lemma result_of_invariant (P : nat → MTRHup → Prop) (Q : MTRHup → Prop) v op dstIP h0 h :
  P O h0 →
  (∀ k hup hup', P k hup → iteration_outcome hup hup' → P (S k) hup') →
  (∀ hup, P (Z.to_nat (PingCount op - 1)) hup → Q (final_Loss hup)) →
  result_of (step_of v op dstIP) op h0 h → Q h.
Proof.
  intros H0 Hstep Hfin (hup & st & Hn & ->). apply Hfin.
  apply (nsteps_mono _ _ _ _ _ (step_of_hop_step v op dstIP)) in Hn.
  apply (nsteps_invariant (hop_step op dstIP) (fun k a => P k a.1) _ _ _) in Hn;
    [assumption| |assumption].
  intros k [a sa] [b sb] Ha Hab. cbn in *. eapply Hstep; eauto using hop_step_outcome.
Qed.

(** ** Fields that a successful probe leaves alone *)

Lemma record_rtt_fields rp hup :
  Count (record_rtt rp hup) = Count hup
  ∧ Host (record_rtt rp hup) = Host hup
  ∧ Loss (record_rtt rp hup) = Loss hup
  ∧ LossPoint (record_rtt rp hup) = LossPoint hup
  ∧ Snt (record_rtt rp hup) = Snt hup.
Proof. unfold record_rtt. cbv zeta. repeat case_match; cbn; auto. Qed.

Lemma record_rtt_Last rp hup : Last (record_rtt rp hup) = rtt_ms (RTT rp).
Proof. unfold record_rtt. cbv zeta. repeat case_match; reflexivity. Qed.

Lemma final_Loss_fields hup :
  Count (final_Loss hup) = Count hup
  ∧ Host (final_Loss hup) = Host hup
  ∧ LossPoint (final_Loss hup) = LossPoint hup
  ∧ Snt (final_Loss hup) = Snt hup
  ∧ Last (final_Loss hup) = Last hup
  ∧ Avg (final_Loss hup) = Avg hup
  ∧ Best (final_Loss hup) = Best hup
  ∧ Wrst (final_Loss hup) = Wrst hup.
Proof. unfold final_Loss. case_match; cbn; auto 10. Qed.

Lemma iteration_outcome_Count hup hup' :
  iteration_outcome hup hup' → Count hup' = Count hup.
Proof.
  intros [rp Hk| |Hu|rp Hu];
    rewrite ?(proj1 (record_rtt_fields _ _)); reflexivity.
Qed.

Lemma iteration_outcome_Snt hup hup' :
  iteration_outcome hup hup' → Snt hup' = fadd (Snt hup) (f_of_int 1).
Proof.
  intros [rp Hk| |Hu|rp Hu];
    rewrite ?(proj2 (proj2 (proj2 (proj2 (record_rtt_fields _ _))))); reflexivity.
Qed.

(** ** C8

    In the report of a run that returns without error the element at
    position [k] (from 0) has [Count = k + 1]: the list is strictly
    ascending by [Count], starts at 1 and has no gap.  Its length is at
    most [MaxHops] (a configuration has [MaxHops >= 0]).  This holds for
    the three run operations, for the concurrent one under every
    interleaving. *)
Theorem report_sorted v op dst w report w' :
  0 <= MaxHops (Tracer op) →
  returns v op dst w ((report, None), w') →
  (∀ (k : nat) h, Hups report !! k = Some h → Count h = Z.of_nat k + 1)
  ∧ Z.of_nat (length (Hups report)) <= MaxHops (Tracer op).
Proof.
  intros Hmax Hret.
  destruct (run_hops v op dst w report w' Hret) as (dstIP & routes & N & _ & HN & Hlen & Hres).
  split; [|lia].
  intros k h Hk.
  apply (result_of_invariant (fun _ hup => Count hup = Z.of_nat k + 1)
           (fun hup => Count hup = Z.of_nat k + 1) v op dstIP (discovered routes (Z.of_nat k + 1)) h);
    [| | |exact (Hres k h Hk)].
  - unfold discovered. case_match; reflexivity.
  - intros _ hup hup' Hc Ho. now rewrite (iteration_outcome_Count _ _ Ho).
  - intros hup Hc. now rewrite (proj1 (final_Loss_fields hup)).
Qed.

(** ** C2

    A hop reported with host ["???"] has [Loss = 1] and
    [Last = Avg = Best = Wrst = 0], whatever [Snt] and [LossPoint] have
    become: while the host is unknown no iteration touches these fields,
    and the final assignment of [Loss] is skipped for host ["???"].  This
    holds for the three run operations. *)
Theorem unknown_hop_reported v op dst w report w' h :
  returns v op dst w ((report, None), w') →
  h ∈ Hups report → Host h = "???" →
  Loss h = f_of_int 1 ∧ Last h = f_of_int 0 ∧ Avg h = f_of_int 0
  ∧ Best h = f_of_int 0 ∧ Wrst h = f_of_int 0.
Proof.
  intros Hret Hin Hunk.
  destruct (run_hops v op dst w report w' Hret) as (dstIP & routes & N & _ & _ & _ & Hres).
  apply list_elem_of_lookup in Hin as [k Hk].
  set (P := fun hup : MTRHup =>
              Host hup = "???" →
              Loss hup = f_of_int 1 ∧ Last hup = f_of_int 0 ∧ Avg hup = f_of_int 0
              ∧ Best hup = f_of_int 0 ∧ Wrst hup = f_of_int 0).
  apply (result_of_invariant (fun _ => P) P v op dstIP (discovered routes (Z.of_nat k + 1)) h); [| | |exact (Hres k h Hk)|exact Hunk].
  - unfold P, discovered. case_match; cbn; [|auto].
    intros Hh. now apply IP_String_known in Hh.
  - intros _ hup hup' HP Ho. unfold P in *. destruct Ho as [rp Hk'| |Hu|rp Hu].
    + rewrite (proj1 (proj2 (record_rtt_fields _ _))). cbn. contradiction.
    + cbn. exact HP.
    + cbn. exact HP.
    + rewrite (proj1 (proj2 (record_rtt_fields _ _))). cbn.
      intros Hh. now apply IP_String_known in Hh.
  - intros hup HP. unfold P in *. unfold final_Loss.
    destruct (negb (String.eqb (Host hup) "???")) eqn:Hk'; [|exact HP].
    apply Host_eqb_unknown in Hk'. cbn. contradiction.
Qed.

(** ** C10

    The float64 obtained by counting from 1: [n] increments of 1. *)
Definition count_up (n : nat) : float64 :=
  Nat.iter n (fun x => fadd x (f_of_int 1)) (f_of_int 1).

Lemma count_up_exact (n : Z) (k : nat) :
  exact_count n → Z.of_nat k + 1 <= n → count_up k = f_of_int (Z.of_nat k + 1).
Proof.
  intros Hn. induction k as [|k IH]; intros Hk; [reflexivity|].
  change (count_up (S k)) with (fadd (count_up k) (f_of_int 1)).
  rewrite IH by lia.
  rewrite (fadd_1 _ n) by (lia || assumption). f_equal. lia.
Qed.

(** Every iteration increments [Snt], whatever else it does: every
    reported hop has been counted [PingCount - 1] times from 1. *)
Lemma sent_counts_iterations v op dst w report w' h :
  returns v op dst w ((report, None), w') →
  h ∈ Hups report → Snt h = count_up (Z.to_nat (PingCount op - 1)).
Proof.
  intros Hret Hin.
  destruct (run_hops v op dst w report w' Hret) as (dstIP & routes & N & _ & _ & _ & Hres).
  apply list_elem_of_lookup in Hin as [k Hk].
  apply (result_of_invariant (fun n hup => Snt hup = count_up n)
           (fun hup => Snt hup = count_up (Z.to_nat (PingCount op - 1))) v op dstIP (discovered routes (Z.of_nat k + 1)) h);
    [| | |exact (Hres k h Hk)].
  - unfold discovered. case_match; reflexivity.
  - intros n hup hup' Hs Ho. rewrite (iteration_outcome_Snt _ _ Ho), Hs. reflexivity.
  - intros hup Hs. now rewrite (proj1 (proj2 (proj2 (proj2 (final_Loss_fields hup))))).
Qed.

(** C10.  For the three run operations and every reported hop, [Snt] is
    exactly [PingCount] when [PingCount >= 1] and the float64 counts that
    far exactly (binary64: [PingCount < 2^53]): [Snt] is 1 after
    discovery and every one of the [PingCount - 1] iterations increments
    it first, also an iteration that the cap [retryTime >= 4] ends before
    any probe. *)
Theorem sent_is_ping_count v op dst w report w' h :
  1 <= PingCount op → exact_count (PingCount op) →
  returns v op dst w ((report, None), w') →
  h ∈ Hups report → Snt h = f_of_int (PingCount op).
Proof.
  intros H1 Hex Hret Hin.
  rewrite (sent_counts_iterations v op dst w report w' h Hret Hin).
  rewrite (count_up_exact (PingCount op)) by (lia || assumption).
  f_equal. lia.
Qed.

(** ** C7, the part that holds in every arithmetic

    After discovery and after every update [Last] is neither below [Best]
    nor above [Wrst]: a successful probe assigns [Last = rtt], lowers
    [Best] to [rtt] if [Best > rtt] and raises [Wrst] to [rtt] if
    [Wrst < rtt]. *)
Lemma record_rtt_Last_between rp hup :
  flt (Last (record_rtt rp hup)) (Best (record_rtt rp hup)) = false
  ∧ flt (Wrst (record_rtt rp hup)) (Last (record_rtt rp hup)) = false.
Proof.
  unfold record_rtt. cbv zeta.
  destruct (flt (rtt_ms (RTT rp)) (Best (set_Avg _ (set_Last _ hup)))) eqn:Hb;
    (match goal with
     | |- context [if flt (Wrst ?x) ?r then _ else _] => destruct (flt (Wrst x) r) eqn:Hw
     end); cbn in *; rewrite ?flt_irrefl, ?Hb, ?Hw; auto.
Qed.

Lemma Last_between v op dst w report w' h :
  returns v op dst w ((report, None), w') →
  h ∈ Hups report →
  flt (Last h) (Best h) = false ∧ flt (Wrst h) (Last h) = false.
Proof.
  intros Hret Hin.
  destruct (run_hops v op dst w report w' Hret) as (dstIP & routes & N & _ & _ & _ & Hres).
  apply list_elem_of_lookup in Hin as [k Hk].
  set (P := fun hup : MTRHup =>
              flt (Last hup) (Best hup) = false ∧ flt (Wrst hup) (Last hup) = false).
  apply (result_of_invariant (fun _ => P) P v op dstIP (discovered routes (Z.of_nat k + 1)) h);
    [| | |exact (Hres k h Hk)].
  - unfold P, discovered. case_match; cbn; rewrite flt_irrefl; auto.
  - intros _ hup hup' HP Ho. unfold P in *.
    destruct Ho as [rp Hk'| |Hu|rp Hu]; try exact HP; apply record_rtt_Last_between.
  - intros hup HP. unfold P in *.
    destruct (final_Loss_fields hup) as (_ & _ & _ & _ & -> & _ & -> & ->). exact HP.
Qed.

(** ** C6: Branch B of [RunMTR], a reply to the destination-directed probe *)

Lemma host_in_table_true (hups : gmap Z MTRHup) ip :
  host_in_table hups ip = true ↔ ∃ k v, hups !! k = Some v ∧ Host v = ip.
Proof.
  unfold host_in_table. rewrite existsb_exists. split.
  - intros ([k v] & Hin & Heq). apply list_elem_of_In, elem_of_map_to_list in Hin.
    apply String.eqb_eq in Heq. eauto.
  - intros (k & v & Hl & Heq). exists (k, v). split.
    + now apply list_elem_of_In, elem_of_map_to_list.
    + now apply String.eqb_eq.
Qed.

(** C6.  A hop [i] with host ["???"] and [retryTime < 4] probes the
    destination with the hop's TTL and the timeout [to]; let the probe
    return the reply [rp].  In both cases [Snt] has been incremented and
    [retryTime] advances.

    - If the responder's address is the host of another hop of the table,
      the reply is not adopted: the host stays ["???"], [comeback] is
      unchanged (it is false while the host is unknown), [to] grows by one
      second if it was below five seconds, [LossPoint] grows by one.
    - If it is the host of no other hop, the hop enters comeback mode:
      [comeback = true], [workTimeout = to], the host becomes the
      responder's address and the statistics are updated from the reply
      ([record_rtt]). *)
Theorem comeback_duplicate_check op dstIP (hups : gmap Z MTRHup) i hup st w rp w1 :
  Host hup = "???" →
  retryTime st < 4 →
  ping (Tracer op) (IP_String dstIP) (Count hup) (to st) w = ((Some rp, None), w1) →
  ∃ hup' st',
    retry_iteration op dstIP (fun h => host_in_table (<[i := h]> hups)) hup st w
    = (hup', st', w1)
    ∧ Snt hup' = fadd (Snt hup) (f_of_int 1)
    ∧ retryTime st' = retryTime st + 1
    ∧ ((∃ k v, k ≠ i ∧ hups !! k = Some v ∧ Host v = IP_String (IP rp)) →
         Host hup' = "???"
         ∧ comeback st' = comeback st
         ∧ to st' = (if to st <? Second * 5 then to st + Second else to st)
         ∧ LossPoint hup' = LossPoint hup + 1)
    ∧ ((∀ k v, k ≠ i → hups !! k = Some v → Host v ≠ IP_String (IP rp)) →
         comeback st' = true
         ∧ workTimeout st' = to st
         ∧ Host hup' = IP_String (IP rp)
         ∧ hup' = record_rtt rp (set_Host (IP_String (IP rp)) (incr_Snt hup))
         ∧ Last hup' = rtt_ms (RTT rp)).
Proof.
  intros Hunk Hretry Hping.
  unfold retry_iteration. fold (incr_Snt hup).
  change (Host (incr_Snt hup)) with (Host hup).
  change (Count (incr_Snt hup)) with (Count hup).
  change (LossPoint (incr_Snt hup)) with (LossPoint hup).
  rewrite Hunk. cbn [String.eqb Ascii.eqb Bool.eqb negb andb].
  replace (retryTime st >=? 4) with false by (symmetry; rewrite Z.geb_leb; apply Z.leb_gt; lia).
  rewrite Hping.
  destruct (host_in_table (<[i := incr_Snt hup]> hups) (IP_String (IP rp))) eqn:Hscan; cbn [negb].
  - (* some hop of the table has this host: it is another hop *)
    eexists _, _. split; [reflexivity|]. split; [reflexivity|]. split; [reflexivity|].
    split.
    + intros _. cbn. auto.
    + intros Hnone. exfalso.
      apply host_in_table_true in Hscan as (k & v & Hl & Heq).
      destruct (decide (k = i)) as [->|Hne].
      * rewrite lookup_insert_eq in Hl. injection Hl as <-. cbn in Heq.
        rewrite Hunk in Heq. symmetry in Heq. now apply IP_String_known in Heq.
      * rewrite lookup_insert_ne in Hl by congruence. exact (Hnone k v Hne Hl Heq).
  - (* no hop of the table has this host *)
    eexists _, _. split; [reflexivity|].
    split; [now rewrite (proj2 (proj2 (proj2 (proj2 (record_rtt_fields _ _)))))|].
    split; [reflexivity|]. split.
    + intros (k & v & Hne & Hl & Heq). exfalso.
      assert (Ht : host_in_table (<[i := incr_Snt hup]> hups) (IP_String (IP rp)) = true).
      { apply host_in_table_true. exists k, v. now rewrite lookup_insert_ne by congruence. }
      congruence.
    + intros _. cbn [comeback workTimeout inc_retryTime enter_comeback].
      rewrite (proj1 (proj2 (record_rtt_fields _ _))), record_rtt_Last. cbn. auto.
Qed.

(** ** C5: unknown hops in [RunMTRWithNoRetryPing] *)

(** The inner loop has no [else] branch: for host ["???"] an iteration
    is [hup.Snt++] and nothing else, and no operation of the transport is
    called (the world is returned as it was). *)
Lemma noretry_iteration_unknown op hup w :
  Host hup = "???" → noretry_iteration op hup w = (incr_Snt hup, w).
Proof.
  intros Hunk. unfold noretry_iteration. fold (incr_Snt hup).
  change (Host (incr_Snt hup)) with (Host hup). now rewrite Hunk.
Qed.

Lemma noretry_step_LossPoint op hup st hup' st' :
  noretry_step op (hup, st) (hup', st') →
  (Host hup ≠ "???" ∧ Host hup' = Host hup)
  ∨ (Host hup = "???" ∧ Host hup' = "???" ∧ LossPoint hup' = LossPoint hup).
Proof.
  inversion 1 as [? ? w ? w' Hit]; subst.
  destruct (decide (Host hup = "???")) as [Hunk|Hk].
  - rewrite (noretry_iteration_unknown op hup w Hunk) in Hit.
    injection Hit as <- <-. right. auto.
  - left. split; [exact Hk|].
    unfold noretry_iteration in Hit. fold (incr_Snt hup) in Hit.
    change (Host (incr_Snt hup)) with (Host hup) in Hit.
    apply Host_eqb_unknown in Hk. rewrite Hk in Hit.
    destruct (ping _ _ _ _ w) as [[rp err] w1].
    destruct err as [e|]; [|destruct rp as [rp|]]; injection Hit as <- <-;
      rewrite ?(proj1 (proj2 (record_rtt_fields _ _))); reflexivity.
Qed.

(** C5, as the code has it.  In the no-retry operation every iteration
    on a hop with host ["???"] increments [Snt] only and performs no probe; at the end of the run
    such a hop has [Snt = PingCount] (for [PingCount >= 1] that the
    float64 counts exactly) and [LossPoint = 1], its value from the
    discovery. *)
Theorem noretry_unknown_hop op dst w report w' h :
  1 <= PingCount op → exact_count (PingCount op) →
  RunMTRWithNoRetryPing op dst w = Some ((report, None), w') →
  h ∈ Hups report → Host h = "???" →
  Snt h = f_of_int (PingCount op)
  ∧ LossPoint h = 1
  ∧ ∀ hup w0, Host hup = "???" → noretry_iteration op hup w0 = (incr_Snt hup, w0).
Proof.
  intros H1 Hex Hret Hin Hunk.
  split.
  { rewrite (sent_counts_iterations NoRetry op dst w report w' h Hret Hin).
    rewrite (count_up_exact (PingCount op)) by (lia || assumption).
    f_equal. lia. }
  split; [|intros hup w0; apply noretry_iteration_unknown].
  destruct (run_hops NoRetry op dst w report w' Hret)
    as (dstIP & routes & N & _ & _ & _ & Hres).
  apply list_elem_of_lookup in Hin as [k Hk].
  destruct (Hres k h Hk) as (hup & st & Hn & ->). cbn [step_of] in Hn.
  destruct (final_Loss_fields hup) as (_ & HH & HL & _). rewrite HH in Hunk. rewrite HL.
  set (P := fun (_ : nat) (a : MTRHup * retry_state) =>
              Host a.1 = "???" → LossPoint a.1 = 1).
  apply (nsteps_invariant _ P) in Hn; [exact (Hn Hunk)| |].
  - intros n [a sa] [b sb] Ha Hab. unfold P in *. cbn in *.
    destruct (noretry_step_LossPoint op _ _ _ _ Hab) as [[Hk' He]|(Hu & _ & Hl)].
    + intros Hb. congruence.
    + intros _. rewrite Hl. auto.
  - unfold P, discovered. cbn. case_match; cbn; [|auto].
    intros Hh. now apply IP_String_known in Hh.
Qed.

(** ** C9: the guard on [dst] *)

(** C9, as the code has it.  The three run operations start with
    [net.ParseIP(dst)].  When it
    returns nil the run returns the empty report and the error
    ["Unknown dest IP"] and the world is untouched: no operation of the
    transport has been called, the trace has not started.  Conversely a
    run that returns this error had a [dst] that [net.ParseIP] rejects.
    The guard is [net.ParseIP], which accepts IPv4 and IPv6 literals. *)
Theorem unknown_dest_guard v op dst w :
  (ParseIP dst = None →
     ∀ res, returns v op dst w res
            ↔ res = ((MTRReport_zero, Some (errors_New "Unknown dest IP")), w))
  ∧ (∀ report w',
       returns v op dst w ((report, Some (errors_New "Unknown dest IP")), w') →
       ParseIP dst = None).
Proof.
  split.
  - intros Hnone res.
    assert (Htp : trace_phase op dst w
                  = (inl (MTRReport_zero, errors_New "Unknown dest IP"), w)).
    { unfold trace_phase. now rewrite Hnone. }
    destruct v; cbn [returns].
    + unfold RunMTRWithNoRetryPing. rewrite Htp. split; congruence.
    + unfold RunMTR. rewrite Htp. split; congruence.
    + split.
      * inversion 1 as [rep err w1 Htp'|now dstIP hups w1 s l Htp']; subst; congruence.
      * intros ->. now constructor.
  - intros report w' Hret.
    assert (Hinl : ∃ w1, trace_phase op dst w
                         = (inl (report, errors_New "Unknown dest IP"), w1)).
    { destruct v; cbn [returns] in Hret.
      - unfold RunMTRWithNoRetryPing in Hret.
        destruct (trace_phase op dst w) as [[[rep err]|[[now dstIP] hups]] w1].
        + injection Hret as <- <- <-. eauto.
        + repeat case_match; discriminate.
      - unfold RunMTR in Hret.
        destruct (trace_phase op dst w) as [[[rep err]|[[now dstIP] hups]] w1].
        + injection Hret as <- <- <-. eauto.
        + repeat case_match; discriminate.
      - inversion Hret; subst; eauto. }
    destruct Hinl as [w1 Htp].
    destruct (trace_phase_inl _ _ _ _ _ _ Htp) as [(Hp & _)|(dstIP & e & _ & _ & He)];
      [exact Hp|discriminate].
Qed.

(** ** The run operations return

    The sequential operations never dereference a missing entry of the
    table.  Their inner loops end for every [PingCount] but the least
    [int], where [PingCount - 1] wraps around: for the other values every
    run returns a report (with or without an error). *)
Lemma sequential_returns (R : net_IP → MTRHup → MTRHup → Prop)
    (loop : net_IP → list Z → gmap Z MTRHup → World → option (gmap Z MTRHup * World))
    op dst w :
  (∀ dstIP ks hups w, NoDup ks → (∀ i, i ∈ ks → is_Some (hups !! i)) →
     match loop dstIP ks hups w with
     | Some (hups', _) => hups_done (R dstIP) ks hups hups'
     | None => ks ≠ [] ∧ rounds (PingCount op) = None
     end) →
  MinInt < PingCount op <= MaxInt →
  is_Some
    match trace_phase op dst w with
    | (inl (report, err), w) => Some ((report, Some err), w)
    | (inr (now, dstIP, hups), w) =>
        match loop dstIP (seqZ 1 (Z.of_nat (size hups))) hups w with
        | None => None
        | Some (hups', w) =>
            match collect hups' (Z.of_nat (size hups)) with
            | None => None
            | Some l => Some ((report_done op dst now l, @None error), w)
            end
        end
    end.
Proof.
  intros Hloop Hint.
  destruct (trace_phase op dst w) as [[[rep err]|[[now dstIP] hups]] w1] eqn:Htp; [eauto|].
  destruct (trace_phase_inr _ _ _ _ _ _ _ Htp) as [Hparse [routes ->]].
  destruct (discover_dense op dst dstIP routes) as (N & HN & Hsize & Ht).
  pose proof (sequential_runs_return (R dstIP) (loop dstIP) op dst routes N
                (discover op dst dstIP routes) now w1 (Hloop dstIP)
                ltac:(lia) Hsize Ht) as Hret.
  destruct (match loop dstIP _ _ w1 with Some _ => _ | None => _ end) as [res|]; [eauto|].
  destruct Hret as [_ Hr]. rewrite (rounds_int _ Hint) in Hr. discriminate.
Qed.

(** [RunMTR] returns on every input whose [PingCount] is not the least
    [int]. *)
Theorem RunMTR_returns op dst w :
  MinInt < PingCount op <= MaxInt → is_Some (RunMTR op dst w).
Proof.
  apply (sequential_returns (fun dstIP => result_of (retry_step op dstIP) op) (retry_hups op)).
  apply retry_hups_done.
Qed.

(** [RunMTRWithNoRetryPing] returns on every input whose [PingCount] is
    not the least [int]. *)
Theorem RunMTRWithNoRetryPing_returns op dst w :
  MinInt < PingCount op <= MaxInt → is_Some (RunMTRWithNoRetryPing op dst w).
Proof.
  apply (sequential_returns (fun _ => result_of (noretry_step op) op) (fun _ => noretry_hups op)).
  intros _. apply noretry_hups_done.
Qed.

(** The concurrent operation: one worker can always run to its end while
    the others wait, so the workers can finish one after the other and
    the run returns. *)
Lemma worker_runs_to_end op dstIP n :
  ∀ hups ws w i st hup,
    ws !! i = Some (Running n st) → hups !! i = Some hup →
    ∃ hup' w',
      rtc (conc_step op dstIP)
        {| c_hups := hups; c_workers := ws; c_world := w |}
        {| c_hups := <[i := hup']> hups; c_workers := <[i := Done]> ws; c_world := w' |}.
Proof.
  induction n as [|n IH]; intros hups ws w i st hup Hw Hh.
  - exists (final_Loss hup), w. apply rtc_once. now apply conc_finish with st.
  - destruct (retry_iteration op dstIP (fun _ _ => false) hup st w) as [[hup1 st1] w1] eqn:Hit.
    destruct (IH (<[i := hup1]> hups) (<[i := Running n st1]> ws) w1 i st1 hup1)
      as (hup' & w' & Hrtc); [apply lookup_insert_eq..|].
    rewrite !insert_insert_eq in Hrtc.
    exists hup', w'. eapply rtc_l; [|exact Hrtc].
    eapply conc_iteration; eauto.
Qed.

Lemma workers_run_to_end op dstIP n st0 (ks : list Z) :
  ∀ hups ws w,
    NoDup ks →
    (∀ i, i ∈ ks → ws !! i = Some (Running n st0) ∧ is_Some (hups !! i)) →
    ∃ hups' ws' w',
      rtc (conc_step op dstIP)
        {| c_hups := hups; c_workers := ws; c_world := w |}
        {| c_hups := hups'; c_workers := ws'; c_world := w' |}
      ∧ (∀ i, i ∈ ks → ws' !! i = Some Done ∧ is_Some (hups' !! i))
      ∧ (∀ i, i ∉ ks → ws' !! i = ws !! i).
Proof.
  induction ks as [|i ks IH]; intros hups ws w Hnd Hks.
  - exists hups, ws, w. split; [apply rtc_refl|]. split; [|auto].
    intros i Hi. now apply not_elem_of_nil in Hi.
  - apply NoDup_cons in Hnd as [Hi Hnd].
    destruct (Hks i) as [Hw [hup Hh]]; [left|].
    destruct (worker_runs_to_end op dstIP n hups ws w i st0 hup Hw Hh) as (hup' & w1 & H1).
    destruct (IH (<[i := hup']> hups) (<[i := Done]> ws) w1 Hnd) as (hups' & ws' & w' & H2 & Hin & Hout).
    { intros j Hj. assert (j ≠ i) by (intros ->; contradiction).
      rewrite !lookup_insert_ne by congruence. apply Hks. now right. }
    exists hups', ws', w'. split; [etrans; eauto|]. split.
    + intros j Hj. apply elem_of_cons in Hj as [->|Hj]; [|now apply Hin].
      rewrite (Hout i Hi), lookup_insert_eq. split; [reflexivity|].
      (* the record of [i] is no longer touched *)
      clear -H2 Hi. 
      assert (Hkeep : ∀ s s', rtc (conc_step op dstIP) s s' →
                is_Some (c_hups s !! i) → is_Some (c_hups s' !! i)).
      { induction 1 as [|s1 s2 s3 Hs _ IH']; [auto|]. intros Hsome. apply IH'.
        destruct Hs; cbn in *;
          (destruct (decide (i0 = i)) as [->|];
           [rewrite lookup_insert_eq; eauto | now rewrite lookup_insert_ne by congruence]). }
      apply (Hkeep _ _ H2). cbn. rewrite lookup_insert_eq. eauto.
    + intros j Hj. apply not_elem_of_cons in Hj as [Hji Hj].
      rewrite (Hout j Hj). now rewrite lookup_insert_ne by congruence.
Qed.

(** [RunMTRWithCocurrentPing] has a result on every input whose
    [PingCount] is not the least [int]: the guard or the trace fails, or
    the workers finish and the report is collected. *)
Theorem RunMTRWithCocurrentPing_returns op dst w :
  MinInt < PingCount op <= MaxInt →
  ∃ res, RunMTRWithCocurrentPing op dst w res.
Proof.
  intros Hint.
  destruct (trace_phase op dst w) as [[[rep err]|[[now dstIP] hups]] w1] eqn:Htp.
  { eexists. eapply Cocurrent_early. exact Htp. }
  destruct (trace_phase_inr _ _ _ _ _ _ _ Htp) as [Hparse [routes ->]].
  destruct (discover_dense op dst dstIP routes) as (N & HN & Hsize & Ht).
  set (hups0 := discover op dst dstIP routes) in *.
  destruct (workers_run_to_end op dstIP (Z.to_nat (PingCount op - 1)) (retry_start op)
              (seqZ 1 N) hups0 (c_workers (conc_start op hups0 w1)) w1)
    as (hups' & ws' & w' & Hrtc & Hin & Hout).
  { apply NoDup_seqZ. }
  { intros i Hi. split.
    - cbn. apply lookup_gset_to_gmap_Some. split.
      + apply elem_of_list_to_set. now rewrite Hsize.
      + unfold worker_start. now rewrite (rounds_int _ Hint).
    - apply elem_of_seqZ in Hi. rewrite Ht, decide_True by lia. eauto. }
  destruct (collect_is_Some hups' N) as [l Hl].
  { intros i Hi. apply Hin, elem_of_seqZ. lia. }
  eexists. eapply (Cocurrent_report op dst w now dstIP hups0 w1
                     {| c_hups := hups'; c_workers := ws'; c_world := w' |} l).
  - exact Htp.
  - exact Hrtc.
  - intros i wk Hwk. cbn in Hwk.
    destruct (decide (i ∈ seqZ 1 N)) as [Hi|Hi].
    + destruct (Hin i Hi) as [Hd _]. congruence.
    + rewrite (Hout i Hi) in Hwk. cbn in Hwk.
      apply lookup_gset_to_gmap_Some in Hwk as [Hi' _].
      apply elem_of_list_to_set in Hi'. rewrite Hsize in Hi'. contradiction.
  - cbn. now rewrite Hsize.
Qed.

(* ===================================================================== *)
(** * Further properties of the run operations *)
(* ===================================================================== *)

(** ** The trace and its callback *)

(** The table [routes] the callback of [Tracer.Trace] has filled when the
    trace has delivered [replies], and the world after its log lines. *)
Definition routes_of (replies : list Reply) (w : World) : gmap Z Reply :=
  (fold_left on_reply replies (∅, w)).1.

Definition world_after_trace (replies : list Reply) (w : World) : World :=
  (fold_left on_reply replies (∅, w)).2.

Lemma on_reply_fold_lookup (replies : list Reply) :
  ∀ routes w k,
    (fold_left on_reply replies (routes, w)).1 !! k
    = match routes !! k with
      | Some r => Some r
      | None => head (filter (fun r => Hops r = k) replies)
      end.
Proof.
  induction replies as [|r replies IH]; intros routes w k; cbn [fold_left].
  - cbn. now destruct (routes !! k).
  - unfold on_reply at 2. destruct (routes !! Hops r) as [ex|] eqn:Hex.
    + rewrite IH. destruct (routes !! k) as [r'|] eqn:Hk; [reflexivity|].
      rewrite filter_cons_False; [reflexivity|]. intros Heq. congruence.
    + rewrite IH. destruct (decide (Hops r = k)) as [Heq|Hne].
      * subst k. rewrite lookup_insert_eq, Hex. now rewrite filter_cons_True.
      * rewrite lookup_insert_ne by exact Hne.
        now rewrite filter_cons_False.
Qed.

(** The first reply of a TTL is the one that is kept: [routes[k]] is the
    first of the replies whose [Hops] is [k], and there is none exactly
    when no reply has this TTL. *)
Lemma first_reply_lookup (replies : list Reply) (w : World) (k : Z) :
  routes_of replies w !! k = head (filter (fun r => Hops r = k) replies).
Proof. unfold routes_of. rewrite on_reply_fold_lookup. now rewrite lookup_empty. Qed.

(** The trace phase, by its three results. *)
Lemma trace_phase_report op dst w now dstIP hups w1 :
  trace_phase op dst w = (inr (now, dstIP, hups), w1) →
  ∃ replies w0,
    ParseIP dst = Some dstIP
    ∧ Tracer_Trace (Tracer op) w dstIP = ((replies, None), w0)
    ∧ w1 = world_after_trace replies w0
    ∧ now = time_Now_Unix w1
    ∧ hups = discover op dst dstIP (routes_of replies w0).
Proof.
  unfold trace_phase, world_after_trace, routes_of.
  destruct (ParseIP dst) as [ip|]; [|discriminate].
  destruct (Tracer_Trace _ w ip) as [[replies err] w2] eqn:Ht.
  destruct (fold_left on_reply replies (∅, w2)) as [routes w3] eqn:Hf.
  destruct err; [discriminate|]. intros [= <- <- <- <-].
  exists replies, w2. rewrite Hf. cbn. repeat split. exact Ht.
Qed.

(** A run that returns a report has passed the trace phase; its hops
    come from the table of the discovery. *)
Lemma returns_report v op dst w report w' :
  returns v op dst w ((report, None), w') →
  ∃ now dstIP hups w1,
    trace_phase op dst w = (inr (now, dstIP, hups), w1)
    ∧ report = report_done op dst now (Hups report)
    ∧ hops_from (result_of (step_of v op dstIP) op) hups (Hups report).
Proof.
  intros Hret.
  assert (Hseq : ∀ (R : MTRHup → MTRHup → Prop)
              (loop : list Z → gmap Z MTRHup → World → option (gmap Z MTRHup * World))
              now dstIP routes w1,
            (∀ ks hups w, NoDup ks → (∀ i, i ∈ ks → is_Some (hups !! i)) →
               match loop ks hups w with
               | Some (hups', _) => hups_done R ks hups hups'
               | None => ks ≠ [] ∧ rounds (PingCount op) = None
               end) →
            match loop (seqZ 1 (Z.of_nat (size (discover op dst dstIP routes))))
                    (discover op dst dstIP routes) w1 with
            | None => None
            | Some (hups', w) =>
                match collect hups' (Z.of_nat (size (discover op dst dstIP routes))) with
                | None => None
                | Some l => Some ((report_done op dst now l, @None error), w)
                end
            end = Some ((report, None), w') →
            report = report_done op dst now (Hups report)
            ∧ hops_from R (discover op dst dstIP routes) (Hups report)).
  { intros R loop now dstIP routes w1 Hloop Hrun.
    destruct (discover_dense op dst dstIP routes) as (N & HN & Hsize & Ht).
    pose proof (sequential_runs_return R loop op dst routes N
                  (discover op dst dstIP routes) now w1 Hloop
                  ltac:(lia) Hsize Ht) as Hres.
    rewrite Hrun in Hres. destruct Hres as (l & w2 & [= -> ->] & Hh). cbn. auto. }
  destruct v; cbn [returns step_of] in *.
  - unfold RunMTRWithNoRetryPing in Hret.
    destruct (trace_phase op dst w) as [[[rep err]|[[now dstIP] hups]] w1] eqn:Htp;
      [discriminate|].
    destruct (trace_phase_inr _ _ _ _ _ _ _ Htp) as [_ [routes ->]].
    exists now, dstIP, (discover op dst dstIP routes), w1. split; [reflexivity|].
    apply (Hseq _ (noretry_hups op) now dstIP routes w1); [apply noretry_hups_done|exact Hret].
  - unfold RunMTR in Hret.
    destruct (trace_phase op dst w) as [[[rep err]|[[now dstIP] hups]] w1] eqn:Htp;
      [discriminate|].
    destruct (trace_phase_inr _ _ _ _ _ _ _ Htp) as [_ [routes ->]].
    exists now, dstIP, (discover op dst dstIP routes), w1. split; [reflexivity|].
    apply (Hseq _ (retry_hups op dstIP) now dstIP routes w1); [apply retry_hups_done|exact Hret].
  - inversion Hret as [|now dstIP hups w1 s l Htp Hrtc Hdone Hc]; subst.
    exists now, dstIP, hups, w1. split; [exact Htp|]. split; [reflexivity|].
    destruct (trace_phase_inr _ _ _ _ _ _ _ Htp) as [_ [routes ->]].
    destruct (discover_dense op dst dstIP routes) as (N & HN & Hsize & Ht).
    cbn [Hups report_done]. rewrite Hsize in Hc.
    eapply hops_from_conc; eauto; [lia|].
    eapply conc_inv_rtc; [|exact Hrtc].
    apply conc_inv_start; [exact Hsize|].
    intros i Hi. rewrite Ht, decide_True by lia. eauto.
Qed.

(** ** The report of a run *)

(** When the trace fails, the three run operations return at once: the
    report carries [Src], [Dst] and [Count] but no time stamp and no hop,
    the error is the error of the trace, and the world is the one the
    callback has left: no probe has been sent. *)
Theorem trace_error_report v op dst w dstIP replies e w0 res :
  ParseIP dst = Some dstIP →
  Tracer_Trace (Tracer op) w dstIP = ((replies, Some e), w0) →
  returns v op dst w res
  ↔ res = ((report_start op dst, Some (library_error e)), world_after_trace replies w0).
Proof.
  intros Hparse Htrace.
  assert (Htp : trace_phase op dst w
                = (inl (report_start op dst, library_error e), world_after_trace replies w0)).
  { unfold trace_phase, world_after_trace. rewrite Hparse, Htrace.
    now destruct (fold_left on_reply replies (∅, w0)). }
  destruct v; cbn [returns].
  - unfold RunMTRWithNoRetryPing. rewrite Htp. split; congruence.
  - unfold RunMTR. rewrite Htp. split; congruence.
  - split.
    + inversion 1 as [rep err w1 Htp'|now ip hups w1 s l Htp']; subst; congruence.
    + intros ->. now constructor.
Qed.

(** The header of a report that is returned without error: [Src] is the
    printed source address, [Dst] is the argument as it was given,
    [Count] is [PingCount], and [Time] is the clock when the trace has
    ended, before the first probe. *)
Theorem report_header v op dst w report w' :
  returns v op dst w ((report, None), w') →
  ∃ dstIP replies w0,
    ParseIP dst = Some dstIP
    ∧ Tracer_Trace (Tracer op) w dstIP = ((replies, None), w0)
    ∧ Time report = time_Now_Unix (world_after_trace replies w0)
    ∧ Src report = IP_String (Addr (Tracer op))
    ∧ Dst report = dst
    ∧ RCount report = PingCount op.
Proof.
  intros Hret.
  destruct (returns_report v op dst w report w' Hret)
    as (now & dstIP & hups & w1 & Htp & Hrep & _).
  destruct (trace_phase_report _ _ _ _ _ _ _ Htp)
    as (replies & w0 & Hparse & Htrace & -> & -> & _).
  exists dstIP, replies, w0. rewrite Hrep. cbn. auto 10.
Qed.

(** [NewOPMTR] followed by a run: the constructor succeeds only for a
    source that [net.ParseIP] accepts, and the report of a run of the
    value it returns carries the printed form of that address, the
    [count] given to the constructor, and at most [maxHops] hops. *)
Theorem NewOPMTR_run v src maxHops count maxUnknowns timeout op err dst w report w' :
  NewOPMTR src maxHops count maxUnknowns timeout = (Some op, err) →
  returns v op dst w ((report, None), w') →
  ∃ srcIP,
    ParseIP src = Some srcIP ∧ err = None
    ∧ Src report = IP_String srcIP
    ∧ RCount report = count
    ∧ Z.of_nat (length (Hups report)) <= Z.max 0 maxHops.
Proof.
  unfold NewOPMTR. destruct (ParseIP src) as [srcIP|]; [|discriminate].
  intros [= <- <-] Hret. exists srcIP.
  destruct (run_structure v _ dst w report w' Hret) as (now & dstIP & routes & _ & Hrep & Hlen & _).
  destruct (discover_dense {| Tracer := {| Delay := 10 * 1000000; Timeout := timeout;
                                           MaxHops := maxHops; CCount := 1;
                                           Networks := ["ip4:icmp"]; Addr := srcIP |};
                              MaxUnknowns := maxUnknowns; PingCount := count |}
              dst dstIP routes) as (N & HN & Hsize & _).
  rewrite Hrep at 1 2. cbn in *. repeat split; lia.
Qed.

(** The hops of a report against the replies of the trace. *)
Lemma run_hops_trace v op dst w report w' :
  returns v op dst w ((report, None), w') →
  ∃ dstIP replies w0,
    ParseIP dst = Some dstIP
    ∧ Tracer_Trace (Tracer op) w dstIP = ((replies, None), w0)
    ∧ ∀ (k : nat) h, Hups report !! k = Some h →
        result_of (step_of v op dstIP) op
          (discovered (routes_of replies w0) (Z.of_nat k + 1)) h.
Proof.
  intros Hret.
  destruct (returns_report v op dst w report w' Hret)
    as (now & dstIP & hups & w1 & Htp & _ & _ & Hhops).
  destruct (trace_phase_report _ _ _ _ _ _ _ Htp)
    as (replies & w0 & Hparse & Htrace & _ & _ & ->).
  exists dstIP, replies, w0. split; [exact Hparse|]. split; [exact Htrace|].
  intros k h Hk. destruct (Hhops k h Hk) as (h0 & Hh0 & Hres).
  destruct (discover_dense op dst dstIP (routes_of replies w0)) as (N & HN & Hsize & Ht).
  rewrite Ht in Hh0. case_decide; [|discriminate]. now injection Hh0 as <-.
Qed.

(** ** The counter of lost probes *)

Lemma iteration_outcome_LossPoint hup hup' :
  iteration_outcome hup hup' →
  (LossPoint hup' = LossPoint hup ∨ LossPoint hup' = LossPoint hup + 1)
  ∧ (Host hup' = "???" → Host hup = "???").
Proof.
  intros [rp Hk| |Hu|rp Hu];
    rewrite ?(proj1 (proj2 (proj2 (proj2 (record_rtt_fields _ _))))),
            ?(proj1 (proj2 (record_rtt_fields _ _))); cbn; auto.
Qed.

(** [LossPoint] counts at most one loss per probe: for every reported
    hop it lies between 0 and [PingCount] (between 0 and 1 when
    [PingCount < 1]), and it is at least 1, the miss of the discovery, for
    a hop reported as ["???"]. *)
Theorem lost_bounds v op dst w report w' h :
  returns v op dst w ((report, None), w') →
  h ∈ Hups report →
  0 <= LossPoint h <= Z.max 1 (PingCount op)
  ∧ (Host h = "???" → 1 <= LossPoint h).
Proof.
  intros Hret Hin.
  destruct (run_hops v op dst w report w' Hret) as (dstIP & routes & N & _ & _ & _ & Hres).
  apply list_elem_of_lookup in Hin as [k Hk].
  apply (result_of_invariant
           (fun n hup => 0 <= LossPoint hup <= Z.of_nat n + 1
                         ∧ (Host hup = "???" → 1 <= LossPoint hup))
           (fun hup => 0 <= LossPoint hup <= Z.max 1 (PingCount op)
                       ∧ (Host hup = "???" → 1 <= LossPoint hup))
           v op dstIP (discovered routes (Z.of_nat k + 1)) h);
    [| | |exact (Hres k h Hk)].
  - unfold discovered. case_match; cbn; split; try lia.
    intros Hh. now apply IP_String_known in Hh.
  - intros n hup hup' [Hb Hu] Ho.
    destruct (iteration_outcome_LossPoint _ _ Ho) as [[Hl|Hl] Hh]; rewrite Hl; split; try lia.
    intros Hh'. apply Hu, Hh, Hh'.
  - intros hup [Hb Hu].
    destruct (final_Loss_fields hup) as (_ & -> & -> & _). split; [lia|exact Hu].
Qed.

(** For a hop with a known host the reported [Loss] is the quotient of
    the two counters at the end of the run, [LossPoint / Snt], and [Snt]
    is [PingCount] when the float64 counts that far: the reported loss is
    the number of lost probes over [PingCount]. *)
Theorem known_hop_loss v op dst w report w' h :
  1 <= PingCount op → exact_count (PingCount op) →
  returns v op dst w ((report, None), w') →
  h ∈ Hups report → Host h ≠ "???" →
  Loss h = fdiv (f_of_int (LossPoint h)) (Snt h)
  ∧ Loss h = fdiv (f_of_int (LossPoint h)) (f_of_int (PingCount op)).
Proof.
  intros H1 Hex Hret Hin Hknown.
  assert (HS : Snt h = f_of_int (PingCount op)).
  { rewrite (sent_counts_iterations v op dst w report w' h Hret Hin).
    rewrite (count_up_exact (PingCount op)) by (lia || assumption).
    f_equal. lia. }
  rewrite <- HS.
  enough (HL : Loss h = fdiv (f_of_int (LossPoint h)) (Snt h)) by (split; exact HL).
  destruct (run_hops v op dst w report w' Hret) as (dstIP & routes & N & _ & _ & _ & Hres).
  apply list_elem_of_lookup in Hin as [k Hk].
  destruct (Hres k h Hk) as (hup & st & _ & ->).
  destruct (final_Loss_fields hup) as (_ & HH & _). rewrite HH in Hknown.
  unfold final_Loss. apply Host_eqb_unknown in Hknown. rewrite Hknown. reflexivity.
Qed.

(** An iteration of the retrying loop that leaves the host unknown: the
    hop was unknown, and either the cap [retryTime >= 4] has skipped the
    probe or the probe was counted as lost and as one more retry. *)
Lemma retry_iteration_stays_unknown op dstIP scan hup st w hup' st' w' :
  retry_iteration op dstIP scan hup st w = (hup', st', w') →
  Host hup' = "???" →
  Host hup = "???"
  ∧ ((4 <= retryTime st ∧ LossPoint hup' = LossPoint hup ∧ st' = st)
     ∨ (retryTime st < 4 ∧ LossPoint hup' = LossPoint hup + 1
        ∧ retryTime st' = retryTime st + 1)).
Proof.
  unfold retry_iteration. fold (incr_Snt hup).
  change (Host (incr_Snt hup)) with (Host hup).
  change (Count (incr_Snt hup)) with (Count hup).
  change (LossPoint (incr_Snt hup)) with (LossPoint hup).
  destruct (negb (String.eqb (Host hup) "???")) eqn:Hk.
  - apply Host_eqb_unknown in Hk.
    destruct (if comeback st then _ else _) as [[rp err] w1].
    destruct err as [e|]; [|destruct rp as [rp|]]; intros [= <- <- <-];
      rewrite ?(proj1 (proj2 (record_rtt_fields _ _))); cbn; intros Hh; contradiction.
  - apply negb_false_iff, String.eqb_eq in Hk. split; [exact Hk|].
    destruct (retryTime st >=? 4) eqn:Hcap.
    { injection H as <- <- <-. left. cbn. split; [lia|auto]. }
    right. split; [lia|].
    destruct (ping _ _ _ _ w) as [[rp err] w1].
    destruct err as [e|]; [|destruct rp as [rp|]];
      try destruct (negb (scan _ _)); injection H as <- <- <-; cbn; auto.
    exfalso. rewrite (proj1 (proj2 (record_rtt_fields _ _))) in H0. cbn in H0.
    now apply IP_String_known in H0.
Qed.

(** In the two retrying operations a hop that is reported as ["???"] has
    been probed on each of its first four iterations and not after: its
    [LossPoint] is 1, the miss of the discovery, plus the smaller of 4 and
    the number of iterations. *)
Theorem unknown_hop_retries v op dst w report w' h :
  v ≠ NoRetry →
  returns v op dst w ((report, None), w') →
  h ∈ Hups report → Host h = "???" →
  LossPoint h = 1 + Z.min 4 (Z.max 0 (PingCount op - 1)).
Proof.
  intros Hv Hret Hin Hunk.
  destruct (run_hops v op dst w report w' Hret) as (dstIP & routes & N & _ & _ & _ & Hres).
  apply list_elem_of_lookup in Hin as [k Hk].
  destruct (Hres k h Hk) as (hup & st & Hn & ->).
  assert (Hn' : nsteps (retry_step op dstIP) (Z.to_nat (PingCount op - 1))
                  (discovered routes (Z.of_nat k + 1), retry_start op) (hup, st))
    by (destruct v; [contradiction|exact Hn|exact Hn]).
  destruct (final_Loss_fields hup) as (_ & HH & HL & _). rewrite HH in Hunk. rewrite HL.
  set (P := fun (n : nat) (a : MTRHup * retry_state) =>
              Host a.1 = "???" →
              retryTime a.2 = Z.min 4 (Z.of_nat n) ∧ LossPoint a.1 = 1 + Z.min 4 (Z.of_nat n)).
  apply (nsteps_invariant _ P) in Hn'.
  - destruct (Hn' Hunk) as [_ Hl]. cbn [fst snd] in Hl. rewrite Hl. f_equal. lia.
  - intros n [a sa] [b sb] Ha Hab Hb. unfold P in *. cbn [fst snd] in *.
    inversion Hab as [scan ? ? w0 ? ? w1 Hit]; subst.
    destruct (retry_iteration_stays_unknown _ _ _ _ _ _ _ _ _ Hit Hb)
      as [Hu [(Hcap & Hl & ->)|(Hcap & Hl & Hr)]];
      destruct (Ha Hu) as [Hrt Hlp]; lia.
  - unfold P, discovered. cbn [fst snd]. case_match; cbn [Host LossPoint retry_start retryTime];
      [|intros _; lia].
    intros Hh. now apply IP_String_known in Hh.
Qed.

(** ** The hosts of the report *)

(** A hop that answered the trace is reported under the address of the
    first reply of the trace for its TTL, whatever answers the later
    probes; in the no-retry operation a hop that did not answer the trace
    is reported as ["???"]. *)
Theorem traced_hop_host v op dst w report w' :
  returns v op dst w ((report, None), w') →
  ∃ dstIP replies w0,
    ParseIP dst = Some dstIP
    ∧ Tracer_Trace (Tracer op) w dstIP = ((replies, None), w0)
    ∧ ∀ (k : nat) h, Hups report !! k = Some h →
        match head (filter (fun r => Hops r = Z.of_nat k + 1) replies) with
        | Some r => Host h = IP_String (IP r)
        | None => v = NoRetry → Host h = "???"
        end.
Proof.
  intros Hret.
  destruct (run_hops_trace v op dst w report w' Hret)
    as (dstIP & replies & w0 & Hparse & Htrace & Hres).
  exists dstIP, replies, w0. split; [exact Hparse|]. split; [exact Htrace|].
  intros k h Hk. specialize (Hres k h Hk).
  rewrite <- (first_reply_lookup replies w0).
  unfold discovered in Hres.
  destruct (routes_of replies w0 !! (Z.of_nat k + 1)) as [r|] eqn:Hr.
  - apply (result_of_invariant (fun _ hup => Host hup = IP_String (IP r))
             (fun hup => Host hup = IP_String (IP r)) v op dstIP (known_hup (Z.of_nat k + 1) r) h);
      [| | |exact Hres].
    + reflexivity.
    + intros _ hup hup' Hh Ho.
      assert (Hknown : Host hup ≠ "???") by (rewrite Hh; apply IP_String_known).
      destruct Ho as [rp Hk'| |Hu|rp Hu];
        rewrite ?(proj1 (proj2 (record_rtt_fields _ _))); cbn; (exact Hh || contradiction).
    + intros hup Hh. now rewrite (proj1 (proj2 (final_Loss_fields hup))).
  - intros ->. destruct Hres as (hup & st & Hn & ->). cbn [step_of] in Hn.
    rewrite (proj1 (proj2 (final_Loss_fields hup))).
    apply (nsteps_invariant _ (fun _ a => Host a.1 = "???")) in Hn; [exact Hn| |reflexivity].
    intros n [a sa] [b sb] Ha Hab. cbn in *.
    destruct (noretry_step_LossPoint op _ _ _ _ Hab) as [[Hk' _]|(_ & Hb & _)];
      [contradiction|exact Hb].
Qed.

(** The callback keeps the first reply of a TTL: [routes[k]] is a reply
    with [Hops = k] that no reply with this TTL precedes in the order of
    delivery, and [k] is absent from [routes] only when no reply has this
    TTL.  A later reply for the same TTL never replaces it. *)
Theorem first_reply_wins (replies : list Reply) (w : World) (k : Z) :
  match routes_of replies w !! k with
  | Some r =>
      ∃ before after,
        replies = (before ++ r :: after)%list ∧ Hops r = k
        ∧ Forall (fun r' => Hops r' ≠ k) before
  | None => Forall (fun r => Hops r ≠ k) replies
  end.
Proof.
  rewrite first_reply_lookup.
  destruct (head (filter (fun r => Hops r = k) replies)) as [r|] eqn:Hhead.
  - destruct (head_filter_Some _ _ _ Hhead) as (before & after & -> & Hbefore).
    exists before, after. split; [reflexivity|]. split; [|exact Hbefore].
    apply head_Some_elem_of, list_elem_of_filter in Hhead. tauto.
  - apply head_None in Hhead. apply Forall_forall. intros r Hr Hk.
    exact (filter_nil_not_elem_of _ _ _ Hhead Hk Hr).
Qed.

(** ** The limits of the configuration *)

(** The hops of a report against the walk of the discovery. *)
Lemma run_walk v op dst w report w' :
  returns v op dst w ((report, None), w') →
  ∃ dstIP replies w0 N,
    ParseIP dst = Some dstIP
    ∧ Tracer_Trace (Tracer op) w dstIP = ((replies, None), w0)
    ∧ Z.of_nat (length (Hups report)) = N
    ∧ 0 <= N <= Z.max 0 (MaxHops (Tracer op))
    ∧ (∀ i, 1 <= i < N → ¬ stops op dst dstIP (routes_of replies w0) i)
    ∧ (N < MaxHops (Tracer op) → 1 <= N ∧ stops op dst dstIP (routes_of replies w0) N)
    ∧ ∀ (k : nat) h, Hups report !! k = Some h →
        result_of (step_of v op dstIP) op
          (discovered (routes_of replies w0) (Z.of_nat k + 1)) h.
Proof.
  intros Hret.
  destruct (returns_report v op dst w report w' Hret)
    as (now & dstIP & hups & w1 & Htp & _ & Hlen & Hhops).
  destruct (trace_phase_report _ _ _ _ _ _ _ Htp)
    as (replies & w0 & Hparse & Htrace & _ & _ & ->).
  destruct (discover_stops op dst dstIP (routes_of replies w0))
    as (N & HN & Ht & Hbefore & Hat).
  exists dstIP, replies, w0, N.
  split; [exact Hparse|]. split; [exact Htrace|].
  split; [rewrite Hlen, (table_upto_size _ N _ (proj1 HN) Ht); lia|].
  split; [exact HN|]. split; [exact Hbefore|]. split; [exact Hat|].
  intros k h Hk. destruct (Hhops k h Hk) as (h0 & Hh0 & Hres).
  rewrite Ht in Hh0. case_decide; [|discriminate]. now injection Hh0 as <-.
Qed.

Lemma unknown_run_nonneg routes n : 0 <= unknown_run routes n.
Proof. induction n as [|n IH]; cbn [unknown_run]; [lia|]. case_match; lia. Qed.

(** With [MaxHops <= 0] the walk does not start and the report has no
    hop; with [MaxUnknowns <= 0] the test [unknownCount >= MaxUnknowns]
    holds after the first TTL, answered or not, and the report has
    exactly one hop. *)
Theorem degenerate_limits v op dst w report w' :
  returns v op dst w ((report, None), w') →
  (MaxHops (Tracer op) <= 0 → Hups report = [])
  ∧ (1 <= MaxHops (Tracer op) → MaxUnknowns op <= 0 → length (Hups report) = 1%nat).
Proof.
  intros Hret.
  destruct (run_walk v op dst w report w' Hret)
    as (dstIP & replies & w0 & N & _ & _ & Hlen & HN & Hbefore & Hat & _).
  split.
  - intros Hmax. apply length_zero_iff_nil. lia.
  - intros Hmax Hunk.
    assert (H1 : 1 <= N) by (destruct (Z_lt_le_dec N (MaxHops (Tracer op))) as [Hlt|Hge];
                             [apply Hat, Hlt|lia]).
    destruct (Z_le_gt_dec N 1) as [Hle|Hgt]; [lia|].
    exfalso. apply (Hbefore 1); [lia|].
    right; left. pose proof (unknown_run_nonneg (routes_of replies w0) (Z.to_nat 1)). lia.
Qed.

(** ** A run without probes *)

Lemma final_Loss_discovered routes i : final_Loss (discovered routes i) = discovered routes i.
Proof.
  unfold final_Loss, discovered. destruct (routes !! i) as [r|]; cbn.
  - destruct (negb (String.eqb (IP_String (IP r)) "???")); [|reflexivity].
    unfold compute_Loss, set_Loss; cbn. now rewrite fdiv_0_1.
  - reflexivity.
Qed.

Lemma retry_hups_idle op dstIP ks :
  PingCount op <= 1 →
  ∀ hups w hups' w', retry_hups op dstIP ks hups w = Some (hups', w') → w' = w.
Proof.
  intros Hpc.
  induction ks as [|i ks IH]; intros hups w hups' w'; cbn [retry_hups].
  - now intros [= _ <-].
  - destruct (hups !! i) as [hup|]; [|discriminate].
    destruct (rounds (PingCount op)) as [n|] eqn:Hn; [|discriminate].
    apply rounds_Some in Hn. replace n with O by lia. cbn [retry_loop]. apply IH.
Qed.

Lemma noretry_hups_idle op ks :
  PingCount op <= 1 →
  ∀ hups w hups' w', noretry_hups op ks hups w = Some (hups', w') → w' = w.
Proof.
  intros Hpc.
  induction ks as [|i ks IH]; intros hups w hups' w'; cbn [noretry_hups].
  - now intros [= _ <-].
  - destruct (hups !! i) as [hup|]; [|discriminate].
    destruct (rounds (PingCount op)) as [n|] eqn:Hn; [|discriminate].
    apply rounds_Some in Hn. replace n with O by lia. cbn [noretry_loop]. apply IH.
Qed.

(** A worker whose loop has no end is never done. *)
Lemma endless_stays op dstIP s s' i :
  rtc (conc_step op dstIP) s s' →
  (∃ st, c_workers s !! i = Some (Endless st)) →
  ∃ st, c_workers s' !! i = Some (Endless st).
Proof.
  induction 1 as [|s1 s2 s3 Hstep _ IH]; intros [st0 Hend]; [eauto|].
  apply IH.
  destruct Hstep as [hups ws w j n st hup scan hup' st' w1 Hw Hh Hit
                    |hups ws w j st hup scan hup' st' w1 Hw Hh Hit
                    |hups ws w j st hup Hw Hh];
    cbn in *; (destruct (decide (i = j)) as [->|Hne];
               [rewrite lookup_insert_eq; rewrite Hw in Hend; try discriminate; eauto
               |rewrite lookup_insert_ne by congruence; eauto]).
Qed.

Lemma conc_idle op dstIP s s' :
  rtc (conc_step op dstIP) s s' →
  (∀ i wk, c_workers s !! i = Some wk → wk = Done ∨ ∃ st, wk = Running O st) →
  c_world s' = c_world s.
Proof.
  induction 1 as [|s1 s2 s3 Hstep _ IH]; intros Hidle; [reflexivity|].
  destruct Hstep as [hups ws w i n st hup scan hup' st' w1 Hw Hh Hit
                    |hups ws w i st hup scan hup' st' w1 Hw Hh Hit
                    |hups ws w i st hup Hw Hh];
    cbn in *.
  - destruct (Hidle i _ Hw) as [?|[? ?]]; discriminate.
  - destruct (Hidle i _ Hw) as [?|[? ?]]; discriminate.
  - apply IH. intros j wk. destruct (decide (j = i)) as [->|Hne].
    + rewrite lookup_insert_eq. intros [= <-]. now left.
    + rewrite lookup_insert_ne by congruence. apply Hidle.
Qed.

(** With [PingCount <= 1] a run that returns a report has made no
    iteration of the probing loops: the report lists the records of the
    discovery as they are ([Snt = 1] and a loss of 0 or 1), and after the
    trace the run has not touched the transport or the log again.  This
    holds for the three run operations.  (When [PingCount] is the least
    [int] the bound of the loops wraps around and a run with a hop does
    not return.) *)
Theorem no_probing_report v op dst w report w' :
  PingCount op <= 1 →
  returns v op dst w ((report, None), w') →
  ∃ dstIP replies w0,
    ParseIP dst = Some dstIP
    ∧ Tracer_Trace (Tracer op) w dstIP = ((replies, None), w0)
    ∧ w' = world_after_trace replies w0
    ∧ ∀ (k : nat) h, Hups report !! k = Some h →
        h = discovered (routes_of replies w0) (Z.of_nat k + 1).
Proof.
  intros Hpc Hret.
  destruct (run_hops_trace v op dst w report w' Hret)
    as (dstIP & replies & w0 & Hparse & Htrace & Hres).
  exists dstIP, replies, w0. split; [exact Hparse|]. split; [exact Htrace|]. split.
  - assert (Htp : trace_phase op dst w
                  = (inr (time_Now_Unix (world_after_trace replies w0), dstIP,
                          discover op dst dstIP (routes_of replies w0)),
                     world_after_trace replies w0)).
    { unfold trace_phase, world_after_trace, routes_of. rewrite Hparse, Htrace.
      now destruct (fold_left on_reply replies (∅, w0)). }
    destruct v; cbn [returns] in Hret.
    + unfold RunMTRWithNoRetryPing in Hret. rewrite Htp in Hret.
      destruct (noretry_hups _ _ _ _) as [[hups' w1]|] eqn:Hloop; [|discriminate].
      apply (noretry_hups_idle _ _ Hpc) in Hloop. subst w1.
      destruct (collect _ _); [|discriminate]. now injection Hret as _ <-.
    + unfold RunMTR in Hret. rewrite Htp in Hret.
      destruct (retry_hups _ _ _ _ _) as [[hups' w1]|] eqn:Hloop; [|discriminate].
      apply (retry_hups_idle _ _ _ Hpc) in Hloop. subst w1.
      destruct (collect _ _); [|discriminate]. now injection Hret as _ <-.
    + inversion Hret as [|now ip hups w1 s l Htp' Hrtc Hdone Hc]; subst.
      rewrite Htp in Htp'. injection Htp' as <- <- <- <-.
      rewrite (conc_idle _ _ _ _ Hrtc); [reflexivity|].
      intros i wk Hwk. cbn in Hwk. apply lookup_gset_to_gmap_Some in Hwk as [Hi <-].
      right. exists (retry_start op). unfold worker_start.
      destruct (rounds (PingCount op)) as [n|] eqn:Hn.
      * apply rounds_Some in Hn. f_equal. lia.
      * exfalso. destruct (endless_stays _ _ _ _ i Hrtc) as [st Hst].
        { exists (retry_start op). cbn. apply lookup_gset_to_gmap_Some.
          split; [exact Hi|]. unfold worker_start. now rewrite Hn. }
        specialize (Hdone _ _ Hst). discriminate.
  - intros k h Hk. destruct (Hres k h Hk) as (hup & st & Hn & ->).
    replace (Z.to_nat (PingCount op - 1)) with O in Hn by lia.
    inversion Hn; subst. apply final_Loss_discovered.
Qed.

(** ** Runs of unknown hops *)

Lemma unknown_run_streak routes (k m : nat) :
  (∀ j : nat, (k <= j < k + m)%nat → routes !! (Z.of_nat j + 1) = None) →
  Z.of_nat m <= unknown_run routes (k + m).
Proof.
  induction m as [|m IH]; intros Hnone.
  - pose proof (unknown_run_nonneg routes (k + 0)). lia.
  - replace (k + S m)%nat with (S (k + m)) by lia. cbn [unknown_run].
    replace (Z.of_nat (S (k + m))) with (Z.of_nat (k + m) + 1) by lia.
    rewrite Hnone by lia.
    assert (Z.of_nat m <= unknown_run routes (k + m)) by (apply IH; intros j Hj; apply Hnone; lia).
    lia.
Qed.

(** A hop reported as ["???"] did not answer the trace. *)
Lemma reported_unknown_untraced v op dstIP routes i h :
  result_of (step_of v op dstIP) op (discovered routes i) h →
  Host h = "???" → routes !! i = None.
Proof.
  intros Hres Hunk. destruct (routes !! i) as [r|] eqn:Hr; [exfalso|reflexivity].
  revert Hunk.
  apply (result_of_invariant (fun _ hup => Host hup ≠ "???") (fun hup => Host hup ≠ "???")
           v op dstIP (discovered routes i) h); [| | |exact Hres].
  - unfold discovered. rewrite Hr. cbn. apply IP_String_known.
  - intros _ hup hup' Hh Ho Hh'.
    apply Hh. now apply (iteration_outcome_LossPoint _ _ Ho).
  - intros hup Hh. now rewrite (proj1 (proj2 (final_Loss_fields hup))).
Qed.

(** The report never shows more than [MaxUnknowns] hops in a row as
    ["???"] (for [MaxUnknowns >= 1]): the walk of the discovery stops at
    the TTL that completes such a run, and probing only turns unknown
    hops into known ones. *)
Theorem unknown_streak_bounded v op dst w report w' (k m : nat) :
  1 <= MaxUnknowns op →
  returns v op dst w ((report, None), w') →
  (∀ j : nat, (k <= j < k + m)%nat → ∃ h, Hups report !! j = Some h ∧ Host h = "???") →
  Z.of_nat m <= MaxUnknowns op.
Proof.
  intros Hmu Hret Hstreak.
  destruct (run_walk v op dst w report w' Hret)
    as (dstIP & replies & w0 & N & _ & _ & Hlen & HN & Hbefore & _ & Hres).
  set (routes := routes_of replies w0) in *.
  assert (Hnone : ∀ j : nat, (k <= j < k + m)%nat → routes !! (Z.of_nat j + 1) = None).
  { intros j Hj. destruct (Hstreak j Hj) as (h & Hh & Hunk).
    eapply reported_unknown_untraced; eauto. }
  destruct m as [|m]; [lia|].
  assert (HkN : Z.of_nat (k + S m) <= N).
  { destruct (Hstreak (k + m)%nat) as (h & Hh & _); [lia|].
    apply lookup_lt_Some in Hh. lia. }
  destruct m as [|m]; [lia|].
  assert (Hrun : Z.of_nat (S m) <= unknown_run routes (k + S m)).
  { apply unknown_run_streak. intros j Hj. apply Hnone. lia. }
  assert (Hns : ¬ stops op dst dstIP routes (Z.of_nat (k + S m))) by (apply Hbefore; lia).
  assert (Hlt : unknown_run routes (k + S m) < MaxUnknowns op).
  { destruct (Z_lt_le_dec (unknown_run routes (k + S m)) (MaxUnknowns op)) as [?|Hge];
      [assumption|].
    exfalso. apply Hns. right; left. now rewrite Nat2Z.id. }
  lia.
Qed.

(** ** [RunMTR]: the hosts of recovered hops *)

(** No other hop of the table has the host [x]. *)
Definition fresh_host (hups : gmap Z MTRHup) (i : Z) (x : string) : Prop :=
  ∀ j v, j ≠ i → hups !! j = Some v → Host v ≠ x.

(** The hosts of a table [hups] during the probing of [RunMTR], against
    the table [hups0] of the discovery: a host known from the discovery
    is unchanged, and a host adopted since is the host of no other hop. *)
Definition recovered_apart (hups0 hups : gmap Z MTRHup) : Prop :=
  (∀ i, is_Some (hups !! i) → is_Some (hups0 !! i))
  ∧ (∀ i h0 h, hups0 !! i = Some h0 → hups !! i = Some h →
       Host h0 ≠ "???" → Host h = Host h0)
  ∧ (∀ i j h0 hi hj, i ≠ j → hups0 !! i = Some h0 → Host h0 = "???" →
       hups !! i = Some hi → hups !! j = Some hj →
       Host hi ≠ "???" → Host hi ≠ Host hj).

Lemma retry_iteration_host op dstIP hups i hup st w hup' st' w' :
  retry_iteration op dstIP (fun h => host_in_table (<[i := h]> hups)) hup st w
  = (hup', st', w') →
  Host hup' = Host hup
  ∨ (Host hup = "???" ∧ Host hup' ≠ "???" ∧ fresh_host hups i (Host hup')).
Proof.
  unfold retry_iteration. fold (incr_Snt hup).
  change (Host (incr_Snt hup)) with (Host hup).
  change (Count (incr_Snt hup)) with (Count hup).
  change (LossPoint (incr_Snt hup)) with (LossPoint hup).
  destruct (negb (String.eqb (Host hup) "???")) eqn:Hk.
  - destruct (if comeback st then _ else _) as [[rp err] w1].
    destruct err as [e|]; [|destruct rp as [rp|]]; intros [= <- <- <-];
      rewrite ?(proj1 (proj2 (record_rtt_fields _ _))); now left.
  - apply negb_false_iff, String.eqb_eq in Hk.
    destruct (retryTime st >=? 4); [intros [= <- <- <-]; now left|].
    destruct (ping _ _ _ _ w) as [[rp err] w1].
    destruct err as [e|]; [|destruct rp as [rp|]]; try (intros [= <- <- <-]; now left).
    destruct (negb (host_in_table _ _)) eqn:Hscan; intros [= <- <- <-]; [|now left].
    right. rewrite (proj1 (proj2 (record_rtt_fields _ _))). cbn [Host set_Host].
    split; [exact Hk|]. split; [apply IP_String_known|].
    intros j v Hj Hv Heq. apply negb_true_iff in Hscan.
    assert (Ht : host_in_table (<[i := incr_Snt hup]> hups) (IP_String (IP rp)) = true).
    { apply host_in_table_true. exists j, v. now rewrite lookup_insert_ne by congruence. }
    congruence.
Qed.

Lemma retry_loop_host op dstIP hups i n :
  ∀ hup st w hup' st' w',
    retry_loop n op dstIP hups i hup st w = (hup', st', w') →
    Host hup' = Host hup
    ∨ (Host hup = "???" ∧ Host hup' ≠ "???" ∧ fresh_host hups i (Host hup')).
Proof.
  induction n as [|n IH]; intros hup st w hup' st' w' H; cbn [retry_loop] in H.
  - injection H as <- <- <-. now left.
  - destruct (retry_iteration op dstIP _ hup st w) as [[hup1 st1] w1] eqn:Hit.
    apply retry_iteration_host in Hit. apply IH in H.
    destruct Hit as [Hsame|(Hu & Hk & Hf)], H as [Hsame'|(Hu' & Hk' & Hf')].
    + left. congruence.
    + right. rewrite <- Hsame. auto.
    + right. rewrite Hsame'. auto.
    + contradiction.
Qed.

Lemma recovered_apart_insert hups0 hups i h_old h :
  recovered_apart hups0 hups →
  hups !! i = Some h_old →
  Host h = Host h_old
  ∨ (Host h_old = "???" ∧ Host h ≠ "???" ∧ fresh_host hups i (Host h)) →
  recovered_apart hups0 (<[i := h]> hups).
Proof.
  intros (Hdom & Hkeep & Hapart) Hold Hh. split; [|split].
  - intros a. destruct (decide (a = i)) as [->|Hne].
    + intros _. apply Hdom. eauto.
    + rewrite lookup_insert_ne by congruence. apply Hdom.
  - intros a h0 ha H0. destruct (decide (a = i)) as [->|Hne].
    + rewrite lookup_insert_eq. intros [= <-] Hk.
      pose proof (Hkeep i h0 h_old H0 Hold Hk) as Hsame.
      destruct Hh as [Hh|(Hu & _)]; congruence.
    + rewrite lookup_insert_ne by congruence. now apply Hkeep.
  - intros a b h0 ha hb Hab H0 Hu.
    destruct (decide (a = i)) as [->|Hai]; destruct (decide (b = i)) as [->|Hbi];
      rewrite ?lookup_insert_eq, ?lookup_insert_ne by congruence; try congruence.
    + intros [= <-] Hb Hk. destruct Hh as [Hsame|(_ & _ & Hf)].
      * rewrite Hsame in *. now apply (Hapart i b h0 h_old hb).
      * intros Heq. now apply (Hf b hb).
    + intros Ha [= <-] Hk. destruct Hh as [Hsame|(_ & _ & Hf)].
      * rewrite Hsame. now apply (Hapart a i h0 ha h_old).
      * now apply (Hf a ha).
    + intros Ha Hb Hk. now apply (Hapart a b h0 ha hb).
Qed.

Lemma retry_hups_apart op dstIP hups0 ks :
  ∀ hups w hups' w',
    retry_hups op dstIP ks hups w = Some (hups', w') →
    recovered_apart hups0 hups → recovered_apart hups0 hups'.
Proof.
  induction ks as [|i ks IH]; intros hups w hups' w'; cbn [retry_hups].
  - now intros [= <- _].
  - destruct (hups !! i) as [hup|] eqn:Hi; [|discriminate].
    destruct (rounds (PingCount op)) as [n|]; [|discriminate].
    destruct (retry_loop n op dstIP hups i hup (retry_start op) w) as [[hup1 st] w1] eqn:Hloop.
    intros Hrun Hinv. apply (IH _ _ _ _ Hrun).
    apply (recovered_apart_insert _ _ _ hup); [exact Hinv|exact Hi|].
    rewrite (proj1 (proj2 (final_Loss_fields hup1))).
    eapply retry_loop_host; eauto.
Qed.

(** In the report of [RunMTR] a hop that did not answer the trace and was
    recovered by a retry has a host that no other hop of the report has:
    the scan of the table rejects a responder that another hop already
    carries, and the hops are probed one after the other. *)
Theorem recovered_hosts_unique op dst w report w' :
  RunMTR op dst w = Some ((report, None), w') →
  ∃ dstIP replies w0,
    ParseIP dst = Some dstIP
    ∧ Tracer_Trace (Tracer op) w dstIP = ((replies, None), w0)
    ∧ ∀ (i j : nat) hi hj,
        i ≠ j → Hups report !! i = Some hi → Hups report !! j = Some hj →
        head (filter (fun r => Hops r = Z.of_nat i + 1) replies) = None →
        Host hi ≠ "???" → Host hi ≠ Host hj.
Proof.
  unfold RunMTR. intros Hrun.
  destruct (trace_phase op dst w) as [[[rep err]|[[now dstIP] hups0]] w1] eqn:Htp;
    [discriminate|].
  destruct (trace_phase_report _ _ _ _ _ _ _ Htp)
    as (replies & w0 & Hparse & Htrace & _ & _ & Hhups).
  exists dstIP, replies, w0. split; [exact Hparse|]. split; [exact Htrace|].
  destruct (retry_hups _ _ _ _ _) as [[hups' w2]|] eqn:Hloop; [|discriminate].
  destruct (collect _ _) as [l|] eqn:Hc; [|discriminate].
  injection Hrun as <- <-. cbn [Hups report_done].
  apply collect_Some in Hc as [_ Hl].
  assert (Hinv : recovered_apart hups0 hups').
  { apply (retry_hups_apart _ _ _ _ _ _ _ _ Hloop).
    split; [auto|]. split; [intros i h0 h H0 H; congruence|].
    intros i j h0 hi hj _ H0 Hu Hi _ Hk. congruence. }
  destruct Hinv as (Hdom & _ & Hapart).
  intros i j hi hj Hij Hi Hj Hnone Hk.
  apply Hl in Hi, Hj.
  destruct (Hdom (Z.of_nat i + 1)) as [h0 H0]; [eauto|].
  apply (Hapart (Z.of_nat i + 1) (Z.of_nat j + 1) h0 hi hj); try assumption; [lia|].
  subst hups0.
  destruct (discover_dense op dst dstIP (routes_of replies w0)) as (N & _ & _ & Ht).
  rewrite Ht in H0. case_decide; [|discriminate]. injection H0 as <-.
  unfold discovered. now rewrite first_reply_lookup, Hnone.
Qed.

(** ** The sequential run is one schedule of the concurrent run *)

Lemma retry_loop_conc op dstIP table i n :
  ∀ hup st w hup' st' w' hups ws,
    retry_loop n op dstIP table i hup st w = (hup', st', w') →
    ws !! i = Some (Running n st) → hups !! i = Some hup →
    rtc (conc_step op dstIP)
      {| c_hups := hups; c_workers := ws; c_world := w |}
      {| c_hups := <[i := hup']> hups; c_workers := <[i := Running O st']> ws;
         c_world := w' |}.
Proof.
  induction n as [|n IH]; intros hup st w hup' st' w' hups ws H Hw Hh; cbn [retry_loop] in H.
  - injection H as <- <- <-. rewrite !insert_id by assumption. apply rtc_refl.
  - destruct (retry_iteration op dstIP _ hup st w) as [[hup1 st1] w1] eqn:Hit.
    eapply rtc_l; [eapply conc_iteration; eauto|].
    specialize (IH hup1 st1 w1 hup' st' w' (<[i := hup1]> hups) (<[i := Running n st1]> ws) H).
    rewrite !insert_insert_eq in IH. apply IH; apply lookup_insert_eq.
Qed.

Lemma retry_hups_conc op dstIP ks :
  ∀ hups ws w hups' w',
    NoDup ks →
    retry_hups op dstIP ks hups w = Some (hups', w') →
    (∀ i, i ∈ ks → ws !! i = Some (worker_start op)) →
    ∃ ws',
      rtc (conc_step op dstIP)
        {| c_hups := hups; c_workers := ws; c_world := w |}
        {| c_hups := hups'; c_workers := ws'; c_world := w' |}
      ∧ (∀ i, i ∈ ks → ws' !! i = Some Done)
      ∧ (∀ i, i ∉ ks → ws' !! i = ws !! i).
Proof.
  induction ks as [|i ks IH]; intros hups ws w hups' w' Hnd; cbn [retry_hups].
  - intros [= <- <-] _. exists ws. split; [apply rtc_refl|]. split; [|auto].
    intros i Hi. now apply not_elem_of_nil in Hi.
  - apply NoDup_cons in Hnd as [Hi Hnd].
    destruct (hups !! i) as [hup|] eqn:Hh; [|discriminate].
    destruct (rounds (PingCount op)) as [n|] eqn:Hn; [|discriminate].
    destruct (retry_loop n op dstIP hups i hup (retry_start op) w) as [[hup1 st] w1] eqn:Hloop.
    intros Hrun Hws.
    assert (Hstart : worker_start op = Running n (retry_start op)).
    { unfold worker_start. now rewrite Hn. }
    destruct (IH (<[i := final_Loss hup1]> hups) (<[i := Done]> ws) w1 hups' w' Hnd Hrun)
      as (ws' & Hrtc & Hin & Hout).
    { intros j Hj. rewrite lookup_insert_ne by (intros ->; contradiction).
      apply Hws. now right. }
    exists ws'. split; [|split].
    + etrans; [eapply retry_loop_conc;
                 [exact Hloop|rewrite <- Hstart; apply Hws; now left|exact Hh]|].
      eapply rtc_l; [|exact Hrtc].
      replace (<[i := final_Loss hup1]> hups)
        with (<[i := final_Loss hup1]> (<[i := hup1]> hups)) by apply insert_insert_eq.
      replace (<[i := Done]> ws)
        with (<[i := Done]> (<[i := Running O st]> ws)) by apply insert_insert_eq.
      eapply conc_finish; apply lookup_insert_eq.
    + intros j Hj. apply elem_of_cons in Hj as [->|Hj]; [|now apply Hin].
      rewrite (Hout i Hi). apply lookup_insert_eq.
    + intros j Hj. apply not_elem_of_cons in Hj as [Hji Hj].
      rewrite (Hout j Hj). now rewrite lookup_insert_ne by congruence.
Qed.

(** Whatever [RunMTR] returns, [RunMTRWithCocurrentPing] can return on
    the same input: the schedule in which each worker runs to its end
    before the next one starts is the sequential loop over the hops. *)
Theorem sequential_is_a_schedule op dst w res :
  RunMTR op dst w = Some res → RunMTRWithCocurrentPing op dst w res.
Proof.
  unfold RunMTR. intros Hrun.
  destruct (trace_phase op dst w) as [[[rep err]|[[now dstIP] hups0]] w1] eqn:Htp.
  { injection Hrun as <-. now constructor. }
  destruct (retry_hups _ _ _ _ _) as [[hups' w2]|] eqn:Hloop; [|discriminate].
  destruct (collect _ _) as [l|] eqn:Hc; [|discriminate].
  injection Hrun as <-.
  destruct (retry_hups_conc op dstIP (seqZ 1 (Z.of_nat (size hups0)))
              hups0 (c_workers (conc_start op hups0 w1)) w1 hups' w2)
    as (ws' & Hrtc & Hin & Hout); [apply NoDup_seqZ|exact Hloop| |].
  { intros i Hi. cbn. apply lookup_gset_to_gmap_Some. split; [|reflexivity].
    now apply elem_of_list_to_set. }
  apply (Cocurrent_report op dst w now dstIP hups0 w1
           {| c_hups := hups'; c_workers := ws'; c_world := w2 |} l);
    [exact Htp|exact Hrtc| |exact Hc].
  intros i wk Hwk. cbn in Hwk.
  destruct (decide (i ∈ seqZ 1 (Z.of_nat (size hups0)))) as [Hi|Hi].
  - rewrite (Hin i Hi) in Hwk. congruence.
  - rewrite (Hout i Hi) in Hwk. cbn in Hwk.
    apply lookup_gset_to_gmap_Some in Hwk as [Hi' _].
    apply elem_of_list_to_set in Hi'. contradiction.
Qed.

(** ** The use of the transport after the trace *)

(** One call of [ping]: a session is asked for; if it is refused nothing
    else happens; otherwise the probe is sent, a reply is awaited when the
    send succeeded, and the session is closed in either case. *)
Inductive session_use (t : Config) (ip : option net_IP) (ttl timeout : Z)
  : World → World → Prop :=
  | session_refused w e w1 :
      Tracer_NewSession t w ip = (inr e, w1) →
      session_use t ip ttl timeout w w1
  | session_send_failed w sess w1 e w2 :
      Tracer_NewSession t w ip = (inl sess, w1) →
      Session_Ping w1 sess ttl = (Some e, w2) →
      session_use t ip ttl timeout w (Session_Close w2 sess)
  | session_probe w sess w1 w2 r w3 :
      Tracer_NewSession t w ip = (inl sess, w1) →
      Session_Ping w1 sess ttl = (None, w2) →
      Session_Receive w2 sess timeout = (r, w3) →
      session_use t ip ttl timeout w (Session_Close w3 sess).

Lemma ping_session_use t ip ttl timeout w res w' :
  ping t ip ttl timeout w = (res, w') → session_use t (ParseIP ip) ttl timeout w w'.
Proof.
  unfold ping.
  destruct (Tracer_NewSession t w (ParseIP ip)) as [[sess|e] w1] eqn:Hs.
  - destruct (Session_Ping w1 sess ttl) as [[e|] w2] eqn:Hp.
    + intros [= _ <-]. eapply session_send_failed; eauto.
    + destruct (Session_Receive w2 sess timeout) as [r w3] eqn:Hr.
      intros [= _ <-]. eapply session_probe; eauto.
  - intros [= _ <-]. eapply session_refused; eauto.
Qed.


(** What the probing loops do to the world: a session used for one probe
    with arguments [ok], or a line of the log. *)
Inductive transport_step (op : OPMTR) (ok : string → Z → Z → Prop) : World → World → Prop :=
  | step_session ip ttl timeout w w' :
      ok ip ttl timeout →
      session_use (Tracer op) (ParseIP ip) ttl timeout w w' →
      transport_step op ok w w'
  | step_log w e :
      transport_step op ok w (log_Print w (LogError e)).

Lemma log_err_steps op ok err w : rtc (transport_step op ok) w (log_err err w).
Proof. destruct err; cbn; [apply rtc_once, step_log|apply rtc_refl]. Qed.

Lemma ping_steps op ok ip ttl timeout w rp err w' :
  ok ip ttl timeout →
  ping (Tracer op) ip ttl timeout w = ((rp, err), w') →
  rtc (transport_step op ok) w w' ∧ rtc (transport_step op ok) w (log_err err w').
Proof.
  intros Hok Hping.
  assert (H : rtc (transport_step op ok) w w').
  { apply rtc_once. eapply step_session; [exact Hok|]. eapply ping_session_use; eauto. }
  split; [exact H|]. etrans; [exact H|apply log_err_steps].
Qed.





(** The arguments of a probe of the no-retry loop: the host of the hop,
    [MaxHops] as TTL and the configured timeout. *)
Definition noretry_probe_ok (op : OPMTR) (P : string → Prop) (ip : string) (ttl timeout : Z)
  : Prop :=
  P ip ∧ ip ≠ "???"
  ∧ ttl = MaxHops (Tracer op) ∧ 1 <= MaxHops (Tracer op)
  ∧ timeout = Timeout (Tracer op).

Lemma noretry_iteration_transport op (P : string → Prop) hup w hup' w' :
  1 <= Count hup <= MaxHops (Tracer op) →
  (Host hup ≠ "???" → P (Host hup)) →
  noretry_iteration op hup w = (hup', w') →
  Count hup' = Count hup ∧ Host hup' = Host hup
  ∧ rtc (transport_step op (noretry_probe_ok op P)) w w'.
Proof.
  intros Hc HP Hit.
  split; [eapply iteration_outcome_Count, noretry_iteration_outcome; eauto|].
  revert Hit. unfold noretry_iteration. fold (incr_Snt hup).
  change (Host (incr_Snt hup)) with (Host hup).
  destruct (negb (String.eqb (Host hup) "???")) eqn:Hk.
  - apply Host_eqb_unknown in Hk.
    destruct (ping _ _ _ _ w) as [[rp err] w1] eqn:Hping.
    assert (Hok : noretry_probe_ok op P (Host hup) (MaxHops (Tracer op)) (Timeout (Tracer op))).
    { unfold noretry_probe_ok. split; [auto|]. split; [exact Hk|].
      split; [reflexivity|]. split; [lia|reflexivity]. }
    destruct (ping_steps op _ _ _ _ _ _ _ _ Hok Hping) as [H1 H2].
    destruct err as [e|]; [|destruct rp as [rp|]]; intros [= <- <-];
      rewrite ?(proj1 (proj2 (record_rtt_fields _ _))); auto.
  - intros [= <- <-]. split; [reflexivity|apply rtc_refl].
Qed.

Lemma transport_step_mono op (ok ok' : string → Z → Z → Prop) w w' :
  (∀ ip ttl timeout, ok ip ttl timeout → ok' ip ttl timeout) →
  rtc (transport_step op ok) w w' → rtc (transport_step op ok') w w'.
Proof.
  intros Hok. induction 1 as [|w1 w2 w3 Hstep _ IH]; [apply rtc_refl|].
  eapply rtc_l; [|exact IH].
  destruct Hstep; [eapply step_session; eauto|apply step_log].
Qed.


Lemma noretry_loop_transport op (P : string → Prop) n :
  ∀ hup w hup' w',
    1 <= Count hup <= MaxHops (Tracer op) →
    (Host hup ≠ "???" → P (Host hup)) →
    noretry_loop n op hup w = (hup', w') →
    Count hup' = Count hup ∧ Host hup' = Host hup
    ∧ rtc (transport_step op (noretry_probe_ok op P)) w w'.
Proof.
  induction n as [|n IH]; intros hup w hup' w' Hc HP H; cbn [noretry_loop] in H.
  - injection H as <- <-. split; [reflexivity|]. split; [reflexivity|apply rtc_refl].
  - destruct (noretry_iteration op hup w) as [hup1 w1] eqn:Hit.
    destruct (noretry_iteration_transport _ P _ _ _ _ Hc HP Hit) as (HC & HH & H1).
    destruct (IH hup1 w1 hup' w') as (HC' & HH' & H2);
      [now rewrite HC|now rewrite HH|exact H|].
    split; [congruence|]. split; [congruence|]. etrans; eauto.
Qed.

(** Every record of the table carries a TTL within [1..MaxHops]. *)
Definition counts_ok (op : OPMTR) (hups : gmap Z MTRHup) : Prop :=
  ∀ i hup, hups !! i = Some hup → 1 <= Count hup <= MaxHops (Tracer op).

Lemma counts_ok_insert op hups i hup hup' :
  counts_ok op hups → hups !! i = Some hup → Count hup' = Count hup →
  counts_ok op (<[i := hup']> hups).
Proof.
  intros Hok Hi HC j h. destruct (decide (j = i)) as [->|Hne].
  - rewrite lookup_insert_eq. intros [= <-]. rewrite HC. eapply Hok; eauto.
  - rewrite lookup_insert_ne by congruence. apply Hok.
Qed.

Lemma counts_ok_discover op dst dstIP routes : counts_ok op (discover op dst dstIP routes).
Proof.
  destruct (discover_dense op dst dstIP routes) as (N & HN & _ & Ht).
  intros i hup. rewrite Ht. case_decide; [|discriminate]. intros [= <-].
  unfold discovered. case_match; cbn; lia.
Qed.




(** Every known host of the table satisfies [P]. *)
Definition hosts_ok (P : string → Prop) (hups : gmap Z MTRHup) : Prop :=
  ∀ i hup, hups !! i = Some hup → Host hup ≠ "???" → P (Host hup).

Lemma noretry_hups_transport op (P : string → Prop) ks :
  ∀ hups w hups' w',
    counts_ok op hups → hosts_ok P hups →
    noretry_hups op ks hups w = Some (hups', w') →
    rtc (transport_step op (noretry_probe_ok op P)) w w'.
Proof.
  induction ks as [|i ks IH]; intros hups w hups' w' Hok HP; cbn [noretry_hups].
  - intros [= _ <-]. apply rtc_refl.
  - destruct (hups !! i) as [hup|] eqn:Hi; [|discriminate].
    destruct (rounds (PingCount op)) as [n|]; [|discriminate].
    destruct (noretry_loop n op hup w) as [hup1 w1] eqn:Hloop.
    intros Hrun.
    destruct (noretry_loop_transport _ P _ _ _ _ _ (Hok i hup Hi) (HP i hup Hi) Hloop)
      as (HC & HH & H1).
    etrans; [exact H1|]. apply (IH (<[i := final_Loss hup1]> hups) w1 hups' w'); [| |exact Hrun].
    + eapply counts_ok_insert; eauto. now rewrite (proj1 (final_Loss_fields hup1)).
    + intros j h. destruct (decide (j = i)) as [->|Hne].
      * rewrite lookup_insert_eq. intros [= <-].
        rewrite (proj1 (proj2 (final_Loss_fields hup1))), HH. now apply (HP i).
      * rewrite lookup_insert_ne by congruence. apply HP.
Qed.








(** The no-retry operation probes only hosts that answered the trace,
    each with [MaxHops] as TTL and the configured timeout: it never sends
    a probe towards the destination with the TTL of a silent hop. *)
Theorem noretry_probes op dst w report w' :
  RunMTRWithNoRetryPing op dst w = Some ((report, None), w') →
  ∃ dstIP replies w0,
    ParseIP dst = Some dstIP
    ∧ Tracer_Trace (Tracer op) w dstIP = ((replies, None), w0)
    ∧ rtc (transport_step op
             (fun ip ttl timeout =>
                (∃ r, r ∈ replies ∧ ip = IP_String (IP r))
                ∧ ttl = MaxHops (Tracer op) ∧ timeout = Timeout (Tracer op)))
          (world_after_trace replies w0) w'.
Proof.
  unfold RunMTRWithNoRetryPing. intros Hrun.
  destruct (trace_phase op dst w) as [[[rep err]|[[now dstIP] hups0]] w1] eqn:Htp;
    [discriminate|].
  destruct (trace_phase_report _ _ _ _ _ _ _ Htp)
    as (replies & w0 & Hparse & Htrace & Hw1 & _ & Hhups).
  exists dstIP, replies, w0. split; [exact Hparse|]. split; [exact Htrace|].
  rewrite <- Hw1.
  destruct (noretry_hups _ _ _ _) as [[hups' w2]|] eqn:Hloop; [|discriminate].
  destruct (collect _ _); [|discriminate]. injection Hrun as _ <-.
  eapply transport_step_mono;
    [|eapply (noretry_hups_transport op (fun ip => ∃ r, r ∈ replies ∧ ip = IP_String (IP r)));
      [| |exact Hloop]].
  - intros ip ttl timeout (Hr & _ & -> & _ & ->). auto.
  - subst hups0. apply counts_ok_discover.
  - subst hups0. intros i hup Hi Hk.
    destruct (discover_dense op dst dstIP (routes_of replies w0)) as (N & _ & _ & Ht).
    rewrite Ht in Hi. case_decide; [|discriminate]. injection Hi as <-.
    unfold discovered in *. rewrite first_reply_lookup in *.
    destruct (head (filter _ replies)) as [r|] eqn:Hhead; [|now cbn in Hk].
    exists r. split; [|reflexivity].
    apply head_Some_elem_of, list_elem_of_filter in Hhead. tauto.
Qed.

(** ** [RunMTR] and [RunMTRWithNoRetryPing] on a path without silent hops *)

Lemma retry_iteration_known op dstIP scan hup st w :
  Host hup ≠ "???" → comeback st = false →
  retry_iteration op dstIP scan hup st w
  = (let '(hup', w') := noretry_iteration op hup w in (hup', st, w')).
Proof.
  intros Hk Hcb. unfold retry_iteration, noretry_iteration. fold (incr_Snt hup).
  change (Host (incr_Snt hup)) with (Host hup).
  apply Host_eqb_unknown in Hk. rewrite Hk, Hcb.
  destruct (ping _ _ _ _ w) as [[rp err] w1].
  destruct err as [e|]; [|destruct rp as [rp|]]; reflexivity.
Qed.

Lemma retry_loop_known op dstIP table i n :
  ∀ hup st w,
    Host hup ≠ "???" → comeback st = false →
    retry_loop n op dstIP table i hup st w
    = (let '(hup', w') := noretry_loop n op hup w in (hup', st, w'))
    ∧ Host (noretry_loop n op hup w).1 ≠ "???".
Proof.
  induction n as [|n IH]; intros hup st w Hk Hcb; cbn [retry_loop noretry_loop].
  - split; [reflexivity|exact Hk].
  - rewrite retry_iteration_known by assumption.
    destruct (noretry_iteration op hup w) as [hup1 w1] eqn:Hit.
    apply IH; [|exact Hcb].
    destruct (noretry_step_LossPoint op hup st hup1 st) as [[_ Hh]|(Hu & _)];
      [econstructor; exact Hit|congruence|contradiction].
Qed.

Lemma retry_hups_known op dstIP ks :
  ∀ hups w,
    (∀ i hup, hups !! i = Some hup → Host hup ≠ "???") →
    retry_hups op dstIP ks hups w = noretry_hups op ks hups w.
Proof.
  induction ks as [|i ks IH]; intros hups w Hk; cbn [retry_hups noretry_hups]; [reflexivity|].
  destruct (hups !! i) as [hup|] eqn:Hi; [|reflexivity].
  destruct (rounds (PingCount op)) as [n|]; [|reflexivity].
  destruct (retry_loop_known op dstIP hups i n hup
              (retry_start op) w (Hk i hup Hi) eq_refl) as [-> Hk1].
  destruct (noretry_loop n op hup w) as [hup1 w1]. cbn [fst] in Hk1.
  apply IH. intros j h. destruct (decide (j = i)) as [->|Hne].
  - rewrite lookup_insert_eq. intros [= <-].
    now rewrite (proj1 (proj2 (final_Loss_fields hup1))).
  - rewrite lookup_insert_ne by congruence. apply Hk.
Qed.

(** When every hop the discovery has found answered the trace, [RunMTR]
    and [RunMTRWithNoRetryPing] are the same function: they send the same
    probes and return the same report and the same world.  The retries
    and the comeback mode of [RunMTR] only ever concern hops that were
    silent in the trace. *)
Theorem sequential_runs_coincide op dst w dstIP replies err w0 :
  ParseIP dst = Some dstIP →
  Tracer_Trace (Tracer op) w dstIP = ((replies, err), w0) →
  (∀ i hup, discover op dst dstIP (routes_of replies w0) !! i = Some hup →
            Host hup ≠ "???") →
  RunMTR op dst w = RunMTRWithNoRetryPing op dst w.
Proof.
  intros Hparse Htrace Hknown. unfold RunMTR, RunMTRWithNoRetryPing.
  destruct (trace_phase op dst w) as [[[rep e]|[[now ip] hups]] w1] eqn:Htp; [reflexivity|].
  destruct (trace_phase_report _ _ _ _ _ _ _ Htp)
    as (replies' & w0' & Hparse' & Htrace' & _ & _ & ->).
  rewrite Hparse in Hparse'. injection Hparse' as <-.
  rewrite Htrace in Htrace'. injection Htrace' as <- _ <-.
  now rewrite retry_hups_known.
Qed.

(** ** The least [PingCount] *)

Lemma retry_hups_rounds op dstIP ks hups w r :
  retry_hups op dstIP ks hups w = Some r → ks ≠ [] → is_Some (rounds (PingCount op)).
Proof.
  destruct ks as [|i ks]; [congruence|]. cbn [retry_hups].
  destruct (hups !! i); [|discriminate]. destruct (rounds _); [eauto|discriminate].
Qed.

Lemma noretry_hups_rounds op ks hups w r :
  noretry_hups op ks hups w = Some r → ks ≠ [] → is_Some (rounds (PingCount op)).
Proof.
  destruct ks as [|i ks]; [congruence|]. cbn [noretry_hups].
  destruct (hups !! i); [|discriminate]. destruct (rounds _); [eauto|discriminate].
Qed.

Lemma returns_error v op dst w report e w' :
  returns v op dst w ((report, Some e), w') → Hups report = [].
Proof.
  intros Hret.
  assert (Hinl : ∃ w1, trace_phase op dst w = (inl (report, e), w1)).
  { destruct v; cbn [returns] in Hret.
    - unfold RunMTRWithNoRetryPing in Hret.
      destruct (trace_phase op dst w) as [[[rep err]|[[now dstIP] hups]] w1].
      + injection Hret as <- <- <-. eauto.
      + repeat case_match; discriminate.
    - unfold RunMTR in Hret.
      destruct (trace_phase op dst w) as [[[rep err]|[[now dstIP] hups]] w1].
      + injection Hret as <- <- <-. eauto.
      + repeat case_match; discriminate.
    - inversion Hret; subst; eauto. }
  destruct Hinl as [w1 Htp].
  destruct (trace_phase_inl _ _ _ _ _ _ Htp) as [(_ & -> & _)|(dstIP & e' & _ & -> & _)];
    reflexivity.
Qed.

(** When [PingCount] is the least [int], [op.PingCount-1] wraps around to
    the greatest and the condition [j <= op.PingCount-1] of the inner
    loops never fails: with [MaxHops >= 1] the table has a hop, its loop
    has no end, and no run operation returns a report.  What such a run
    can return is the error of the guard or of the trace, with no hops. *)
Theorem least_count_never_reports v op dst w report err w' :
  PingCount op = MinInt → 1 <= MaxHops (Tracer op) →
  returns v op dst w ((report, err), w') →
  err ≠ None ∧ Hups report = [].
Proof.
  intros Hpc Hmax Hret. destruct err as [e|].
  { split; [discriminate|]. eapply returns_error; eauto. }
  exfalso.
  destruct (returns_report v op dst w report w' Hret)
    as (now & dstIP & hups & w1 & Htp & _ & _ & _).
  destruct (trace_phase_inr _ _ _ _ _ _ _ Htp) as [_ [routes ->]].
  destruct (discover_stops op dst dstIP routes) as (N & HN & Ht & _ & Hat).
  assert (HN1 : 1 <= N) by (destruct (Z_lt_ge_dec N (MaxHops (Tracer op))) as [Hlt|Hge];
                            [apply Hat, Hlt|lia]).
  assert (Hsize : Z.of_nat (size (discover op dst dstIP routes)) = N).
  { rewrite (table_upto_size routes N) by (lia || assumption). lia. }
  assert (Hnone : rounds (PingCount op) = None) by (rewrite Hpc; reflexivity).
  assert (Hks : seqZ 1 (Z.of_nat (size (discover op dst dstIP routes))) ≠ []).
  { rewrite Hsize, seqZ_cons by lia. discriminate. }
  destruct v; cbn [returns] in Hret.
  - unfold RunMTRWithNoRetryPing in Hret. rewrite Htp in Hret.
    destruct (noretry_hups _ _ _ _) as [r|] eqn:Hloop; [|discriminate].
    destruct (noretry_hups_rounds _ _ _ _ _ Hloop Hks) as [n Hn]. congruence.
  - unfold RunMTR in Hret. rewrite Htp in Hret.
    destruct (retry_hups _ _ _ _ _) as [r|] eqn:Hloop; [|discriminate].
    destruct (retry_hups_rounds _ _ _ _ _ _ Hloop Hks) as [n Hn]. congruence.
  - inversion Hret as [|now' ip hups1 w2 s l Htp' Hrtc Hdone Hc]; subst.
    rewrite Htp in Htp'. injection Htp' as <- <- <- <-.
    destruct (endless_stays _ _ _ _ 1 Hrtc) as [st Hst].
    { exists (retry_start op). cbn. apply lookup_gset_to_gmap_Some. split.
      - apply elem_of_list_to_set, elem_of_seqZ. lia.
      - unfold worker_start. now rewrite Hnone. }
    specialize (Hdone _ _ Hst). discriminate.
Qed.

(** ** The probes of a hop that answered the trace *)

(** What a call of [ping] brings to the statistics: the reply, when there
    is one and no error ([err == nil && rp != nil]). *)
Definition probe_sample (res : option Reply * option lib_error) : option Reply :=
  match res with
  | (Some rp, None) => Some rp
  | _ => None
  end.

(** [n] probes of the host [ip], one after the other from the world [w],
    as the inner loops send them for a hop that answered the trace: TTL
    [MaxHops], the configured timeout, and the error of a failed probe
    written to the log.  The result is what each probe brought, in order,
    and the world after the last one. *)
Fixpoint probes (n : nat) (op : OPMTR) (ip : string) (w : World)
  : list (option Reply) * World :=
  match n with
  | O => ([], w)
  | S n' =>
      let '(res, w) := ping (Tracer op) ip (MaxHops (Tracer op)) (Timeout (Tracer op)) w in
      let w := match probe_sample res with
               | Some _ => w
               | None => log_err res.2 w
               end in
      let '(outs, w) := probes n' op ip w in
      (probe_sample res :: outs, w)
  end.

(** The record after one more probe: [Snt++], then the update of the
    statistics or [LossPoint++]. *)
Definition count_sample (hup : MTRHup) (out : option Reply) : MTRHup :=
  match out with
  | Some rp => record_rtt rp (incr_Snt hup)
  | None => set_LossPoint (LossPoint hup + 1) (incr_Snt hup)
  end.

(** The outer loop of a sequential operation. *)
Definition run_hups (v : run_operation) (op : OPMTR) (dstIP : net_IP)
  : list Z → gmap Z MTRHup → World → option (gmap Z MTRHup * World) :=
  match v with
  | NoRetry => noretry_hups op
  | _ => retry_hups op dstIP
  end.

Lemma count_sample_Host hup out : Host (count_sample hup out) = Host hup.
Proof.
  destruct out as [rp|]; cbn [count_sample]; [|reflexivity].
  now rewrite (proj1 (proj2 (record_rtt_fields _ _))).
Qed.

Lemma noretry_loop_probes op n :
  ∀ hup w,
    Host hup ≠ "???" →
    noretry_loop n op hup w
    = (foldl count_sample hup (probes n op (Host hup) w).1, (probes n op (Host hup) w).2).
Proof.
  induction n as [|n IH]; intros hup w Hk; cbn [noretry_loop probes]; [reflexivity|].
  unfold noretry_iteration. fold (incr_Snt hup).
  change (Host (incr_Snt hup)) with (Host hup).
  rewrite (proj2 (Host_eqb_unknown hup) Hk).
  destruct (ping _ _ _ _ w) as [[rp err] w1].
  assert (Hgo : ∀ out w2,
            (let '(hup1, w3) := noretry_loop n op (count_sample hup out) w2 in (hup1, w3))
            = (foldl count_sample hup (out :: (probes n op (Host hup) w2).1),
               (probes n op (Host hup) w2).2)).
  { intros out w2. rewrite IH by now rewrite count_sample_Host.
    now rewrite count_sample_Host. }
  destruct err as [e|]; [|destruct rp as [rp|]]; cbn [probe_sample snd].
  - specialize (Hgo None (log_err (Some e) w1)). cbn [count_sample] in Hgo.
    destruct rp; cbn [probe_sample snd];
      destruct (noretry_loop n op _ _) as [hup1 w3];
      destruct (probes n op (Host hup) _) as [outs w4]; exact Hgo.
  - specialize (Hgo (Some rp) w1). cbn [count_sample] in Hgo.
    destruct (noretry_loop n op _ _) as [hup1 w3].
    destruct (probes n op (Host hup) _) as [outs w4]. exact Hgo.
  - specialize (Hgo None (log_err None w1)). cbn [count_sample] in Hgo.
    destruct (noretry_loop n op _ _) as [hup1 w3].
    destruct (probes n op (Host hup) _) as [outs w4]. exact Hgo.
Qed.

Lemma run_hups_app v op dstIP ks1 :
  ∀ ks2 hups w,
    run_hups v op dstIP (ks1 ++ ks2) hups w
    = match run_hups v op dstIP ks1 hups w with
      | Some (hups1, w1) => run_hups v op dstIP ks2 hups1 w1
      | None => None
      end.
Proof.
  induction ks1 as [|i ks1 IH]; intros ks2 hups w.
  - destruct v; reflexivity.
  - destruct v; cbn [run_hups app noretry_hups retry_hups] in *;
      (destruct (hups !! i) as [hup|]; [|reflexivity]);
      (destruct (rounds (PingCount op)) as [n|]; [|reflexivity]).
    + destruct (noretry_loop n op hup w) as [hup1 w1]. apply IH.
    + destruct (retry_loop n op dstIP hups i hup (retry_start op) w) as [[hup1 st] w1]. apply IH.
    + destruct (retry_loop n op dstIP hups i hup (retry_start op) w) as [[hup1 st] w1]. apply IH.
Qed.

Lemma run_hups_outside v op dstIP ks :
  ∀ hups w hups' w' i,
    run_hups v op dstIP ks hups w = Some (hups', w') → i ∉ ks → hups' !! i = hups !! i.
Proof.
  induction ks as [|j ks IH]; intros hups w hups' w' i Hrun Hi.
  - destruct v; cbn in Hrun; now injection Hrun as <- _.
  - apply not_elem_of_cons in Hi as [Hij Hi].
    destruct v; cbn [run_hups noretry_hups retry_hups] in *;
      (destruct (hups !! j) as [hup|]; [|discriminate]);
      (destruct (rounds (PingCount op)) as [n|]; [|discriminate]).
    + destruct (noretry_loop n op hup w) as [hup1 w1].
      rewrite (IH _ _ _ _ i Hrun Hi). now rewrite lookup_insert_ne by congruence.
    + destruct (retry_loop n op dstIP hups j hup (retry_start op) w) as [[hup1 st] w1].
      rewrite (IH _ _ _ _ i Hrun Hi). now rewrite lookup_insert_ne by congruence.
    + destruct (retry_loop n op dstIP hups j hup (retry_start op) w) as [[hup1 st] w1].
      rewrite (IH _ _ _ _ i Hrun Hi). now rewrite lookup_insert_ne by congruence.
Qed.

(** The loop of one hop that answered the trace: its record becomes the
    record of the discovery with the results of its probes counted in. *)
Lemma run_hups_traced v op dstIP i ks hups w hup hups' w' :
  hups !! i = Some hup → Host hup ≠ "???" →
  run_hups v op dstIP (i :: ks) hups w = Some (hups', w') →
  ∃ n, rounds (PingCount op) = Some n
       ∧ run_hups v op dstIP ks
           (<[i := final_Loss (foldl count_sample hup (probes n op (Host hup) w).1)]> hups)
           (probes n op (Host hup) w).2
         = Some (hups', w').
Proof.
  intros Hi Hk Hrun.
  destruct v; cbn [run_hups noretry_hups retry_hups] in *; rewrite Hi in Hrun;
    (destruct (rounds (PingCount op)) as [n|]; [|discriminate]); exists n;
    (split; [reflexivity|]).
  - now rewrite noretry_loop_probes in Hrun by assumption.
  - rewrite (proj1 (retry_loop_known op dstIP hups i n hup (retry_start op) w Hk eq_refl)) in Hrun.
    now rewrite noretry_loop_probes in Hrun by assumption.
  - rewrite (proj1 (retry_loop_known op dstIP hups i n hup (retry_start op) w Hk eq_refl)) in Hrun.
    now rewrite noretry_loop_probes in Hrun by assumption.
Qed.

Lemma length_probes op ip n : ∀ w, length (probes n op ip w).1 = n.
Proof.
  induction n as [|n IH]; intros w; cbn [probes]; [reflexivity|].
  destruct (ping _ _ _ _ w) as [res w1].
  specialize (IH (match probe_sample res with Some _ => w1 | None => log_err res.2 w1 end)).
  destruct (probes n op ip _) as [outs w2]. cbn in *. now rewrite IH.
Qed.

Lemma count_samples_LossPoint (outs : list (option Reply)) :
  ∀ hup, LossPoint (foldl count_sample hup outs)
         = LossPoint hup + Z.of_nat (length (filter (fun o => o = None) outs)).
Proof.
  induction outs as [|[rp|] outs IH]; intros hup; cbn [foldl].
  - cbn. lia.
  - rewrite IH, filter_cons_False by discriminate. cbn [count_sample].
    now rewrite (proj1 (proj2 (proj2 (proj2 (record_rtt_fields _ _))))).
  - rewrite IH, filter_cons_True by reflexivity. cbn [count_sample LossPoint set_LossPoint length].
    change (LossPoint (incr_Snt hup)) with (LossPoint hup). lia.
Qed.

Lemma no_loss_all_answered (outs : list (option Reply)) :
  length (filter (fun o => o = None) outs) = O → Forall is_Some outs.
Proof.
  induction outs as [|[rp|] outs IH]; intros H.
  - constructor.
  - rewrite filter_cons_False in H by discriminate. constructor; [eauto|auto].
  - rewrite filter_cons_True in H by reflexivity. discriminate.
Qed.

(** A hop without a reply in the trace has lost a probe: the one of the
    discovery. *)
Lemma untraced_hop_lost v op dstIP routes i h :
  routes !! i = None →
  result_of (step_of v op dstIP) op (discovered routes i) h →
  1 <= LossPoint h.
Proof.
  intros Hr Hres.
  apply (result_of_invariant (fun _ hup => 1 <= LossPoint hup) (fun hup => 1 <= LossPoint hup)
           v op dstIP (discovered routes i) h); [| | |exact Hres].
  - unfold discovered. rewrite Hr. cbn. lia.
  - intros n hup hup' Hl Ho.
    destruct (iteration_outcome_LossPoint _ _ Ho) as [[-> | ->] _]; lia.
  - intros hup Hl. now rewrite (proj1 (proj2 (proj2 (final_Loss_fields hup)))).
Qed.

(** In a run of [RunMTR] or [RunMTRWithNoRetryPing], the record reported
    for a hop that answered the trace is the record of the discovery with
    the results of the hop's own probes counted in, one after the other:
    these are the [PingCount - 1] probes of the hop's address that start
    in the world the loops of the hops before it have left. *)
Lemma traced_hop_record v op dst w report w' :
  v ≠ Cocurrent →
  returns v op dst w ((report, None), w') →
  ∃ dstIP replies w0,
    ParseIP dst = Some dstIP
    ∧ Tracer_Trace (Tracer op) w dstIP = ((replies, None), w0)
    ∧ ∀ (k : nat) h r0,
        Hups report !! k = Some h →
        head (filter (fun r => Hops r = Z.of_nat k + 1) replies) = Some r0 →
        ∃ hups_k w_k,
          run_hups v op dstIP (seqZ 1 (Z.of_nat k))
            (discover op dst dstIP (routes_of replies w0)) (world_after_trace replies w0)
          = Some (hups_k, w_k)
          ∧ h = final_Loss
                  (foldl count_sample (known_hup (Z.of_nat k + 1) r0)
                     (probes (Z.to_nat (PingCount op - 1)) op (IP_String (IP r0)) w_k).1).
Proof.
  intros Hv Hret.
  destruct (returns_report v op dst w report w' Hret)
    as (now & dstIP & hups & w1 & Htp & _ & Hlen & _).
  destruct (trace_phase_report _ _ _ _ _ _ _ Htp)
    as (replies & w0 & Hparse & Htrace & -> & _ & ->).
  exists dstIP, replies, w0. split; [exact Hparse|]. split; [exact Htrace|].
  set (routes := routes_of replies w0) in *.
  set (hups0 := discover op dst dstIP routes) in *.
  set (w1 := world_after_trace replies w0) in *.
  destruct (discover_dense op dst dstIP routes) as (N & HN & Hsize & Ht).
  fold hups0 in Hsize, Ht.
  assert (Hloop : ∃ hups', run_hups v op dstIP (seqZ 1 N) hups0 w1 = Some (hups', w')
                           ∧ collect hups' N = Some (Hups report)).
  { destruct v; [| |contradiction]; cbn [returns run_hups] in *.
    - unfold RunMTRWithNoRetryPing in Hret. rewrite Htp, Hsize in Hret.
      destruct (noretry_hups op (seqZ 1 N) hups0 w1) as [[hups' w2]|]; [|discriminate].
      destruct (collect hups' N) as [l|] eqn:Hc; [|discriminate].
      injection Hret as <- <-. exists hups'. now split.
    - unfold RunMTR in Hret. rewrite Htp, Hsize in Hret.
      destruct (retry_hups op dstIP (seqZ 1 N) hups0 w1) as [[hups' w2]|]; [|discriminate].
      destruct (collect hups' N) as [l|] eqn:Hc; [|discriminate].
      injection Hret as <- <-. exists hups'. now split. }
  destruct Hloop as (hups' & Hrun & Hc). apply collect_Some in Hc as [HlenN Hl].
  intros k h r0 Hk Hhead.
  assert (HkN : Z.of_nat k + 1 <= N).
  { apply lookup_lt_Some in Hk. lia. }
  replace N with (Z.of_nat k + (1 + (N - Z.of_nat k - 1))) in Hrun by lia.
  rewrite seqZ_app, run_hups_app in Hrun by lia.
  destruct (run_hups v op dstIP (seqZ 1 (Z.of_nat k)) hups0 w1) as [[hups_k w_k]|] eqn:Hpre;
    [|discriminate].
  exists hups_k, w_k. split; [reflexivity|].
  rewrite seqZ_cons in Hrun by lia.
  assert (Hrec : hups_k !! (Z.of_nat k + 1) = Some (known_hup (Z.of_nat k + 1) r0)).
  { rewrite (run_hups_outside _ _ _ _ _ _ _ _ (Z.of_nat k + 1) Hpre).
    - rewrite Ht, decide_True by lia. f_equal. apply discovered_known.
      unfold routes. now rewrite first_reply_lookup.
    - rewrite elem_of_seqZ. lia. }
  replace (1 + Z.of_nat k) with (Z.of_nat k + 1) in Hrun by lia.
  destruct (run_hups_traced _ _ _ _ _ _ _ _ _ _ Hrec (IP_String_known _) Hrun)
    as (n & Hn & Hrest).
  apply rounds_Some in Hn. subst n. cbn [Host known_hup] in Hrest.
  apply (run_hups_outside _ _ _ _ _ _ _ _ (Z.of_nat k + 1)) in Hrest.
  - rewrite lookup_insert_eq, (Hl k h Hk) in Hrest. now injection Hrest as ->.
  - rewrite elem_of_seqZ. lia.
Qed.

End MTR.

(* ===================================================================== *)
(** * A scripted transport *)
(* ===================================================================== *)

(** The trace delivers a fixed list of replies; every probe takes the
    next entry of a script (an empty script is silence).  Every call is
    recorded. *)
Module Mock.

Inductive probe {A : Type} :=
  | Answer (r : Reply A)
  | Silence
  | SendFails (e : string)
  | NoSession (e : string).
Arguments probe : clear implicits.

Inductive event {A : Type} :=
  | EvTrace (dst : A)
  | EvNewSession (ip : option A)
  | EvPing (ttl : Z)
  | EvReceive (timeout : Z)
  | EvClose
  | EvLog (e : log_entry A string).
Arguments event : clear implicits.

Record world {A : Type} := {
  trace_replies : list (Reply A);
  trace_error : option string;
  probes : list (probe A);
  clock : Z;
  events : list (event A)
}.
Arguments world : clear implicits.

Section Mock.

Context {NL : NetLib}.

Local Abbreviation event := (event net_IP).
Local Abbreviation world := (world net_IP).

Definition record (e : event) (w : world) : world :=
  {| trace_replies := trace_replies w; trace_error := trace_error w;
     probes := probes w; clock := clock w; events := events w ++ [e] |}.

Definition next_probe (w : world) : world :=
  {| trace_replies := trace_replies w; trace_error := trace_error w;
     probes := tail (probes w); clock := clock w; events := events w |}.

Definition transport : Transport := {|
  World := world;
  Session := unit;
  lib_error := string;
  Tracer_Trace := fun _ w dst => ((trace_replies w, trace_error w), record (EvTrace dst) w);
  Tracer_NewSession := fun _ w ip =>
    let w := record (EvNewSession ip) w in
    match probes w with
    | NoSession e :: _ => (inr e, next_probe w)
    | _ => (inl tt, w)
    end;
  Session_Ping := fun w _ ttl =>
    let w := record (EvPing ttl) w in
    match probes w with
    | SendFails e :: _ => (Some e, next_probe w)
    | _ => (None, w)
    end;
  Session_Receive := fun w _ timeout =>
    let w := record (EvReceive timeout) w in
    match probes w with
    | Answer r :: _ => (Some r, next_probe w)
    | _ => (None, next_probe w)
    end;
  Session_Close := fun w _ => record EvClose w;
  time_Now_Unix := clock;
  log_Print := fun w e => record (EvLog e) w
|}.

End Mock.

End Mock.

(* ===================================================================== *)
(** * The statistics in exact arithmetic *)
(* ===================================================================== *)

Section Exact.

Context {NL : NetLib} {TR : @Transport NL}.

#[local] Existing Instance exactQ.

Local Abbreviation Reply := (Reply net_IP).
Local Abbreviation MTRHup := (MTRHup (@float64 exactQ)).

Local Open Scope Q_scope.

(** [Best <= Avg <= Wrst] and [Best <= Last <= Wrst]. *)
Definition ordered (hup : MTRHup) : Prop :=
  Best hup <= Avg hup ∧ Avg hup <= Wrst hup ∧ Best hup <= Last hup ∧ Last hup <= Wrst hup.

Lemma flt_exact (x y : Q) : flt x y = true ↔ x < y.
Proof.
  cbn. rewrite negb_true_iff, <- not_true_iff_false, Qle_bool_iff.
  split; [apply Qnot_le_lt | apply Qlt_not_le].
Qed.

Lemma flt_exact_false (x y : Q) : flt x y = false ↔ y <= x.
Proof.
  cbn. rewrite negb_false_iff. apply Qle_bool_iff.
Qed.

(** The running mean [(avg * (n - 1) + rtt) / n] with [n >= 1] lies
    between [avg] and [rtt]. *)
Lemma mean_between (a r n lo hi : Q) :
  1 <= n → lo <= a → a <= hi → lo <= r → r <= hi →
  lo <= (a * (n - 1) + r) / n ∧ (a * (n - 1) + r) / n <= hi.
Proof.
  intros Hn Hla Hah Hlr Hrh.
  assert (Hpos : 0 < n) by lra.
  split.
  - apply Qle_shift_div_l; [exact Hpos|].
    assert (H : lo * (n - 1) <= a * (n - 1)) by (apply Qmult_le_compat_r; lra).
    lra.
  - apply Qle_shift_div_r; [exact Hpos|].
    assert (H : a * (n - 1) <= hi * (n - 1)) by (apply Qmult_le_compat_r; lra).
    lra.
Qed.

Lemma record_rtt_ordered (rp : Reply) (hup : MTRHup) :
  1 <= Snt hup → ordered hup → ordered (record_rtt rp hup).
Proof.
  intros Hn (Hba & Haw & _ & _). unfold ordered, record_rtt. cbv zeta.
  set (rtt := rtt_ms (RTT rp)).
  pose proof (mean_between (Avg hup) rtt (Snt hup)) as Hmean.
  cbn [Snt Best Avg Wrst Last set_Best set_Wrst set_Avg set_Last].
  change (fsub (Snt hup) (f_of_int 1)) with (Snt hup - 1).
  change (fdiv ?x ?y) with (x / y); change (fadd ?x ?y) with (x + y);
    change (fmul ?x ?y) with (x * y).
  destruct (flt rtt (Best hup)) eqn:Hb;
    cbn [Snt Best Avg Wrst Last set_Best set_Wrst set_Avg set_Last];
    destruct (flt (Wrst hup) rtt) eqn:Hw;
    cbn [Snt Best Avg Wrst Last set_Best set_Wrst set_Avg set_Last];
    try apply flt_exact in Hb; try apply flt_exact_false in Hb;
    try apply flt_exact in Hw; try apply flt_exact_false in Hw.
  - destruct (Hmean rtt rtt) as [Hlo Hhi]; lra.
  - destruct (Hmean rtt (Wrst hup)) as [Hlo Hhi]; lra.
  - destruct (Hmean (Best hup) rtt) as [Hlo Hhi]; lra.
  - destruct (Hmean (Best hup) (Wrst hup)) as [Hlo Hhi]; lra.
Qed.

Lemma Snt_exact (k : nat) :
  fadd (inject_Z (Z.of_nat k + 1)) (f_of_int 1) = inject_Z (Z.of_nat (S k) + 1).
Proof.
  change (Qplus (inject_Z (Z.of_nat k + 1)) (inject_Z 1) = inject_Z (Z.of_nat (S k) + 1)).
  rewrite (Qadd_one (Z.of_nat k + 1) (Z.of_nat k + 2)) by (lia || exact I).
  f_equal. lia.
Qed.

Lemma ordered_reported v op dst w report w' h :
  returns v op dst w ((report, None), w') →
  h ∈ Hups report → ordered h.
Proof.
  intros Hret Hin.
  destruct (run_hops v op dst w report w' Hret) as (dstIP & routes & N & _ & _ & _ & Hres).
  apply list_elem_of_lookup in Hin as [k Hk].
  set (P := fun (n : nat) (hup : MTRHup) =>
              Snt hup = inject_Z (Z.of_nat n + 1) ∧ ordered hup).
  apply (result_of_invariant P ordered v op dstIP (discovered routes (Z.of_nat k + 1)) h);
    [| | |exact (Hres k h Hk)].
  - unfold P, ordered, discovered. case_match; cbn; (split; [reflexivity|]);
      repeat split; apply Qle_refl.
  - intros n hup hup' [HS HO] Ho. unfold P.
    assert (HS' : Snt (incr_Snt hup) = inject_Z (Z.of_nat (S n) + 1)).
    { cbn [incr_Snt Snt set_Snt]. rewrite HS. apply Snt_exact. }
    assert (H1 : 1 <= inject_Z (Z.of_nat (S n) + 1)).
    { change 1 with (inject_Z 1). rewrite <- Zle_Qle. lia. }
    destruct Ho as [rp Hk'| |Hu|rp Hu].
    + rewrite (proj2 (proj2 (proj2 (proj2 (record_rtt_fields _ _))))).
      split; [exact HS'|]. apply record_rtt_ordered; [now rewrite HS'|exact HO].
    + split; [exact HS'|exact HO].
    + split; [exact HS'|exact HO].
    + rewrite (proj2 (proj2 (proj2 (proj2 (record_rtt_fields _ _))))).
      split; [exact HS'|].
      apply record_rtt_ordered; [cbn [Snt set_Host]; now rewrite HS'|exact HO].
  - intros hup [_ HO]. unfold ordered in *.
    destruct (final_Loss_fields hup) as (_ & _ & _ & _ & -> & -> & -> & ->). exact HO.
Qed.

(** ** A hop without a lost probe, in exact arithmetic *)

Definition Qsum (l : list Q) : Q := fold_right Qplus 0 l.

Lemma Qsum_snoc (l : list Q) (x : Q) : Qsum (l ++ [x]) == Qsum l + x.
Proof.
  induction l as [|y l IH]; cbn.
  - ring.
  - change (fold_right Qplus 0 (l ++ [x])) with (Qsum (l ++ [x])). rewrite IH.
    change (fold_right Qplus 0 l) with (Qsum l). ring.
Qed.

Lemma record_rtt_values (rp : Reply) (hup : MTRHup) :
  Last (record_rtt rp hup) = rtt_ms (RTT rp)
  ∧ Avg (record_rtt rp hup) = (Avg hup * (Snt hup - 1) + rtt_ms (RTT rp)) / Snt hup
  ∧ Best (record_rtt rp hup)
    = (if flt (rtt_ms (RTT rp)) (Best hup) then rtt_ms (RTT rp) else Best hup)
  ∧ Wrst (record_rtt rp hup)
    = (if flt (Wrst hup) (rtt_ms (RTT rp)) then rtt_ms (RTT rp) else Wrst hup).
Proof.
  unfold record_rtt. cbv zeta.
  cbn [Snt Best Avg Wrst Last set_Best set_Wrst set_Avg set_Last].
  destruct (flt (rtt_ms (RTT rp)) (Best hup)) eqn:Hb;
    cbn [Snt Best Avg Wrst Last set_Best set_Wrst set_Avg set_Last];
    destruct (flt (Wrst hup) (rtt_ms (RTT rp))) eqn:Hw;
    cbn [Snt Best Avg Wrst Last set_Best set_Wrst set_Avg set_Last];
    auto.
Qed.

(** The statistics of a record over the samples [rtts]: [Avg] is their
    mean, [Best] and [Wrst] are the least and the greatest of them, [Last]
    is the last one. *)
Definition summarises (rtts : list Q) (hup : MTRHup) : Prop :=
  Avg hup == Qsum rtts / inject_Z (Z.of_nat (length rtts))
  ∧ Forall (fun x => Best hup <= x ∧ x <= Wrst hup) rtts
  ∧ Best hup ∈ rtts ∧ Wrst hup ∈ rtts
  ∧ last rtts = Some (Last hup).

Lemma record_rtt_summarises (rp : Reply) (hup : MTRHup) (rtts : list Q) :
  rtts ≠ [] →
  Snt hup = inject_Z (Z.of_nat (length rtts) + 1) →
  summarises rtts hup →
  summarises (rtts ++ [rtt_ms (RTT rp)]) (record_rtt rp hup).
Proof.
  intros Hne HS (Havg & Hall & Hbest & Hwrst & Hlast).
  destruct (record_rtt_values rp hup) as (HL & HA & HB & HW).
  set (rtt := rtt_ms (RTT rp)) in *.
  assert (Hlen : (0 < length rtts)%nat) by (destruct rtts; [contradiction|cbn; lia]).
  unfold summarises. rewrite HL, HA, HB, HW, HS, length_app. cbn [length].
  split; [|split; [|split; [|split]]].
  - rewrite Qsum_snoc, Havg.
    replace (Z.of_nat (length rtts + 1)) with (Z.of_nat (length rtts) + 1)%Z by lia.
    rewrite inject_Z_plus.
    assert (Hpos : 0 < inject_Z (Z.of_nat (length rtts))).
    { change 0 with (inject_Z 0). rewrite <- Zlt_Qlt. lia. }
    change (inject_Z 1) with 1.
    field. split; lra.
  - apply Forall_app. split.
    + eapply Forall_impl; [exact Hall|]. intros x [Hlo Hhi]. cbn beta. split.
      * destruct (flt rtt (Best hup)) eqn:Hb; [|exact Hlo].
        apply flt_exact in Hb. lra.
      * destruct (flt (Wrst hup) rtt) eqn:Hw; [|exact Hhi].
        apply flt_exact in Hw. lra.
    + apply Forall_singleton. split.
      * destruct (flt rtt (Best hup)) eqn:Hb; [lra|].
        now apply flt_exact_false in Hb.
      * destruct (flt (Wrst hup) rtt) eqn:Hw; [lra|].
        now apply flt_exact_false in Hw.
  - apply elem_of_app. destruct (flt rtt (Best hup)); [right; apply list_elem_of_here|now left].
  - apply elem_of_app. destruct (flt (Wrst hup) rtt); [right; apply list_elem_of_here|now left].
  - apply last_snoc.
Qed.

Lemma summarises_final_Loss rtts (hup : MTRHup) :
  summarises rtts hup → summarises rtts (final_Loss hup).
Proof.
  unfold summarises.
  destruct (final_Loss_fields hup) as (_ & _ & _ & _ & -> & -> & -> & ->). auto.
Qed.

(** The round-trip times of the probes that were answered, in order. *)
Definition answered_rtts (outs : list (option Reply)) : list Q :=
  (fun rp : Reply => @rtt_ms exactQ (RTT rp)) <$> omap id outs.

Lemma count_samples_summarises (outs : list (option Reply)) :
  ∀ (hup : MTRHup) (rtts : list Q) (n : nat),
    length rtts = S n → Snt hup = inject_Z (Z.of_nat n + 1) →
    summarises rtts hup → Forall is_Some outs →
    summarises (rtts ++ answered_rtts outs) (foldl count_sample hup outs).
Proof.
  induction outs as [|[rp|] outs IH]; intros hup rtts n Hlen HS Hsum Hall; cbn [foldl].
  - unfold answered_rtts. cbn. now rewrite app_nil_r.
  - change (answered_rtts (Some rp :: outs))
      with (@rtt_ms exactQ (RTT rp) :: answered_rtts outs).
    rewrite cons_middle, app_assoc. apply Forall_cons in Hall as [_ Hall].
    apply (IH _ _ (S n)); [rewrite length_app, Hlen; cbn; lia| | |exact Hall].
    + cbn [count_sample]. rewrite (proj2 (proj2 (proj2 (proj2 (record_rtt_fields _ _))))).
      cbn [Snt incr_Snt set_Snt]. rewrite HS. apply Snt_exact.
    + cbn [count_sample].
      apply record_rtt_summarises; [destruct rtts; [discriminate|congruence]| |exact Hsum].
      cbn [Snt incr_Snt set_Snt]. rewrite HS, Hlen. apply Snt_exact.
  - apply Forall_cons in Hall as [[x Hx] _]. discriminate.
Qed.

(** In exact arithmetic, for [RunMTR] and [RunMTRWithNoRetryPing]: a
    reported hop with [LossPoint = 0] answered the trace and every one of
    its [PingCount - 1] probes, and its [Avg] is the arithmetic mean of
    the round-trip times of these replies: the one of the trace and the
    ones its probes received, in the worlds in which the run sent them. *)
Theorem lossless_statistics v op dst w report w' :
  v ≠ Cocurrent →
  returns v op dst w ((report, None), w') →
  ∃ dstIP replies w0,
    ParseIP dst = Some dstIP
    ∧ Tracer_Trace (Tracer op) w dstIP = ((replies, None), w0)
    ∧ ∀ (k : nat) (h : MTRHup),
        Hups report !! k = Some h → LossPoint h = 0%Z →
        ∃ r0 hups_k w_k,
          head (filter (fun r => Hops r = (Z.of_nat k + 1)%Z) replies) = Some r0
          ∧ run_hups v op dstIP (seqZ 1 (Z.of_nat k))
              (discover op dst dstIP (routes_of replies w0)) (world_after_trace replies w0)
            = Some (hups_k, w_k)
          ∧ let outs := (probes (Z.to_nat (PingCount op - 1)) op (IP_String (IP r0)) w_k).1 in
            let rtts := rtt_ms (RTT r0) :: answered_rtts outs in
            Forall is_Some outs
            ∧ length rtts = S (Z.to_nat (PingCount op - 1))
            ∧ Avg h == Qsum rtts / inject_Z (Z.of_nat (length rtts)).
Proof.
  intros Hv Hret.
  destruct (traced_hop_record v op dst w report w' Hv Hret)
    as (dstIP & replies & w0 & Hparse & Htrace & Hrec).
  exists dstIP, replies, w0. split; [exact Hparse|]. split; [exact Htrace|].
  intros k h Hk Hl.
  destruct (head (filter (fun r => Hops r = (Z.of_nat k + 1)%Z) replies)) as [r0|] eqn:Hhead.
  2:{ exfalso.
      destruct (run_hops_trace v op dst w report w' Hret)
        as (dstIP' & replies' & w0' & Hparse' & Htrace' & Hres).
      rewrite Hparse in Hparse'. injection Hparse' as <-.
      rewrite Htrace in Htrace'. injection Htrace' as <- <-.
      pose proof (untraced_hop_lost v op dstIP (routes_of replies w0) (Z.of_nat k + 1) h) as Hlost.
      rewrite first_reply_lookup, Hhead in Hlost. specialize (Hlost eq_refl (Hres k h Hk)). lia. }
  destruct (Hrec k h r0 Hk Hhead) as (hups_k & w_k & Hpre & Hh).
  exists r0, hups_k, w_k. split; [reflexivity|]. split; [exact Hpre|].
  set (outs := (probes (Z.to_nat (PingCount op - 1)) op (IP_String (IP r0)) w_k).1) in *.
  cbv zeta.
  assert (Hall : Forall is_Some outs).
  { apply no_loss_all_answered.
    rewrite Hh, (proj1 (proj2 (proj2 (final_Loss_fields _)))),
      count_samples_LossPoint in Hl. cbn [LossPoint known_hup] in Hl. lia. }
  assert (Hn : length (answered_rtts outs) = Z.to_nat (PingCount op - 1)).
  { unfold answered_rtts. rewrite length_fmap.
    rewrite <- (length_probes op (IP_String (IP r0)) (Z.to_nat (PingCount op - 1)) w_k).
    fold outs. clear -Hall. induction Hall as [|o outs [rp ->] _ IH]; [reflexivity|].
    cbn. now rewrite IH. }
  split; [exact Hall|]. split.
  { change (S (length (answered_rtts outs)) = S (Z.to_nat (PingCount op - 1))).
    now rewrite Hn. }
  assert (Hsum : summarises ([@rtt_ms exactQ (RTT r0)] ++ answered_rtts outs) h).
  { rewrite Hh. apply summarises_final_Loss.
    apply (count_samples_summarises outs _ _ O); [reflexivity|reflexivity| |exact Hall].
    unfold summarises. cbn. split; [field|]. split.
    - apply Forall_singleton. split; apply Qle_refl.
    - split; [apply list_elem_of_here|]. split; [apply list_elem_of_here|reflexivity]. }
  exact (proj1 Hsum).
Qed.

(** ** A hop that answered the trace, in exact arithmetic *)

(** [Best], [Wrst] and [Last] over the samples [rtts]. *)
Definition extremes (rtts : list Q) (hup : MTRHup) : Prop :=
  Forall (fun x => Best hup <= x ∧ x <= Wrst hup) rtts
  ∧ Best hup ∈ rtts ∧ Wrst hup ∈ rtts
  ∧ last rtts = Some (Last hup).

Lemma record_rtt_extremes (rp : Reply) (hup : MTRHup) (rtts : list Q) :
  extremes rtts hup → extremes (rtts ++ [rtt_ms (RTT rp)]) (record_rtt rp hup).
Proof.
  intros (Hall & Hbest & Hwrst & Hlast).
  destruct (record_rtt_values rp hup) as (HL & _ & HB & HW).
  set (rtt := rtt_ms (RTT rp)) in *.
  unfold extremes. rewrite HL, HB, HW.
  split; [|split; [|split]].
  - apply Forall_app. split.
    + eapply Forall_impl; [exact Hall|]. intros x [Hlo Hhi]. cbn beta. split.
      * destruct (flt rtt (Best hup)) eqn:Hb; [|exact Hlo].
        apply flt_exact in Hb. lra.
      * destruct (flt (Wrst hup) rtt) eqn:Hw; [|exact Hhi].
        apply flt_exact in Hw. lra.
    + apply Forall_singleton. split.
      * destruct (flt rtt (Best hup)) eqn:Hb; [lra|].
        now apply flt_exact_false in Hb.
      * destruct (flt (Wrst hup) rtt) eqn:Hw; [lra|].
        now apply flt_exact_false in Hw.
  - apply elem_of_app. destruct (flt rtt (Best hup)); [right; apply list_elem_of_here|now left].
  - apply elem_of_app. destruct (flt (Wrst hup) rtt); [right; apply list_elem_of_here|now left].
  - apply last_snoc.
Qed.

Lemma count_samples_extremes (outs : list (option Reply)) :
  ∀ (hup : MTRHup) (rtts : list Q),
    extremes rtts hup →
    extremes (rtts ++ answered_rtts outs) (foldl count_sample hup outs).
Proof.
  induction outs as [|[rp|] outs IH]; intros hup rtts Hext; cbn [foldl].
  - unfold answered_rtts. cbn. now rewrite app_nil_r.
  - change (answered_rtts (Some rp :: outs))
      with (@rtt_ms exactQ (RTT rp) :: answered_rtts outs).
    rewrite cons_middle, app_assoc. apply IH. cbn [count_sample].
    now apply record_rtt_extremes.
  - change (answered_rtts (None :: outs)) with (answered_rtts outs). now apply IH.
Qed.

(** In exact arithmetic, for [RunMTR] and [RunMTRWithNoRetryPing]: for a
    hop that answered the trace, every one of its [PingCount - 1] probes
    either is counted in [LossPoint] or brought a reply, and [Best] is
    the least, [Wrst] the greatest and [Last] the last of the round-trip
    times of the trace's reply and of these replies, taken in the worlds
    in which the run sent the probes. *)
Theorem traced_hop_extremes v op dst w report w' :
  v ≠ Cocurrent →
  returns v op dst w ((report, None), w') →
  ∃ dstIP replies w0,
    ParseIP dst = Some dstIP
    ∧ Tracer_Trace (Tracer op) w dstIP = ((replies, None), w0)
    ∧ ∀ (k : nat) (h : MTRHup) (r0 : Reply),
        Hups report !! k = Some h →
        head (filter (fun r => Hops r = (Z.of_nat k + 1)%Z) replies) = Some r0 →
        ∃ hups_k w_k,
          run_hups v op dstIP (seqZ 1 (Z.of_nat k))
            (discover op dst dstIP (routes_of replies w0)) (world_after_trace replies w0)
          = Some (hups_k, w_k)
          ∧ let outs := (probes (Z.to_nat (PingCount op - 1)) op (IP_String (IP r0)) w_k).1 in
            let rtts := rtt_ms (RTT r0) :: answered_rtts outs in
            length outs = Z.to_nat (PingCount op - 1)
            ∧ LossPoint h = Z.of_nat (length (filter (fun o => o = None) outs))
            ∧ Forall (fun x => Best h <= x ∧ x <= Wrst h) rtts
            ∧ Best h ∈ rtts ∧ Wrst h ∈ rtts
            ∧ last rtts = Some (Last h).
Proof.
  intros Hv Hret.
  destruct (traced_hop_record v op dst w report w' Hv Hret)
    as (dstIP & replies & w0 & Hparse & Htrace & Hrec).
  exists dstIP, replies, w0. split; [exact Hparse|]. split; [exact Htrace|].
  intros k h r0 Hk Hhead.
  destruct (Hrec k h r0 Hk Hhead) as (hups_k & w_k & Hpre & Hh).
  exists hups_k, w_k. split; [exact Hpre|].
  set (outs := (probes (Z.to_nat (PingCount op - 1)) op (IP_String (IP r0)) w_k).1) in *.
  cbv zeta. split; [apply length_probes|]. split.
  - rewrite Hh, (proj1 (proj2 (proj2 (final_Loss_fields _)))), count_samples_LossPoint.
    cbn [LossPoint known_hup]. lia.
  - assert (Hext : extremes ([@rtt_ms exactQ (RTT r0)] ++ answered_rtts outs)
                     (foldl count_sample (known_hup (Z.of_nat k + 1) r0) outs)).
    { apply count_samples_extremes. unfold extremes. cbn. split.
      - apply Forall_singleton. split; apply Qle_refl.
      - split; [apply list_elem_of_here|]. split; [apply list_elem_of_here|reflexivity]. }
    rewrite Hh. unfold extremes in Hext.
    destruct (final_Loss_fields (foldl count_sample (known_hup (Z.of_nat k + 1) r0) outs))
      as (_ & _ & _ & _ & -> & _ & -> & ->).
    exact Hext.
Qed.

End Exact.

(** ** C7

    In exact arithmetic every reported hop has [Best <= Avg <= Wrst] and
    [Best <= Last <= Wrst], after discovery and after every update, in
    the three run operations.  In every arithmetic, so also in binary64,
    [Last] is neither below [Best] nor above [Wrst].  (In binary64 the
    rounded running mean can leave the interval by a rounding error.) *)
Theorem rtt_statistics_ordered :
  (∀ (NL : NetLib) (TR : @Transport NL) v op dst w report w' (h : MTRHup Q),
      @returns exactQ NL TR v op dst w ((report, None), w') →
      h ∈ Hups report →
      (Best h <= Avg h <= Wrst h)%Q ∧ (Best h <= Last h <= Wrst h)%Q)
  ∧ (∀ (FL : Float64) (NL : NetLib) (TR : @Transport NL) v op dst w report w' (h : MTRHup float64),
      @returns FL NL TR v op dst w ((report, None), w') →
      h ∈ Hups report →
      flt (Last h) (Best h) = false ∧ flt (Wrst h) (Last h) = false).
Proof.
  split.
  - intros NL TR v op dst w report w' h Hret Hin.
    destruct (ordered_reported v op dst w report w' h Hret Hin) as (? & ? & ? & ?). auto.
  - intros FL NL TR v op dst w report w' h. apply Last_between.
Qed.

(* ===================================================================== *)
(** * The older package-level [RunMTR] (mtr/mtr.go) *)
(* ===================================================================== *)

(** The function takes the configuration as arguments, builds the tracer
    itself and closes it when it returns, and probes through two calls of
    its traceroute library instead of [ping]: [Tracer.Ping] and
    [Tracer.StaticTrace].  Its discovery is [legacy_discover]. *)
Section Legacy.

Context {FL : Float64} {NL : NetLib} {TR : Transport}.

Local Abbreviation Reply := (Reply net_IP).
Local Abbreviation Config := (Config net_IP).
Local Abbreviation OPMTR := (OPMTR net_IP).
Local Abbreviation MTRHup := (MTRHup float64).
Local Abbreviation MTRReport := (MTRReport float64).
Local Abbreviation error := (error lib_error).

(** The three calls of the library that [Transport] does not have.  A
    probing call hands its replies to a callback, in order, and returns
    its error; the callback of [RunMTR] is [rp = reply]. *)
Class LegacyTracer := {
  Tracer_Ping : Config → World → option net_IP → (list Reply * option lib_error) * World;
  Tracer_StaticTrace :
    Config → World → option net_IP → Z → Z → (list Reply * option lib_error) * World;
  Tracer_Close : Config → World → World
}.

Context {LT : LegacyTracer}.

(** The tracer and the three numbers of a call, as one value: the
    composite literal [&traceroute.Tracer{...}] with [count] and
    [maxUnknowns]. *)
Definition legacy_op (srcIP : net_IP) (maxHops count maxUnknowns timeout : Z) : OPMTR :=
  {| Tracer := {| Delay := 10 * 1000000; Timeout := timeout; MaxHops := maxHops;
                  CCount := 1; Networks := ["ip4:icmp"]; Addr := srcIP |};
     MaxUnknowns := maxUnknowns; PingCount := count |}.

(** One iteration of the loop of a goroutine (lines 126-186).  [rp] is
    what the callback has stored last. *)
Definition legacy_iteration (op : OPMTR) (dstIP : net_IP)
    (hup : MTRHup) (st : retry_state) (w : World) : MTRHup * retry_state * World :=
  let hup := set_Snt (fadd (Snt hup) (f_of_int 1)) hup in
  if negb (String.eqb (Host hup) "???") then
    let '((replies, err), w) :=
      if comeback st then
        Tracer_StaticTrace (Tracer op) w (ParseIP (Host hup)) (Count hup) (workTimeout st)
      else Tracer_Ping (Tracer op) w (ParseIP (Host hup)) in
    match err, last replies with
    | None, Some rp => (record_rtt rp hup, st, w)
    | _, _ => (set_LossPoint (LossPoint hup + 1) hup, st, log_err err w)
    end
  else if retryTime st >=? 4 then (hup, st, w)
  else
    let '((replies, err), w) :=
      Tracer_StaticTrace (Tracer op) w (Some dstIP) (Count hup) (to st) in
    match err, last replies with
    | None, Some rp =>
        (record_rtt rp (set_Host (IP_String (IP rp)) hup),
         inc_retryTime (enter_comeback st), w)
    | _, _ =>
        (set_LossPoint (LossPoint hup + 1) hup, inc_retryTime (bump_to st), log_err err w)
    end.

(** The goroutines: a step is one iteration of one worker, or its final
    statement.  The loop is [for j := 1; j <= count-1; j++] (line 126),
    with the iterations of [worker_start]. *)
Inductive legacy_conc_step (op : OPMTR) (dstIP : net_IP) : conc_state → conc_state → Prop :=
  | legacy_conc_iteration hups ws w i n st hup hup' st' w' :
      ws !! i = Some (Running (S n) st) →
      hups !! i = Some hup →
      legacy_iteration op dstIP hup st w = (hup', st', w') →
      legacy_conc_step op dstIP
        {| c_hups := hups; c_workers := ws; c_world := w |}
        {| c_hups := <[i := hup']> hups; c_workers := <[i := Running n st']> ws; c_world := w' |}
  | legacy_conc_endless hups ws w i st hup hup' st' w' :
      ws !! i = Some (Endless st) →
      hups !! i = Some hup →
      legacy_iteration op dstIP hup st w = (hup', st', w') →
      legacy_conc_step op dstIP
        {| c_hups := hups; c_workers := ws; c_world := w |}
        {| c_hups := <[i := hup']> hups; c_workers := <[i := Endless st']> ws; c_world := w' |}
  | legacy_conc_finish hups ws w i st hup :
      ws !! i = Some (Running O st) →
      hups !! i = Some hup →
      legacy_conc_step op dstIP
        {| c_hups := hups; c_workers := ws; c_world := w |}
        {| c_hups := <[i := final_Loss hup]> hups; c_workers := <[i := Done]> ws; c_world := w |}.

(** [MTRReport{Src: src, Dst: dst, Count: count}]: [Src] is the argument
    as it was given. *)
Definition legacy_report (src dst : string) (count : Z) (now : Z) (l : list MTRHup)
  : MTRReport :=
  {| Time := now; Src := src; Dst := dst; RCount := count; Hups := l |}.

(** [RunMTR(src, dst, maxHops, count, maxUnknowns, timeout)].  The tracer
    exists once both addresses have parsed; [defer t.Close()] closes it at
    every return after that. *)
Inductive LegacyRunMTR (src dst : string) (maxHops count maxUnknowns timeout : Z) (w : World)
  : (MTRReport * option error) * World → Prop :=
  | Legacy_bad_source :
      ParseIP src = None →
      LegacyRunMTR src dst maxHops count maxUnknowns timeout w
        ((MTRReport_zero, Some (errors_New "Unknown source IP")), w)
  | Legacy_bad_dest srcIP :
      ParseIP src = Some srcIP → ParseIP dst = None →
      LegacyRunMTR src dst maxHops count maxUnknowns timeout w
        ((MTRReport_zero, Some (errors_New "Unknown dest IP")), w)
  | Legacy_trace_error srcIP dstIP op replies e w0 :
      ParseIP src = Some srcIP → ParseIP dst = Some dstIP →
      op = legacy_op srcIP maxHops count maxUnknowns timeout →
      Tracer_Trace (Tracer op) w dstIP = ((replies, Some e), w0) →
      LegacyRunMTR src dst maxHops count maxUnknowns timeout w
        ((legacy_report src dst count 0 [], Some (library_error e)),
         Tracer_Close (Tracer op) (world_after_trace replies w0))
  | Legacy_report srcIP dstIP op replies w0 hups s l :
      ParseIP src = Some srcIP → ParseIP dst = Some dstIP →
      op = legacy_op srcIP maxHops count maxUnknowns timeout →
      Tracer_Trace (Tracer op) w dstIP = ((replies, None), w0) →
      hups = legacy_discover maxHops maxUnknowns dst (routes_of replies w0) →
      rtc (legacy_conc_step op dstIP) (conc_start op hups (world_after_trace replies w0)) s →
      all_done (c_workers s) →
      collect (c_hups s) (Z.of_nat (size hups)) = Some l →
      LegacyRunMTR src dst maxHops count maxUnknowns timeout w
        ((legacy_report src dst count (time_Now_Unix (world_after_trace replies w0)) l, None),
         Tracer_Close (Tracer op) (c_world s)).

(** ** The table of the older discovery *)



(** ** What a goroutine does to its record *)






(** ** Every interleaving of the goroutines *)




(** The two guards, in their order: an unknown source is reported first,
    also when the destination is unknown as well; neither failure creates
    the tracer or touches the world. *)
Theorem legacy_guards src dst maxHops count maxUnknowns timeout w :
  (ParseIP src = None →
   ∀ res, LegacyRunMTR src dst maxHops count maxUnknowns timeout w res
          ↔ res = ((MTRReport_zero, Some (errors_New "Unknown source IP")), w))
  ∧ (ParseIP src ≠ None → ParseIP dst = None →
     ∀ res, LegacyRunMTR src dst maxHops count maxUnknowns timeout w res
            ↔ res = ((MTRReport_zero, Some (errors_New "Unknown dest IP")), w)).
Proof.
  split.
  - intros Hsrc res. split.
    + inversion 1; subst; congruence.
    + intros ->. now constructor.
  - intros Hsrc Hdst res. split.
    + inversion 1; subst; congruence.
    + intros ->. destruct (ParseIP src) as [srcIP|] eqn:Hs; [|contradiction].
      now apply Legacy_bad_dest with srcIP.
Qed.


End Legacy.

(** The scripted transport for the older [RunMTR]: a probing call takes
    the next entry of the script; closing the tracer is recorded. *)
Module LegacyMock.

Definition probing_call {NL : NetLib} (w : Mock.world net_IP)
  : (list (Reply net_IP) * option string) * Mock.world net_IP :=
  match Mock.probes w with
  | Mock.Answer r :: _ => (([r], None), Mock.next_probe w)
  | Mock.SendFails e :: _ | Mock.NoSession e :: _ => (([], Some e), Mock.next_probe w)
  | _ => (([], None), Mock.next_probe w)
  end.

Definition tracer {NL : NetLib} : @LegacyTracer NL (@Mock.transport NL) :=
  @Build_LegacyTracer NL (@Mock.transport NL)
    (fun _ w _ => probing_call w)
    (fun _ w _ _ _ => probing_call w)
    (fun _ w => Mock.record Mock.EvClose w).

End LegacyMock.

(* ===================================================================== *)
(** * Runs on the scripted transport, in binary64 and in exact arithmetic *)
(* ===================================================================== *)

Module Demo.

Definition addr (s : string) : @net_IP goNet := default [] (GoNet.ParseIP s).

Definition reply (ttl : Z) (a : string) (rtt : Z) : Reply (@net_IP goNet) :=
  {| IP := addr a; RTT := rtt; Hops := ttl |}.

Definition ms : Z := 1000000.
Definition us : Z := 1000.

(** [NewOPMTR("0.0.0.0", maxHops, count, maxUnknowns, time.Second)]. *)
Definition opmtr (maxHops count maxUnknowns : Z) : OPMTR (@net_IP goNet) :=
  {| Tracer := {| Delay := 10 * ms; Timeout := Second; MaxHops := maxHops; CCount := 1;
                  Networks := ["ip4:icmp"]; Addr := addr "0.0.0.0" |};
     MaxUnknowns := maxUnknowns; PingCount := count |}.

Definition world0 (replies : list (Reply (@net_IP goNet))) (script : list (Mock.probe (@net_IP goNet)))
  : Mock.world (@net_IP goNet) :=
  {| Mock.trace_replies := replies; Mock.trace_error := None; Mock.probes := script;
     Mock.clock := 1700000000; Mock.events := [] |}.

Definition run64 := @RunMTR binary64 goNet Mock.transport.
Definition runQ := @RunMTR exactQ goNet Mock.transport.
Definition noretry64 := @RunMTRWithNoRetryPing binary64 goNet Mock.transport.

Definition report_of {FL : Float64}
    (r : option ((MTRReport float64 * option (error string)) * Mock.world (@net_IP goNet)))
  : MTRReport float64 :=
  match r with
  | Some ((rep, _), _) => rep
  | None => MTRReport_zero
  end.

Definition world_of {FL : Float64}
    (r : option ((MTRReport float64 * option (error string)) * Mock.world (@net_IP goNet)))
    (w : Mock.world (@net_IP goNet)) : Mock.world (@net_IP goNet) :=
  match r with
  | Some (_, w') => w'
  | None => w
  end.

Definition hop {FL : Float64} (k : nat) (rep : MTRReport float64) : MTRHup float64 :=
  nth k (Hups rep) (unknown_hup 0).

(** ** The scenarios of the specification *)

(** Clean path: three replies, the third from the destination. *)
Definition clean_replies : list (Reply (@net_IP goNet)) :=
  [reply 1 "10.0.0.1" (2 * ms); reply 2 "10.0.0.2" (4 * ms); reply 3 "1.2.3.4" (8 * ms)].

Example clean_path :
  option_map (fun r => (map (fun h => (Count h, Host h, Loss h)) (Hups r.1.1), r.1.2))
    (run64 (opmtr 30 1 5) "1.2.3.4" (world0 clean_replies []))
  = Some ([(1, "10.0.0.1", B64.of_int 0); (2, "10.0.0.2", B64.of_int 0);
           (3, "1.2.3.4", B64.of_int 0)], None).
Proof. vm_compute. reflexivity. Qed.

(** Gap in the middle: replies at TTL 1, 3 and 4. *)
Example gap_in_middle :
  option_map (fun r => map (fun h => (Count h, Host h, Loss h)) (Hups r.1.1))
    (run64 (opmtr 30 1 5) "1.2.3.4"
       (world0 [reply 1 "10.0.0.1" (2 * ms); reply 3 "10.0.0.3" (4 * ms);
                reply 4 "1.2.3.4" (8 * ms)] []))
  = Some [(1, "10.0.0.1", B64.of_int 0); (2, "???", B64.of_int 1);
          (3, "10.0.0.3", B64.of_int 0); (4, "1.2.3.4", B64.of_int 0)].
Proof. vm_compute. reflexivity. Qed.

(** Consecutive-unknowns cutoff: no reply at all, [MaxUnknowns = 3]. *)
Example unknowns_cutoff :
  option_map (fun r => map (fun h => (Count h, Host h)) (Hups r.1.1))
    (run64 (opmtr 30 1 3) "1.2.3.4" (world0 [] []))
  = Some [(1, "???"); (2, "???"); (3, "???")].
Proof. vm_compute. reflexivity. Qed.

(** Duplicate TTL in the trace: the first reply is kept, the conflict is
    logged. *)
Example duplicate_ttl :
  option_map (fun r => (map (fun h => (Count h, Host h)) (Hups r.1.1),
                        List.filter (fun e => match e with Mock.EvLog _ => true | _ => false end)
                          (Mock.events r.2)))
    (run64 (opmtr 2 1 5) "1.2.3.4"
       (world0 [reply 1 "10.0.0.1" (2 * ms); reply 2 "10.0.0.2" (4 * ms);
                reply 2 "10.0.0.99" (4 * ms)] []))
  = Some ([(1, "10.0.0.1"); (2, "10.0.0.2")],
          [Mock.EvLog (LogConflict 2 (addr "10.0.0.99") (addr "10.0.0.2"))]).
Proof. vm_compute. reflexivity. Qed.

(** ** The average counts lost probes (C3)

    One hop, the destination, found at 10 ms; of the two further probes
    ([PingCount = 3]) the first is lost and the second returns in 40 ms.
    The successful RTTs are 10 and 40, mean 25; the reported [Avg] is
    [(10 * (3 - 1) + 40) / 3 = 20]. *)
Lemma avg_divides_by_sent :
  option_map (fun r => map (fun h => (Host h, Snt h, LossPoint h, Last h, Avg h)) (Hups r.1.1))
    (run64 (opmtr 30 3 5) "1.2.3.4"
       (world0 [reply 1 "1.2.3.4" (10 * ms)]
          [Mock.Silence; Mock.Answer (reply 1 "1.2.3.4" (40 * ms))]))
  = Some [("1.2.3.4", B64.of_int 3, 1, B64.of_int 40, B64.of_int 20)]
  ∧ B64.div (B64.add (@rtt_ms binary64 (10 * ms)) (@rtt_ms binary64 (40 * ms))) (B64.of_int 2)
    = B64.of_int 25.
Proof. split; vm_compute; reflexivity. Qed.

(** ** [Best] of a recovered hop (C4)

    TTL 2 is unknown after discovery; the one further probe
    ([PingCount = 2]) towards the destination with TTL 2 is answered by
    10.0.0.2 in 5 ms.  The hop is recovered with [Last = Wrst = 5], but
    [Best] keeps the 0 of the discovery: [Best > rtt] is false. *)
Lemma best_zero_after_comeback :
  option_map (fun r => map (fun h => (Count h, Host h, Best h, Last h, Wrst h)) (Hups r.1.1))
    (run64 (opmtr 30 2 5) "1.2.3.4"
       (world0 [reply 1 "10.0.0.1" (2 * ms); reply 3 "1.2.3.4" (8 * ms)]
          [Mock.Answer (reply 1 "10.0.0.1" (2 * ms));
           Mock.Answer (reply 2 "10.0.0.2" (5 * ms));
           Mock.Answer (reply 1 "1.2.3.4" (8 * ms))]))
  = Some [(1, "10.0.0.1", B64.of_int 2, B64.of_int 2, B64.of_int 2);
          (2, "10.0.0.2", B64.of_int 0, B64.of_int 5, B64.of_int 5);
          (3, "1.2.3.4", B64.of_int 8, B64.of_int 8, B64.of_int 8)].
Proof. vm_compute. reflexivity. Qed.

(** ** No-retry: [LossPoint] of an unknown hop stays 1 (C5)

    No reply at all, [MaxUnknowns = 3], [PingCount = 3]: the three hops
    are unknown and end with [Snt = 3] and [LossPoint = 1], not 3. *)
Lemma noretry_lost_stays_one :
  ∃ report w',
    noretry64 (opmtr 30 3 3) "1.2.3.4" (world0 [] []) = Some ((report, None), w')
    ∧ PingCount (opmtr 30 3 3) = 3
    ∧ ∃ h, h ∈ Hups report ∧ Host h = "???" ∧ Snt h = B64.of_int 3
           ∧ LossPoint h = 1 ∧ LossPoint h ≠ PingCount (opmtr 30 3 3).
Proof.
  eexists _, _. split; [vm_compute; reflexivity|]. split; [reflexivity|].
  eexists. split; [apply list_elem_of_here|].
  repeat split; discriminate.
Qed.

(** The steady path: one hop, the destination, and three probes that all
    take 100 microseconds. *)
Definition steady_replies : list (Reply (@net_IP goNet)) := [reply 1 "1.2.3.4" (100 * us)].

Definition steady_script : list (Mock.probe (@net_IP goNet)) :=
  [Mock.Answer (reply 1 "1.2.3.4" (100 * us)); Mock.Answer (reply 1 "1.2.3.4" (100 * us))].

(** ** binary64: the rounded running mean leaves [Best, Wrst] (C7)

    One hop, the destination, and three probes that all take 100
    microseconds ([PingCount = 3]): [Best = Last = Wrst] is the float64
    of 0.1 ms, and [Avg = (Avg * 2 + rtt) / 3] rounds to the next float64
    above it. *)
Lemma avg_above_wrst :
  ∃ report w' h,
    run64 (opmtr 30 3 5) "1.2.3.4" (world0 steady_replies steady_script)
    = Some ((report, None), w')
    ∧ h ∈ Hups report ∧ Host h = "1.2.3.4" ∧ LossPoint h = 0
    ∧ Best h = Wrst h ∧ Last h = Wrst h
    ∧ Wrst h = S754_finite false 7205759403792794 (-56)
    ∧ Avg h = S754_finite false 7205759403792795 (-56)
    ∧ SFltb (Wrst h) (Avg h) = true
    ∧ SFleb (Avg h) (Wrst h) = false.
Proof.
  eexists _, _, _. split; [vm_compute; reflexivity|].
  split; [apply list_elem_of_here|].
  repeat split.
Qed.

(** ** An IPv6 literal passes the guard (C9)

    ["::1"] is not a dotted-decimal IPv4 literal, [net.ParseIP] accepts
    it: the run does not fail with ["Unknown dest IP"], it starts the
    trace and returns a report. *)
Lemma ipv6_dst_passes_guard :
  GoNet.parseIPv4 "::1" = None
  ∧ ∃ report w',
      run64 (opmtr 30 1 5) "::1" (world0 [reply 1 "10.0.0.1" (2 * ms)] [])
      = Some ((report, None), w')
      ∧ Dst report = "::1"
      ∧ head (Mock.events w') = Some (Mock.EvTrace (addr "::1")).
Proof.
  split; [reflexivity|].
  eexists _, _. split; [vm_compute; reflexivity|]. split; reflexivity.
Qed.

(** ** The theorems at concrete runs *)

(** No reply at all, [MaxUnknowns = 3], [PingCount = 3], with retries. *)
Definition silent_op : OPMTR (@net_IP goNet) := opmtr 30 3 3.
Definition silent_world : Mock.world (@net_IP goNet) := world0 [] [].
Definition silent_run := Eval vm_compute in run64 silent_op "1.2.3.4" silent_world.
Definition silent_noretry := Eval vm_compute in noretry64 silent_op "1.2.3.4" silent_world.

Lemma unknown_hop_reported_witness :
  Loss (hop 0 (report_of silent_run)) = B64.of_int 1
  ∧ Last (hop 0 (report_of silent_run)) = B64.of_int 0
  ∧ Avg (hop 0 (report_of silent_run)) = B64.of_int 0
  ∧ Best (hop 0 (report_of silent_run)) = B64.of_int 0
  ∧ Wrst (hop 0 (report_of silent_run)) = B64.of_int 0.
Proof.
  apply (@unknown_hop_reported binary64 goNet Mock.transport Sequential silent_op "1.2.3.4"
           silent_world (report_of silent_run) (world_of silent_run silent_world)).
  - vm_compute. reflexivity.
  - apply list_elem_of_here.
  - reflexivity.
Defined.

Lemma noretry_unknown_hop_witness :
  Snt (hop 0 (report_of silent_noretry)) = B64.of_int 3
  ∧ LossPoint (hop 0 (report_of silent_noretry)) = 1
  ∧ ∀ (hup : MTRHup (@float64 binary64)) (w0 : Mock.world (@net_IP goNet)),
      Host hup = "???" →
      @noretry_iteration binary64 goNet Mock.transport silent_op hup w0 = (incr_Snt hup, w0).
Proof.
  apply (@noretry_unknown_hop binary64 goNet Mock.transport silent_op "1.2.3.4"
           silent_world (report_of silent_noretry) (world_of silent_noretry silent_world)).
  - vm_compute. discriminate.
  - vm_compute. reflexivity.
  - vm_compute. reflexivity.
  - apply list_elem_of_here.
  - reflexivity.
Defined.

(** The production configuration of the command line: 30 hops, 20
    probes, 5 unknowns. *)
Definition main_op : OPMTR (@net_IP goNet) := opmtr 30 20 5.
Definition main_run := Eval vm_compute in run64 main_op "1.2.3.4" silent_world.

Lemma sent_is_ping_count_witness : Snt (hop 0 (report_of main_run)) = B64.of_int 20.
Proof.
  apply (@sent_is_ping_count binary64 goNet Mock.transport Sequential main_op "1.2.3.4"
           silent_world (report_of main_run) (world_of main_run silent_world)).
  - vm_compute. discriminate.
  - vm_compute. reflexivity.
  - vm_compute. reflexivity.
  - apply list_elem_of_here.
Defined.

Definition clean_run := Eval vm_compute in run64 (opmtr 30 1 5) "1.2.3.4" (world0 clean_replies []).

Lemma report_sorted_witness :
  (∀ (k : nat) h, Hups (report_of clean_run) !! k = Some h → Count h = Z.of_nat k + 1)
  ∧ Z.of_nat (length (Hups (report_of clean_run))) <= 30.
Proof.
  apply (@report_sorted binary64 goNet Mock.transport Sequential (opmtr 30 1 5) "1.2.3.4"
           (world0 clean_replies []) (report_of clean_run)
           (world_of clean_run (world0 clean_replies []))).
  - vm_compute. discriminate.
  - vm_compute. reflexivity.
Defined.

(** The steady path, in exact arithmetic and in binary64. *)
Definition steady_runQ :=
  Eval vm_compute in runQ (opmtr 30 3 5) "1.2.3.4" (world0 steady_replies steady_script).
Definition steady_run64 :=
  Eval vm_compute in run64 (opmtr 30 3 5) "1.2.3.4" (world0 steady_replies steady_script).

Lemma rtt_statistics_ordered_witness :
  ((Best (hop 0 (report_of steady_runQ)) <= Avg (hop 0 (report_of steady_runQ))
    <= Wrst (hop 0 (report_of steady_runQ)))%Q
   ∧ (Best (hop 0 (report_of steady_runQ)) <= Last (hop 0 (report_of steady_runQ))
      <= Wrst (hop 0 (report_of steady_runQ)))%Q)
  ∧ (B64.lt (Last (hop 0 (report_of steady_run64))) (Best (hop 0 (report_of steady_run64))) = false
     ∧ B64.lt (Wrst (hop 0 (report_of steady_run64))) (Last (hop 0 (report_of steady_run64))) = false).
Proof.
  split.
  - apply (proj1 rtt_statistics_ordered goNet Mock.transport Sequential (opmtr 30 3 5) "1.2.3.4"
             (world0 steady_replies steady_script) (report_of steady_runQ)
             (world_of steady_runQ (world0 steady_replies steady_script))).
    + vm_compute. reflexivity.
    + apply list_elem_of_here.
  - apply (proj2 rtt_statistics_ordered binary64 goNet Mock.transport Sequential (opmtr 30 3 5)
             "1.2.3.4" (world0 steady_replies steady_script) (report_of steady_run64)
             (world_of steady_run64 (world0 steady_replies steady_script))).
    + vm_compute. reflexivity.
    + apply list_elem_of_here.
Defined.

(** A [dst] that is no address: the guard returns at once and nothing
    has been asked of the transport. *)
Lemma unknown_dest_guard_witness :
  run64 (opmtr 30 20 5) "example.org" silent_world
  = Some ((MTRReport_zero, Some (errors_New "Unknown dest IP")), silent_world)
  ∧ Mock.events silent_world = [].
Proof.
  split; [|reflexivity].
  apply (proj1 (@unknown_dest_guard binary64 goNet Mock.transport Sequential (opmtr 30 20 5)
                  "example.org" silent_world)); reflexivity.
Defined.

(** Branch B on a table with a gap: TTL 1 is
    10.0.0.1, TTL 2 is unknown, TTL 3 is the destination.  A reply from
    10.0.0.1 to the probe of hop 2 is a duplicate; a reply from 10.0.0.2
    is adopted. *)
Definition gap_op : OPMTR (@net_IP goNet) := opmtr 30 3 5.

Definition gap_routes : gmap Z (Reply (@net_IP goNet)) :=
  <[3 := reply 3 "1.2.3.4" (8 * ms)]> (<[1 := reply 1 "10.0.0.1" (2 * ms)]> ∅).

Definition gap_hups : gmap Z (MTRHup (@float64 binary64)) :=
  @discover binary64 goNet gap_op "1.2.3.4" (addr "1.2.3.4") gap_routes.

Definition gap_hup : MTRHup (@float64 binary64) := @discovered binary64 goNet gap_routes 2.

Definition gap_iteration (rp : Reply (@net_IP goNet)) :=
  @retry_iteration binary64 goNet Mock.transport gap_op (addr "1.2.3.4")
    (fun h => host_in_table (<[2 := h]> gap_hups)) gap_hup (retry_start (NL := goNet) gap_op)
    (world0 [] [Mock.Answer rp]).

Lemma comeback_duplicate_check_witness :
  (∃ hup' st' w1,
     gap_iteration (reply 2 "10.0.0.1" (3 * ms)) = (hup', st', w1)
     ∧ Host hup' = "???" ∧ comeback st' = false ∧ to st' = 2 * Second
     ∧ LossPoint hup' = 2 ∧ retryTime st' = 1)
  ∧ (∃ hup' st' w1,
       gap_iteration (reply 2 "10.0.0.2" (5 * ms)) = (hup', st', w1)
       ∧ Host hup' = "10.0.0.2" ∧ comeback st' = true ∧ workTimeout st' = Second
       ∧ Last hup' = B64.of_int 5 ∧ retryTime st' = 1).
Proof.
  split.
  - destruct (@comeback_duplicate_check binary64 goNet Mock.transport gap_op (addr "1.2.3.4")
                gap_hups 2 gap_hup (retry_start (NL := goNet) gap_op)
                (world0 [] [Mock.Answer (reply 2 "10.0.0.1" (3 * ms))])
                (reply 2 "10.0.0.1" (3 * ms))
                (snd (gap_iteration (reply 2 "10.0.0.1" (3 * ms)))))
      as (hup' & st' & Hit & _ & Hretry & Hdup & _).
    + reflexivity.
    + vm_compute. reflexivity.
    + vm_compute. reflexivity.
    + destruct Hdup as (HH & HC & HT & HL).
      { eexists 1, _. split; [discriminate|].
        split; [vm_compute; reflexivity|vm_compute; reflexivity]. }
      exists hup', st', (snd (gap_iteration (reply 2 "10.0.0.1" (3 * ms)))).
      split; [exact Hit|]. split; [exact HH|]. split; [exact HC|].
      split; [exact HT|]. split; [exact HL|exact Hretry].
  - destruct (@comeback_duplicate_check binary64 goNet Mock.transport gap_op (addr "1.2.3.4")
                gap_hups 2 gap_hup (retry_start (NL := goNet) gap_op)
                (world0 [] [Mock.Answer (reply 2 "10.0.0.2" (5 * ms))])
                (reply 2 "10.0.0.2" (5 * ms))
                (snd (gap_iteration (reply 2 "10.0.0.2" (5 * ms)))))
      as (hup' & st' & Hit & _ & Hretry & _ & Hfresh).
    + reflexivity.
    + vm_compute. reflexivity.
    + vm_compute. reflexivity.
    + destruct Hfresh as (HC & HW & HH & _ & HL).
      { intros k v _ Hl Heq.
        assert (Ht : host_in_table gap_hups (@IP_String goNet (IP (reply 2 "10.0.0.2" (5 * ms)))) = true).
        { apply host_in_table_true. eauto. }
        vm_compute in Ht. discriminate Ht. }
      exists hup', st', (snd (gap_iteration (reply 2 "10.0.0.2" (5 * ms)))).
      split; [exact Hit|]. split; [exact HH|]. split; [exact HC|].
      split; [exact HW|]. split; [exact HL|exact Hretry].
Defined.

(** The discovery on the same trace: the walk stops at TTL 3, where the
    destination answers. *)
Example discovery_gap :
  Host <$> gap_hups = <[1 := "10.0.0.1"]> (<[2 := "???"]> (<[3 := "1.2.3.4"]> ∅)).
Proof. vm_compute. reflexivity. Qed.

(** ** The older package-level [RunMTR]

    On the same trace and a destination in the form [net.IP.String]
    prints, the table of mtr/mtr.go is the table of [OPMTR]. *)
Lemma legacy_discover_agrees_witness :
  @legacy_discover binary64 goNet 30 5 "1.2.3.4" gap_routes
  = @discover binary64 goNet gap_op "1.2.3.4" (addr "1.2.3.4") gap_routes.
Proof.
  apply (@legacy_discover_agrees binary64 goNet gap_op "1.2.3.4" (addr "1.2.3.4") gap_routes).
  vm_compute. reflexivity.
Defined.

(** ** C1

    The walk of the older package-level [RunMTR] (mtr/mtr.go 74-112) does
    not stop at the destination when [dst] is not written the way
    [net.IP.String] prints it.  With [dst = "::ffff:1.2.3.4"], which
    [net.ParseIP] reads as 1.2.3.4, and a trace that has replies at TTL 1
    (10.0.0.1) and TTL 3 (1.2.3.4), the comparison of the reply's printed
    address with the string [dst] never succeeds: the walk passes the
    destination at TTL 3 and ends at TTL 8, at the fifth unknown hop in a
    row.  The discovery of [OPMTR], which compares with the printed form
    of the parsed destination, stops at TTL 3 on the same input. *)
Example legacy_passes_destination :
  GoNet.ParseIP "::ffff:1.2.3.4" = Some (addr "1.2.3.4")
  ∧ Host <$> @discover binary64 goNet gap_op "::ffff:1.2.3.4" (addr "::ffff:1.2.3.4") gap_routes
    = <[1 := "10.0.0.1"]> (<[2 := "???"]> (<[3 := "1.2.3.4"]> ∅))
  ∧ Host <$> @legacy_discover binary64 goNet 30 5 "::ffff:1.2.3.4" gap_routes
    = list_to_map [(1, "10.0.0.1"); (2, "???"); (3, "1.2.3.4"); (4, "???"); (5, "???");
                   (6, "???"); (7, "???"); (8, "???")].
Proof. repeat split; vm_compute; reflexivity. Qed.

(** ** Further runs *)

(** The trace fails after one reply. *)
Definition broken_world : Mock.world (@net_IP goNet) :=
  {| Mock.trace_replies := [reply 1 "10.0.0.1" (2 * ms)]; Mock.trace_error := Some "no route";
     Mock.probes := []; Mock.clock := 1700000000; Mock.events := [] |}.

Definition broken_after : @World goNet (@Mock.transport goNet) :=
  Mock.record (Mock.EvTrace (addr "1.2.3.4")) broken_world.

Definition broken_result
  : (MTRReport (@float64 binary64) * option (error string)) * @World goNet (@Mock.transport goNet) :=
  ((@report_start binary64 goNet (opmtr 30 3 5) "1.2.3.4", Some (library_error "no route")),
   @world_after_trace goNet (@Mock.transport goNet) [reply 1 "10.0.0.1" (2 * ms)] broken_after).

Lemma trace_error_report_witness :
  @returns binary64 goNet (@Mock.transport goNet) Sequential (opmtr 30 3 5) "1.2.3.4"
    broken_world broken_result
  ↔ broken_result = broken_result.
Proof.
  apply (@trace_error_report binary64 goNet (@Mock.transport goNet) Sequential (opmtr 30 3 5)
           "1.2.3.4" broken_world (addr "1.2.3.4") [reply 1 "10.0.0.1" (2 * ms)] "no route"
           broken_after broken_result).
  - vm_compute. reflexivity.
  - vm_compute. reflexivity.
Defined.

Lemma report_header_witness :
  ∃ dstIP replies w0,
    @ParseIP goNet "1.2.3.4" = Some dstIP
    ∧ @Tracer_Trace goNet Mock.transport (Tracer (opmtr 30 1 5)) (world0 clean_replies []) dstIP
      = ((replies, None), w0)
    ∧ Time (report_of clean_run) = @time_Now_Unix goNet Mock.transport (world_after_trace replies w0)
    ∧ Src (report_of clean_run) = @IP_String goNet (Addr (Tracer (opmtr 30 1 5)))
    ∧ Dst (report_of clean_run) = "1.2.3.4"
    ∧ RCount (report_of clean_run) = PingCount (opmtr 30 1 5).
Proof.
  apply (@report_header binary64 goNet Mock.transport Sequential (opmtr 30 1 5) "1.2.3.4"
           (world0 clean_replies []) (report_of clean_run)
           (world_of clean_run (world0 clean_replies []))).
  vm_compute. reflexivity.
Defined.

Lemma NewOPMTR_run_witness :
  ∃ srcIP,
    @ParseIP goNet "0.0.0.0" = Some srcIP ∧ @None (error string) = None
    ∧ Src (report_of clean_run) = @IP_String goNet srcIP
    ∧ RCount (report_of clean_run) = 1
    ∧ Z.of_nat (length (Hups (report_of clean_run))) <= Z.max 0 30.
Proof.
  apply (@NewOPMTR_run binary64 goNet Mock.transport Sequential "0.0.0.0" 30 1 5 Second
           (opmtr 30 1 5) None "1.2.3.4" (world0 clean_replies []) (report_of clean_run)
           (world_of clean_run (world0 clean_replies []))).
  - vm_compute. reflexivity.
  - vm_compute. reflexivity.
Defined.

Lemma lost_bounds_witness :
  0 <= LossPoint (hop 0 (report_of silent_run)) <= Z.max 1 (PingCount silent_op)
  ∧ (Host (hop 0 (report_of silent_run)) = "???" → 1 <= LossPoint (hop 0 (report_of silent_run))).
Proof.
  apply (@lost_bounds binary64 goNet Mock.transport Sequential silent_op "1.2.3.4"
           silent_world (report_of silent_run) (world_of silent_run silent_world)).
  - vm_compute. reflexivity.
  - apply list_elem_of_here.
Defined.

Lemma known_hop_loss_witness :
  Loss (hop 0 (report_of steady_run64))
  = B64.div (B64.of_int (LossPoint (hop 0 (report_of steady_run64))))
      (Snt (hop 0 (report_of steady_run64)))
  ∧ Loss (hop 0 (report_of steady_run64))
    = B64.div (B64.of_int (LossPoint (hop 0 (report_of steady_run64)))) (B64.of_int 3).
Proof.
  apply (@known_hop_loss binary64 goNet Mock.transport Sequential (opmtr 30 3 5) "1.2.3.4"
           (world0 steady_replies steady_script) (report_of steady_run64)
           (world_of steady_run64 (world0 steady_replies steady_script))).
  - vm_compute. discriminate.
  - vm_compute. reflexivity.
  - vm_compute. reflexivity.
  - apply list_elem_of_here.
  - vm_compute. discriminate.
Defined.

Lemma unknown_hop_retries_witness :
  LossPoint (hop 0 (report_of silent_run)) = 1 + Z.min 4 (Z.max 0 (PingCount silent_op - 1)).
Proof.
  apply (@unknown_hop_retries binary64 goNet Mock.transport Sequential silent_op "1.2.3.4"
           silent_world (report_of silent_run) (world_of silent_run silent_world)).
  - discriminate.
  - vm_compute. reflexivity.
  - apply list_elem_of_here.
  - reflexivity.
Defined.

Lemma traced_hop_host_witness :
  ∃ dstIP replies w0,
    @ParseIP goNet "1.2.3.4" = Some dstIP
    ∧ @Tracer_Trace goNet Mock.transport (Tracer (opmtr 30 1 5)) (world0 clean_replies []) dstIP
      = ((replies, None), w0)
    ∧ ∀ (k : nat) h, Hups (report_of clean_run) !! k = Some h →
        match head (filter (fun r => Hops r = Z.of_nat k + 1) replies) with
        | Some r => Host h = @IP_String goNet (IP r)
        | None => Sequential = NoRetry → Host h = "???"
        end.
Proof.
  apply (@traced_hop_host binary64 goNet Mock.transport Sequential (opmtr 30 1 5) "1.2.3.4"
           (world0 clean_replies []) (report_of clean_run)
           (world_of clean_run (world0 clean_replies []))).
  vm_compute. reflexivity.
Defined.

(** [MaxUnknowns = 0]: the walk stops after the first TTL. *)
Definition one_hop_run :=
  Eval vm_compute in run64 (opmtr 30 1 0) "1.2.3.4" (world0 clean_replies []).

Lemma degenerate_limits_witness :
  (MaxHops (Tracer (opmtr 30 1 0)) <= 0 → Hups (report_of one_hop_run) = [])
  ∧ (1 <= MaxHops (Tracer (opmtr 30 1 0)) → MaxUnknowns (opmtr 30 1 0) <= 0 →
     length (Hups (report_of one_hop_run)) = 1%nat).
Proof.
  apply (@degenerate_limits binary64 goNet Mock.transport Sequential (opmtr 30 1 0) "1.2.3.4"
           (world0 clean_replies []) (report_of one_hop_run)
           (world_of one_hop_run (world0 clean_replies []))).
  vm_compute. reflexivity.
Defined.

Lemma no_probing_report_witness :
  ∃ dstIP replies w0,
    @ParseIP goNet "1.2.3.4" = Some dstIP
    ∧ @Tracer_Trace goNet Mock.transport (Tracer (opmtr 30 1 5)) (world0 clean_replies []) dstIP
      = ((replies, None), w0)
    ∧ world_of clean_run (world0 clean_replies []) = world_after_trace replies w0
    ∧ ∀ (k : nat) h, Hups (report_of clean_run) !! k = Some h →
        h = @discovered binary64 goNet (routes_of replies w0) (Z.of_nat k + 1).
Proof.
  apply (@no_probing_report binary64 goNet Mock.transport Sequential (opmtr 30 1 5) "1.2.3.4"
           (world0 clean_replies []) (report_of clean_run)
           (world_of clean_run (world0 clean_replies []))).
  - vm_compute. discriminate.
  - vm_compute. reflexivity.
Defined.

Lemma unknown_streak_bounded_witness : Z.of_nat 3 <= MaxUnknowns silent_op.
Proof.
  apply (@unknown_streak_bounded binary64 goNet Mock.transport Sequential silent_op "1.2.3.4"
           silent_world (report_of silent_run) (world_of silent_run silent_world) 0 3).
  - vm_compute. discriminate.
  - vm_compute. reflexivity.
  - intros j Hj. destruct j as [|[|[|j]]]; [eexists; split; reflexivity..|lia].
Defined.

(** A hop recovered by a retry: TTL 2 is silent in the trace and answers
    the retry as 10.0.0.2. *)
Definition comeback_world : Mock.world (@net_IP goNet) :=
  world0 [reply 1 "10.0.0.1" (2 * ms); reply 3 "1.2.3.4" (8 * ms)]
    [Mock.Answer (reply 1 "10.0.0.1" (2 * ms));
     Mock.Answer (reply 2 "10.0.0.2" (5 * ms));
     Mock.Answer (reply 1 "1.2.3.4" (8 * ms))].

Definition comeback_run := Eval vm_compute in run64 (opmtr 30 2 5) "1.2.3.4" comeback_world.

Lemma recovered_hosts_unique_witness :
  ∃ dstIP replies w0,
    @ParseIP goNet "1.2.3.4" = Some dstIP
    ∧ @Tracer_Trace goNet Mock.transport (Tracer (opmtr 30 2 5)) comeback_world dstIP
      = ((replies, None), w0)
    ∧ ∀ (i j : nat) hi hj,
        i ≠ j → Hups (report_of comeback_run) !! i = Some hi →
        Hups (report_of comeback_run) !! j = Some hj →
        head (filter (fun r => Hops r = Z.of_nat i + 1) replies) = None →
        Host hi ≠ "???" → Host hi ≠ Host hj.
Proof.
  apply (@recovered_hosts_unique binary64 goNet Mock.transport (opmtr 30 2 5) "1.2.3.4"
           comeback_world (report_of comeback_run) (world_of comeback_run comeback_world)).
  vm_compute. reflexivity.
Defined.

Lemma sequential_is_a_schedule_witness :
  @RunMTRWithCocurrentPing binary64 goNet Mock.transport (opmtr 30 2 5) "1.2.3.4" comeback_world
    ((report_of comeback_run, None), world_of comeback_run comeback_world).
Proof.
  apply (@sequential_is_a_schedule binary64 goNet Mock.transport (opmtr 30 2 5) "1.2.3.4"
           comeback_world ((report_of comeback_run, None), world_of comeback_run comeback_world)).
  vm_compute. reflexivity.
Defined.


Definition steady_noretry :=
  Eval vm_compute in noretry64 (opmtr 30 3 5) "1.2.3.4" (world0 steady_replies steady_script).

Lemma noretry_probes_witness :
  ∃ dstIP replies w0,
    @ParseIP goNet "1.2.3.4" = Some dstIP
    ∧ @Tracer_Trace goNet Mock.transport (Tracer (opmtr 30 3 5))
        (world0 steady_replies steady_script) dstIP
      = ((replies, None), w0)
    ∧ rtc (transport_step (opmtr 30 3 5)
             (fun ip ttl timeout =>
                (∃ r, r ∈ replies ∧ ip = @IP_String goNet (IP r))
                ∧ ttl = MaxHops (Tracer (opmtr 30 3 5))
                ∧ timeout = Timeout (Tracer (opmtr 30 3 5))))
        (world_after_trace replies w0)
        (world_of steady_noretry (world0 steady_replies steady_script)).
Proof.
  apply (@noretry_probes binary64 goNet Mock.transport (opmtr 30 3 5) "1.2.3.4"
           (world0 steady_replies steady_script) (report_of steady_noretry)
           (world_of steady_noretry (world0 steady_replies steady_script))).
  vm_compute. reflexivity.
Defined.

Lemma lossless_statistics_witness :
  ∃ dstIP replies w0,
    @ParseIP goNet "1.2.3.4" = Some dstIP
    ∧ @Tracer_Trace goNet Mock.transport (Tracer (opmtr 30 3 5))
        (world0 steady_replies steady_script) dstIP
      = ((replies, None), w0)
    ∧ ∀ (k : nat) (h : MTRHup Q),
        Hups (report_of steady_runQ) !! k = Some h → LossPoint h = 0%Z →
        ∃ r0 hups_k w_k,
          head (filter (fun r => Hops r = (Z.of_nat k + 1)%Z) replies) = Some r0
          ∧ @run_hups exactQ goNet Mock.transport Sequential (opmtr 30 3 5) dstIP
              (seqZ 1 (Z.of_nat k))
              (@discover exactQ goNet (opmtr 30 3 5) "1.2.3.4" dstIP (routes_of replies w0))
              (world_after_trace replies w0)
            = Some (hups_k, w_k)
          ∧ let outs := (probes (Z.to_nat (PingCount (opmtr 30 3 5) - 1)) (opmtr 30 3 5)
                           (IP_String (IP r0)) w_k).1 in
            let rtts := @rtt_ms exactQ (RTT r0) :: answered_rtts outs in
            Forall is_Some outs
            ∧ length rtts = S (Z.to_nat (PingCount (opmtr 30 3 5) - 1))
            ∧ (Avg h == Qsum rtts / inject_Z (Z.of_nat (length rtts)))%Q.
Proof.
  apply (@lossless_statistics goNet Mock.transport Sequential (opmtr 30 3 5) "1.2.3.4"
           (world0 steady_replies steady_script) (report_of steady_runQ)
           (world_of steady_runQ (world0 steady_replies steady_script))).
  - discriminate.
  - vm_compute. reflexivity.
Defined.

(** ** The older [RunMTR] on the scripted transport *)

Definition legacy_world : @World goNet (@Mock.transport goNet) :=
  world0 [reply 1 "1.2.3.4" (2 * ms)] [].

Definition legacy_refused
  : (MTRReport (@float64 binary64) * option (error string)) * @World goNet (@Mock.transport goNet) :=
  ((MTRReport_zero, Some (errors_New "Unknown source IP")), legacy_world).

Lemma legacy_guards_witness :
  @LegacyRunMTR binary64 goNet (@Mock.transport goNet) LegacyMock.tracer
    "example.org" "nowhere" 30 20 5 Second legacy_world legacy_refused
  ↔ legacy_refused = legacy_refused.
Proof.
  apply (proj1 (@legacy_guards binary64 goNet (@Mock.transport goNet) LegacyMock.tracer
                  "example.org" "nowhere" 30 20 5 Second legacy_world)).
  reflexivity.
Defined.










(** The destination answers the trace in 10 ms; of its two probes the
    first is lost and the second answered in 40 ms. *)
Definition lossy_world : Mock.world (@net_IP goNet) :=
  world0 [reply 1 "1.2.3.4" (10 * ms)]
    [Mock.Silence; Mock.Answer (reply 1 "1.2.3.4" (40 * ms))].

Definition lossy_runQ := Eval vm_compute in runQ (opmtr 30 3 5) "1.2.3.4" lossy_world.

Definition lossy_after : @World goNet (@Mock.transport goNet) :=
  Mock.record (Mock.EvTrace (addr "1.2.3.4")) lossy_world.

Example lossy_probes :
  (@probes goNet Mock.transport 2 (opmtr 30 3 5) "1.2.3.4" lossy_after).1
  = [None; Some (reply 1 "1.2.3.4" (40 * ms))]
  ∧ map (fun h : MTRHup Q => (LossPoint h, Qred (Best h), Qred (Wrst h), Qred (Last h)))
      (Hups (report_of lossy_runQ))
    = [(1, (10 # 1)%Q, (40 # 1)%Q, (40 # 1)%Q)].
Proof. split; vm_compute; reflexivity. Qed.

Lemma traced_hop_extremes_witness :
  ∃ dstIP replies w0,
    @ParseIP goNet "1.2.3.4" = Some dstIP
    ∧ @Tracer_Trace goNet Mock.transport (Tracer (opmtr 30 3 5))
        lossy_world dstIP
      = ((replies, None), w0)
    ∧ ∀ (k : nat) (h : MTRHup Q) (r0 : Reply (@net_IP goNet)),
        Hups (report_of lossy_runQ) !! k = Some h →
        head (filter (fun r => Hops r = (Z.of_nat k + 1)%Z) replies) = Some r0 →
        ∃ hups_k w_k,
          @run_hups exactQ goNet Mock.transport Sequential (opmtr 30 3 5) dstIP
            (seqZ 1 (Z.of_nat k))
            (@discover exactQ goNet (opmtr 30 3 5) "1.2.3.4" dstIP (routes_of replies w0))
            (world_after_trace replies w0)
          = Some (hups_k, w_k)
          ∧ let outs := (probes (Z.to_nat (PingCount (opmtr 30 3 5) - 1)) (opmtr 30 3 5)
                           (IP_String (IP r0)) w_k).1 in
            let rtts := @rtt_ms exactQ (RTT r0) :: answered_rtts outs in
            length outs = Z.to_nat (PingCount (opmtr 30 3 5) - 1)
            ∧ LossPoint h = Z.of_nat (length (filter (fun o => o = None) outs))
            ∧ Forall (fun x => (Best h <= x ∧ x <= Wrst h)%Q) rtts
            ∧ Best h ∈ rtts ∧ Wrst h ∈ rtts
            ∧ last rtts = Some (Last h).
Proof.
  apply (@traced_hop_extremes goNet Mock.transport Sequential (opmtr 30 3 5) "1.2.3.4"
           lossy_world (report_of lossy_runQ)
           (world_of lossy_runQ lossy_world)).
  - discriminate.
  - vm_compute. reflexivity.
Defined.

Definition steady_after : @World goNet (@Mock.transport goNet) :=
  Mock.record (Mock.EvTrace (addr "1.2.3.4")) (world0 steady_replies steady_script).

Lemma sequential_runs_coincide_witness :
  run64 (opmtr 30 3 5) "1.2.3.4" (world0 steady_replies steady_script)
  = noretry64 (opmtr 30 3 5) "1.2.3.4" (world0 steady_replies steady_script).
Proof.
  apply (@sequential_runs_coincide binary64 goNet Mock.transport (opmtr 30 3 5) "1.2.3.4"
           (world0 steady_replies steady_script) (addr "1.2.3.4") steady_replies None
           steady_after).
  - vm_compute. reflexivity.
  - vm_compute. reflexivity.
  - apply (bool_decide_unpack
             (map_Forall (fun (_ : Z) (hup : MTRHup (@float64 binary64)) => Host hup ≠ "???")
                (@discover binary64 goNet (opmtr 30 3 5) "1.2.3.4" (addr "1.2.3.4")
                   (@routes_of goNet (@Mock.transport goNet) steady_replies steady_after)))).
    vm_compute. reflexivity.
Defined.

Lemma RunMTR_returns_witness :
  is_Some (run64 (opmtr 30 3 5) "1.2.3.4" (world0 steady_replies steady_script)).
Proof.
  apply (@RunMTR_returns binary64 goNet Mock.transport (opmtr 30 3 5) "1.2.3.4"
           (world0 steady_replies steady_script)).
  vm_compute. split; [reflexivity|discriminate].
Defined.

Lemma RunMTRWithNoRetryPing_returns_witness :
  is_Some (noretry64 (opmtr 30 3 5) "1.2.3.4" (world0 steady_replies steady_script)).
Proof.
  apply (@RunMTRWithNoRetryPing_returns binary64 goNet Mock.transport (opmtr 30 3 5) "1.2.3.4"
           (world0 steady_replies steady_script)).
  vm_compute. split; [reflexivity|discriminate].
Defined.

Lemma RunMTRWithCocurrentPing_returns_witness :
  ∃ res, @RunMTRWithCocurrentPing binary64 goNet Mock.transport (opmtr 30 3 5) "1.2.3.4"
           (world0 steady_replies steady_script) res.
Proof.
  apply (@RunMTRWithCocurrentPing_returns binary64 goNet Mock.transport (opmtr 30 3 5)
           "1.2.3.4" (world0 steady_replies steady_script)).
  vm_compute. split; [reflexivity|discriminate].
Defined.

(** [PingCount] is the least [int] and the trace fails: the run returns
    the error of the trace. *)
Definition least_op : OPMTR (@net_IP goNet) := opmtr 30 MinInt 5.

(** On a path with one hop neither sequential operation returns: the
    loop of the hop has no end. *)
Example least_count_no_return :
  run64 least_op "1.2.3.4" (world0 steady_replies steady_script) = None
  ∧ noretry64 least_op "1.2.3.4" (world0 steady_replies steady_script) = None.
Proof. split; vm_compute; reflexivity. Qed.

Lemma least_count_never_reports_witness :
  Some (library_error (E := string) "no route") ≠ None
  ∧ Hups (@report_start binary64 goNet least_op "1.2.3.4") = [].
Proof.
  apply (@least_count_never_reports binary64 goNet Mock.transport Sequential least_op "1.2.3.4"
           broken_world (@report_start binary64 goNet least_op "1.2.3.4")
           (Some (library_error "no route")) broken_after).
  - reflexivity.
  - vm_compute. discriminate.
  - vm_compute. reflexivity.
Defined.

End Demo.
